(** * Monthly overdue-invoice reminder: the three scheduled scripts

    A shallow embedding of the three SuiteScript 2.1 scheduled scripts of the
    repository, and the properties of their grouping, sender-resolution, CSV
    and dispatch stages.

    - [Primary]  : [_jj_sc_monthly_overdue_email.js], first script
                   ([searchOverdueInvoices], [processCustomerNotifications],
                   [sendCustomerEmail], [getSenderId], [createCSVFile]);
    - [Modular]  : the second script of the same file ([getOverdueInvoices],
                   [notifyCustomers], [getSenderId], [generateCsvFile]);
    - [Inline]   : [part_000], where everything happens inside [execute].

    Strings are sequences of code units, one [ascii] each.  A JavaScript
    Number that holds an integer is a [Z]; every integer that the scripts
    compute (day counts, lengths, counters) is far below 2^53, where the
    double arithmetic of the engine is exact. *)

From Stdlib Require Import ZArith Lia Ascii.
From stdpp Require Import base list strings sorting pretty.

Local Open Scope Z_scope.

(** ** JavaScript primitives *)

Module Js.

(** [!s] on a string: only the empty string is falsy. *)
Definition truthy (s : string) : bool :=
  match s with
  | EmptyString => false
  | String _ _ => true
  end.

(** [a || b] on strings. *)
Definition or_else (a b : string) : string := if truthy a then a else b.

(** A Number: an integer, or NaN.  [Num z] is the Number nearest to [z]
    (the integer itself up to 2^53). *)
Inductive number :=
| Num (z : Z)
| NaN.

(** The values that reach [email.send] as author. *)
Inductive value :=
| VNumber (n : number)
| VString (s : string).

(** [`${n}`] for a Number holding an integer (below 10^21). *)
Definition number_to_string (n : number) : string :=
  match n with
  | Num z => pretty z
  | NaN => "NaN"
  end.

(** *** [parseInt(s)] without a radix argument *)

Definition code (c : ascii) : Z := Z.of_N (Ascii.N_of_ascii c).

(** White space code units below 256: TAB, LF, VT, FF, CR, SP, NBSP. *)
Definition is_white_space (c : ascii) : bool :=
  let n := code c in
  ((9 <=? n) && (n <=? 13)) || (n =? 32) || (n =? 160).

Fixpoint trim_start (s : string) : string :=
  match s with
  | String c r => if is_white_space c then trim_start r else s
  | EmptyString => s
  end.

Definition digit_value (c : ascii) : option Z :=
  let n := code c in
  if (48 <=? n) && (n <=? 57) then Some (n - 48)
  else if (97 <=? n) && (n <=? 122) then Some (n - 97 + 10)
  else if (65 <=? n) && (n <=? 90) then Some (n - 65 + 10)
  else None.

(** The longest prefix of digits of the radix, read left to right;
    [None] when there is no digit at all. *)
Fixpoint read_digits (radix : Z) (acc : option Z) (s : string) : option Z :=
  match s with
  | String c r =>
      match digit_value c with
      | Some d =>
          if d <? radix
          then read_digits radix (Some (radix * default 0 acc + d)) r
          else acc
      | None => acc
      end
  | EmptyString => acc
  end.

Definition strip_sign (s : string) : Z * string :=
  match s with
  | String "-" r => (-1, r)
  | String "+" r => (1, r)
  | _ => (1, s)
  end.

Definition strip_hex_prefix (s : string) : Z * string :=
  match s with
  | String "0" (String "x" r) => (16, r)
  | String "0" (String "X" r) => (16, r)
  | _ => (10, s)
  end.

Definition parseInt (s : string) : number :=
  let '(sign, s1) := strip_sign (trim_start s) in
  let '(radix, s2) := strip_hex_prefix s1 in
  match read_digits radix None s2 with
  | Some v => Num (sign * v)
  | None => NaN
  end.

(** [s.replace(/[^a-zA-Z0-9]/g, '_')] *)
Definition is_alnum (c : ascii) : bool :=
  let n := code c in
  ((48 <=? n) && (n <=? 57)) || ((65 <=? n) && (n <=? 90))
  || ((97 <=? n) && (n <=? 122)).

Fixpoint replace_non_alnum (s : string) : string :=
  match s with
  | String c r => String (if is_alnum c then c else "_"%char) (replace_non_alnum r)
  | EmptyString => EmptyString
  end.

(** [a - b] and [Math.floor(a / d)] for a positive integer [d]. *)
Definition sub (a b : number) : number :=
  match a, b with
  | Num x, Num y => Num (x - y)
  | _, _ => NaN
  end.

Definition floor_div (a : number) (d : Z) : number :=
  match a with
  | Num x => Num (x `div` d)
  | NaN => NaN
  end.

(** The line feed of a [\n] escape. *)
Definition LF : string := String "010"%char EmptyString.

(** The double quote. *)
Definition DQUOTE : string := String "034"%char EmptyString.

(** [xs.join(sep)] on an array of strings. *)
Definition join (sep : string) (xs : list string) : string := String.concat sep xs.

End Js.

(** ** Plain objects used as maps

    [const o = {}] followed by [o[k]] reads and [o[k] = v] writes.  The own
    properties are kept in creation order.  A read of a name that is not an
    own property falls through to [Object.prototype], whose members are all
    truthy (functions, and the prototype object itself for [__proto__]). *)

Module JsObject.

Definition prototype_names : list string :=
  [ "constructor"; "__defineGetter__"; "__defineSetter__"; "hasOwnProperty";
    "__lookupGetter__"; "__lookupSetter__"; "isPrototypeOf";
    "propertyIsEnumerable"; "toString"; "valueOf"; "__proto__";
    "toLocaleString" ].

Definition inherited (k : string) : bool := bool_decide (k ∈ prototype_names).

Definition t (V : Type) : Type := list (string * V).

Inductive slot (V : Type) : Type :=
| Own (v : V)
| Inherited
| Undefined.
Arguments Own {V} v.
Arguments Inherited {V}.
Arguments Undefined {V}.

Fixpoint get_own {V} (o : t V) (k : string) : option V :=
  match o with
  | [] => None
  | (k', v) :: o' => if decide (k' = k) then Some v else get_own o' k
  end.

(** [o[k]] *)
Definition get {V} (o : t V) (k : string) : slot V :=
  match get_own o k with
  | Some v => Own v
  | None => if inherited k then Inherited else Undefined
  end.

(** [o[k] = v]: an existing own property keeps its place, a new one goes
    last.  The scripts only assign after a falsy read of [o[k]], so never to
    an inherited name ([__proto__] included). *)
Fixpoint set {V} (o : t V) (k : string) (v : V) : t V :=
  match o with
  | [] => [(k, v)]
  | (k', v') :: o' =>
      if decide (k' = k) then (k, v) :: o' else (k', v') :: set o' k v
  end.

Definition is_digit (c : ascii) : bool :=
  let n := Js.code c in (48 <=? n) && (n <=? 57).

Fixpoint decimal_value (acc : Z) (s : string) : option Z :=
  match s with
  | EmptyString => Some acc
  | String c r =>
      if is_digit c then decimal_value (10 * acc + (Js.code c - 48)) r else None
  end.

(** An array index: the canonical decimal numeral of an integer in
    [0, 2^32 - 2]. *)
Definition array_index (k : string) : option Z :=
  match k with
  | EmptyString => None
  | String "0" EmptyString => Some 0
  | String "0" _ => None
  | _ =>
      match decimal_value 0 k with
      | Some n => if n <? 2 ^ 32 - 1 then Some n else None
      | None => None
      end
  end.

Definition index_le (a b : Z * string) : Prop := a.1 <= b.1.

#[global] Instance index_le_dec (a b : Z * string) : Decision (index_le a b) :=
  Z_le_dec a.1 b.1.

(** The order of [for (const k in o)] and of [Object.keys(o)]: array indices
    in ascending numeric order, then the other names in creation order.
    ([Object.prototype] has no enumerable member.) *)
Definition keys {V} (o : t V) : list string :=
  let ks := o.*1 in
  (merge_sort index_le (omap (λ k, (λ n, (n, k)) <$> array_index k) ks)).*2
  ++ filter (λ k, array_index k = None) ks.

End JsObject.

(** ** The host: search, record, file, email, log and the clock

    The scripts run inside the ERP's script runtime.  Every call into a host
    module is recorded, in order, in a history; what a call returns (or
    throws) is given by a [World], as a function of the history so far, so
    that any call may fail at any moment. *)

Module Host.

(** A thrown JavaScript error; the scripts only read [e.message]. *)
Record Exn := { message : string }.

Inductive Level := DEBUG | AUDIT | ERROR.

(** [search.create({type, filters, columns})] *)
Inductive FilterTerm :=
| Filter (field operator operand : string)
| AND.

Record SearchOptions := {
  search_type : string;
  filters : list FilterTerm;
  columns : list string
}.

(** A search result row or a loaded record: [x.getValue(fieldId)]. *)
Record Values := { getValue : string → string }.

Inductive RecordType := CUSTOMER | EMPLOYEE.

(** A select field in the answer of [search.lookupFields]. *)
Record SelectOption := { value : string; text : string }.

(** [search.lookupFields] on a customer, columns companyname, firstname,
    email, salesrep. *)
Record CustomerFields := {
  companyname : string;
  firstname : string;
  email : string;
  salesrep : list SelectOption
}.

Record File := {
  name : string;
  contents : string;
  folder : option Z
}.

Record EmailOptions := {
  author : Js.value;
  recipients : string;
  subject : string;
  body : string;
  attachments : list File
}.

Inductive Event :=
| Log (level : Level) (title : string) (details : option string)
| SearchRun (options : SearchOptions)
| DateNow
| LookupFields (type : RecordType) (id : string)
| RecordLoad (type : RecordType) (id : string)
| FileCreate (f : File)
| FileSave (f : File) (id : option Z)
| FileLoad (id : Z)
| EmailSend (options : EmailOptions)
| GetCurrentUser.

Definition History := list Event.

Record World := {
  (** the rows that [search.create(..).run().each] delivers *)
  search_run : SearchOptions → Exn + list Values;
  (** [new Date().getTime()], [Date.now()] *)
  date_now : History → Z;
  (** the time value of [new Date(s)]; NaN for an invalid date *)
  date_parse : string → Js.number;
  lookup_customer : History → string → Exn + CustomerFields;
  (** [search.lookupFields] on an employee, column email: the email *)
  lookup_employee : History → string → Exn + string;
  record_load : History → RecordType → string → Exn + Values;
  file_create : History → File → option Exn;
  file_save : History → File → Exn + Z;
  file_load : History → Z → option Exn;
  email_send : History → EmailOptions → option Exn;
  (** [runtime.getCurrentUser().id] *)
  current_user : Z;
  (** the TypeError of a call to a method that the receiver lacks *)
  type_error : Exn;
  (** the error of [file.load] on an identifier with no file *)
  no_such_file : Exn
}.

(** The file cabinet: the file most recently saved under an identifier. *)
Fixpoint cabinet (h : History) (id : Z) : option File :=
  match h with
  | [] => None
  | ev :: h' =>
      match cabinet h' id with
      | Some f => Some f
      | None =>
          match ev with
          | FileSave f (Some id') => if decide (id' = id) then Some f else None
          | _ => None
          end
      end
  end.

(** The host [w] with another answer of the search. *)
Definition with_search (w : World) (answer : Exn + list Values) : World :=
  {| search_run _ := answer;
     date_now := date_now w;
     date_parse := date_parse w;
     lookup_customer := lookup_customer w;
     lookup_employee := lookup_employee w;
     record_load := record_load w;
     file_create := file_create w;
     file_save := file_save w;
     file_load := file_load w;
     email_send := email_send w;
     current_user := current_user w;
     type_error := type_error w;
     no_such_file := no_such_file w |}.

End Host.

(** ** Function bodies: local variables, exceptions, host calls *)

Module Run.
Import Host.

Inductive outcome (A : Type) : Type :=
| Normal (a : A)
| Thrown (e : Exn).
Arguments Normal {A} a.
Arguments Thrown {A} e.

(** A computation over the local variables [S] of the running function and
    the history of host calls.  An exception leaves both as they are at the
    throw. *)
Definition M (S A : Type) : Type := S → History → outcome A * S * History.

Definition ret {S A} (a : A) : M S A := λ s h, (Normal a, s, h).

Definition bind {S A B} (m : M S A) (k : A → M S B) : M S B :=
  λ s h,
    match m s h with
    | (Normal a, s', h') => k a s' h'
    | (Thrown e, s', h') => (Thrown e, s', h')
    end.

Definition throw {S A} (e : Exn) : M S A := λ s h, (Thrown e, s, h).

(** [try { m } catch (e) { handler e }] *)
Definition try_catch {S A} (m : M S A) (handler : Exn → M S A) : M S A :=
  λ s h,
    match m s h with
    | (Normal a, s', h') => (Normal a, s', h')
    | (Thrown e, s', h') => handler e s' h'
    end.

Definition gets {S A} (f : S → A) : M S A := λ s h, (Normal (f s), s, h).

Definition modify {S} (f : S → S) : M S unit := λ s h, (Normal (), f s, h).

(** A call of a function with its own local variables. *)
Definition call {S S' A} (s0 : S') (m : M S' A) : M S A :=
  λ s h, let '(r, _, h') := m s0 h in (r, s, h').

(** A host call: recorded, then answered by the world. *)
Definition host {S A} (ev : Event) (answer : History → Exn + A) : M S A :=
  λ s h,
    match answer h with
    | inl e => (Thrown e, s, h ++ [ev])
    | inr a => (Normal a, s, h ++ [ev])
    end.

Definition host_ {S} (ev : Event) (answer : History → option Exn) : M S unit :=
  host ev (λ h, match answer h with Some e => inl e | None => inr () end).

End Run.

Declare Scope run_scope.
Delimit Scope run_scope with run.
Notation "x <- m ;; k" := (Run.bind m (λ x, k))
  (at level 100, m at next level, right associativity) : run_scope.
Notation "m ;;; k" := (Run.bind m (λ _, k))
  (at level 100, right associativity) : run_scope.

Module Api.
Import Host Run.
Local Open Scope run_scope.

Section Api.
Context (w : World) {S : Type}.

Definition log (level : Level) (title details : string) : M S unit :=
  host (Log level title (Some details)) (λ _, inr ()).

Definition log_title (level : Level) (title : string) : M S unit :=
  host (Log level title None) (λ _, inr ()).

Definition search_create_run (options : SearchOptions) : M S (list Values) :=
  host (SearchRun options) (λ _, search_run w options).

(** [new Date().getTime()] and [Date.now()] *)
Definition Date_now : M S Z :=
  host DateNow (λ h, inr (date_now w h)).

Definition search_lookupFields_customer (id : string) : M S CustomerFields :=
  host (LookupFields CUSTOMER id) (λ h, lookup_customer w h id).

Definition search_lookupFields_employee (id : string) : M S string :=
  host (LookupFields EMPLOYEE id) (λ h, lookup_employee w h id).

Definition record_load_ (type : RecordType) (id : string) : M S Values :=
  host (RecordLoad type id) (λ h, record_load w h type id).

Definition file_create_ (f : File) : M S File :=
  host (FileCreate f) (λ h, match file_create w h f with Some e => inl e | None => inr f end).

(** [f.save()]: the new identifier; the history records the stored file. *)
Definition file_save_ (f : File) : M S Z :=
  λ s h,
    match file_save w h f with
    | inl e => (Thrown e, s, h ++ [FileSave f None])
    | inr id => (Normal id, s, h ++ [FileSave f (Some id)])
    end.

Definition file_load_ (id : Z) : M S File :=
  host (FileLoad id)
    (λ h, match file_load w h id with
          | Some e => inl e
          | None => match cabinet h id with
                    | Some f => inr f
                    | None => inl (no_such_file w)
                    end
          end).

Definition email_send_ (options : EmailOptions) : M S unit :=
  host_ (EmailSend options) (λ h, email_send w h options).

Definition runtime_getCurrentUser_id : M S Z :=
  host GetCurrentUser (λ _, inr (current_user w)).

(** [xs.forEach(body)] and [for (const x in o) body] over the keys. *)
Fixpoint for_each {A} (xs : list A) (body : A → M S unit) : M S unit :=
  match xs with
  | [] => ret ()
  | x :: xs' => body x ;;; for_each xs' body
  end.

(** [resultSet.each(callback)]: stops when the callback returns false. *)
Fixpoint each (rs : list Values) (callback : Values → M S bool) : M S unit :=
  match rs with
  | [] => ret ()
  | r :: rs' => continue <- callback r ;; if continue then each rs' callback else ret ()
  end.

End Api.
End Api.

(** ** Data shared by the three scripts *)

(** An invoice summary, as pushed on a customer's list. *)
Record Invoice := {
  invoiceNumber : string;
  amount : string;
  daysOverdue : Js.number
}.

(** [customerInvoices]: customer identifier to invoice summaries. *)
Abbreviation Groups := (JsObject.t (list Invoice)).

(** [Math.floor((new Date() - dueDate) / (1000 * 60 * 60 * 24))] *)
Definition days_overdue (now : Z) (dueDate : Js.number) : Js.number :=
  Js.floor_div (Js.sub (Js.Num now) dueDate) (1000 * 60 * 60 * 24).

(** The administrator, as author of an email. *)
Definition admin : Js.value := Js.VNumber (Js.Num (-5)).

(** ** The primary script *)

Module Primary.
Import Host Run Api.
Local Open Scope run_scope.

(** The local variables of [searchOverdueInvoices]. *)
Record Vars := {
  customerInvoices : Groups;
  invoiceCount : Z;
  processedInvoices : JsObject.t bool
}.

Definition initial : Vars :=
  {| customerInvoices := []; invoiceCount := 0; processedInvoices := [] |}.

Definition set_customerInvoices (f : Groups → Groups) (v : Vars) : Vars :=
  {| customerInvoices := f (customerInvoices v);
     invoiceCount := invoiceCount v;
     processedInvoices := processedInvoices v |}.

Definition set_invoiceCount (f : Z → Z) (v : Vars) : Vars :=
  {| customerInvoices := customerInvoices v;
     invoiceCount := f (invoiceCount v);
     processedInvoices := processedInvoices v |}.

Definition set_processedInvoices (f : JsObject.t bool → JsObject.t bool) (v : Vars) : Vars :=
  {| customerInvoices := customerInvoices v;
     invoiceCount := invoiceCount v;
     processedInvoices := f (processedInvoices v) |}.

Definition search_options : SearchOptions :=
  {| search_type := "invoice";
     filters := [ Filter "status" "anyof" "CustInvc:A"; AND;
                  Filter "duedate" "before" "lastmonth"; AND;
                  Filter "mainline" "is" "T" ];
     columns := ["entity"; "tranid"; "amount"; "duedate"] |}.

(** [`${customerId}_${invoiceNumber}`] *)
Definition invoiceKey (customerId invoiceNumber : string) : string :=
  customerId +:+ "_" +:+ invoiceNumber.

(** [if (processedInvoices[invoiceKey])] *)
Definition seen (processed : JsObject.t bool) (key : string) : bool :=
  match JsObject.get processed key with
  | JsObject.Own b => b
  | JsObject.Inherited => true
  | JsObject.Undefined => false
  end.

(** [!customerInvoices[customerId]]: only a missing entry is falsy. *)
Definition missing (groups : Groups) (customerId : string) : bool :=
  match JsObject.get groups customerId with
  | JsObject.Undefined => true
  | _ => false
  end.

Definition csv_header : string :=
  "Customer Name,Customer Email,Invoice Document Number,Invoice Amount,Days Overdue" +:+ Js.LF.

Definition csv_row (customerName customerEmail : string) (inv : Invoice) : string :=
  Js.DQUOTE +:+ customerName +:+ Js.DQUOTE +:+ "," +:+ Js.DQUOTE +:+ customerEmail
  +:+ Js.DQUOTE +:+ "," +:+ invoiceNumber inv +:+ "," +:+ amount inv +:+ ","
  +:+ Js.number_to_string (daysOverdue inv) +:+ Js.LF.

(** [csvContent] after the [forEach] of [createCSVFile]. *)
Definition csv_content (customerName customerEmail : string) (invoices : list Invoice) : string :=
  fold_left (λ csvContent inv, csvContent +:+ csv_row customerName customerEmail inv)
    invoices csv_header.

(** [salesrep && salesrep.length > 0 ? salesrep[0].value : null] *)
Definition first_value (salesrep : list SelectOption) : option string :=
  match salesrep with
  | first :: _ => Some (value first)
  | [] => None
  end.

Section Script.
Context (w : World).

(** [customerInvoices[customerId].push(inv)] *)
Definition push (customerId : string) (inv : Invoice) : M Vars unit :=
  slot <- gets (λ v, JsObject.get (customerInvoices v) customerId) ;;
  match slot with
  | JsObject.Own l =>
      modify (set_customerInvoices (λ o, JsObject.set o customerId (l ++ [inv])))
  | _ => throw (type_error w)
  end.

(** The callback of [invoiceResults.each]. *)
Definition each_callback (result : Values) : M Vars bool :=
  try_catch
    (let customerId := getValue result "entity" in
     let invoiceNumber := getValue result "tranid" in
     if negb (Js.truthy customerId) then ret true else
     let invoiceKey := invoiceKey customerId invoiceNumber in
     already <- gets (λ v, seen (processedInvoices v) invoiceKey) ;;
     if already : bool then ret true else
     modify (set_processedInvoices (λ o, JsObject.set o invoiceKey true)) ;;;
     modify (set_invoiceCount (λ n, n + 1)) ;;;
     let amount := getValue result "amount" in
     let dueDate := date_parse w (getValue result "duedate") in
     now <- Date_now w ;;
     let daysOverdue := days_overdue now dueDate in
     absent <- gets (λ v, missing (customerInvoices v) customerId) ;;
     (if absent : bool
      then modify (set_customerInvoices (λ o, JsObject.set o customerId []))
      else ret ()) ;;;
     push customerId
       {| invoiceNumber := invoiceNumber; amount := amount; daysOverdue := daysOverdue |} ;;;
     ret true)
    (λ e,
       log ERROR "Invoice Processing Error" ("Error processing invoice: " +:+ message e) ;;;
       ret true).

Definition log_customer_invoices (groups : Groups) (customerId : string) : M Vars unit :=
  let invoices := default [] (JsObject.get_own groups customerId) in
  log AUDIT "Customer Invoices"
    ("Customer ID " +:+ customerId +:+ ": " +:+ pretty (length invoices)
     +:+ " invoices - " +:+ Js.join ", " (invoiceNumber <$> invoices)).

Definition searchOverdueInvoices_body : M Vars Groups :=
  try_catch
    (invoiceResults <- search_create_run w search_options ;;
     each invoiceResults each_callback ;;;
     n <- gets invoiceCount ;;
     log AUDIT "Invoices Found" ("Total unique overdue invoices: " +:+ pretty n) ;;;
     groups <- gets customerInvoices ;;
     for_each (JsObject.keys groups) (log_customer_invoices groups) ;;;
     ret groups)
    (λ e,
       log ERROR "Search Error" ("Error searching overdue invoices: " +:+ message e) ;;;
       throw e).

Definition searchOverdueInvoices : M unit Groups :=
  call initial searchOverdueInvoices_body.

Definition getSenderId (salesRepId : option string) (customerName : string) : M unit Js.value :=
  try_catch
    (match salesRepId with
     | None => ret admin
     | Some id =>
         if negb (Js.truthy id) then ret admin else
         salesRepEmail <- search_lookupFields_employee w id ;;
         if Js.truthy salesRepEmail
         then ret (Js.VNumber (Js.parseInt id))
         else
           log AUDIT "Sales Rep Missing Email"
             ("Sales rep for customer " +:+ customerName +:+ " has no email. Using admin ID.") ;;;
           ret admin
     end)
    (λ e,
       log ERROR "Sales Rep Load Error"
         ("Could not load sales rep record for ID " +:+ default "null" salesRepId +:+ ": "
          +:+ message e) ;;;
       ret admin).

Definition createCSVFile (customerName customerEmail : string) (invoices : list Invoice)
  : M unit File :=
  try_catch
    (let csvContent := csv_content customerName customerEmail invoices in
     stamp <- Date_now w ;;
     csvFile <- file_create_ w
       {| name := "Overdue_Invoices_" +:+ Js.replace_non_alnum customerName +:+ "_"
                  +:+ pretty stamp +:+ ".csv";
          contents := csvContent;
          folder := Some 1226 |} ;;
     fileId <- file_save_ w csvFile ;;
     log DEBUG "CSV File Created"
       ("File ID: " +:+ pretty fileId +:+ " for customer " +:+ customerName) ;;;
     file_load_ w fileId)
    (λ e,
       log ERROR "CSV Creation Error"
         ("Error creating CSV file for " +:+ customerName +:+ ": " +:+ message e) ;;;
       throw e).

Definition sendCustomerEmail (customerId : string) (invoices : list Invoice) : M unit unit :=
  try_catch
    (customerFields <- search_lookupFields_customer w customerId ;;
     let customerName :=
       Js.or_else (Js.or_else (companyname customerFields) (firstname customerFields)) "Customer" in
     let customerEmail := email customerFields in
     let salesRepId := first_value (salesrep customerFields) in
     if negb (Js.truthy customerEmail)
     then
       log ERROR "Missing Email"
         ("Customer " +:+ customerName +:+ " (ID: " +:+ customerId +:+ ") has no email. Skipping.")
     else
       senderId <- getSenderId salesRepId customerName ;;
       csvFile <- createCSVFile customerName customerEmail invoices ;;
       email_send_ w
         {| author := senderId;
            recipients := customerEmail;
            subject := "Overdue Invoice Notification";
            body := "Dear " +:+ customerName +:+ "," +:+ Js.LF +:+ Js.LF
                    +:+ "Please find attached your overdue invoices.";
            attachments := [csvFile] |} ;;;
       log AUDIT "Email Sent"
         ("Email sent to " +:+ customerEmail +:+ " with " +:+ pretty (length invoices)
          +:+ " overdue invoices."))
    (λ e,
       log ERROR "Email Send Error"
         ("Failed to send email to customer ID " +:+ customerId +:+ ": " +:+ message e) ;;;
       throw e).

(** The body of the [for (const customerId in customerInvoices)] loop. *)
Definition process_customer (customerInvoices : Groups) (customerId : string) : M unit unit :=
  try_catch
    (sendCustomerEmail customerId (default [] (JsObject.get_own customerInvoices customerId)))
    (λ e,
       log ERROR "Customer Processing Error"
         ("Failed to process customer ID " +:+ customerId +:+ ": " +:+ message e)).

Definition processCustomerNotifications (customerInvoices : Groups) : M unit unit :=
  for_each (JsObject.keys customerInvoices) (process_customer customerInvoices).

Definition execute : M unit unit :=
  try_catch
    (log AUDIT "Script Started" "Monthly Overdue Invoice Email Notification" ;;;
     customerInvoices <- searchOverdueInvoices ;;
     if (length (JsObject.keys customerInvoices) =? 0)%nat
     then
       log AUDIT "No Invoices Found" "No overdue invoices were found for the previous month."
     else
       log AUDIT "Customers to Notify"
         ("Total customers with overdue invoices: "
          +:+ pretty (length (JsObject.keys customerInvoices))) ;;;
       processCustomerNotifications customerInvoices ;;;
       log AUDIT "Script End" "Overdue Invoice Email Notification script completed successfully.")
    (λ e,
       log ERROR "Script Execution Error"
         ("Fatal error in execute function: " +:+ message e) ;;;
       throw e).

End Script.
End Primary.

(** ** The second script of the same file *)

Module Modular.
Import Host Run Api.
Local Open Scope run_scope.

Definition search_options : SearchOptions :=
  {| search_type := "invoice";
     filters := [ Filter "status" "anyof" "CustInvc:A"; AND;
                  Filter "duedate" "before" "lastmonth" ];
     columns := ["entity"; "tranid"; "amount"; "duedate"; "salesrep"] |}.

(** [!customerInvoices[customerId]]: only a missing entry is falsy. *)
Definition missing (groups : Groups) (customerId : string) : bool :=
  match JsObject.get groups customerId with
  | JsObject.Undefined => true
  | _ => false
  end.

Definition csv_header : string := "Invoice Number,Amount,Days Overdue" +:+ Js.LF.

Definition csv_row (inv : Invoice) : string :=
  invoiceNumber inv +:+ "," +:+ amount inv +:+ ","
  +:+ Js.number_to_string (daysOverdue inv) +:+ Js.LF.

(** [csvContent] after the [forEach] of [generateCsvFile]. *)
Definition csv_content (invoices : list Invoice) : string :=
  fold_left (λ csvContent inv, csvContent +:+ csv_row inv) invoices csv_header.

Section Script.
Context (w : World).

(** [customerInvoices[customerId].push(inv)]; the only local variable of
    [getOverdueInvoices] is [customerInvoices]. *)
Definition push (customerId : string) (inv : Invoice) : M Groups unit :=
  slot <- gets (λ o : Groups, JsObject.get o customerId) ;;
  match slot with
  | JsObject.Own l => modify (λ o, JsObject.set o customerId (l ++ [inv]))
  | _ => throw (type_error w)
  end.

Definition each_callback (result : Values) : M Groups bool :=
  let customerId := getValue result "entity" in
  if negb (Js.truthy customerId) then ret true else
  let invoiceNumber := getValue result "tranid" in
  let amount := getValue result "amount" in
  let dueDate := date_parse w (getValue result "duedate") in
  now <- Date_now w ;;
  let daysOverdue := days_overdue now dueDate in
  absent <- gets (λ o, missing o customerId) ;;
  (if absent : bool then modify (λ o, JsObject.set o customerId []) else ret ()) ;;;
  push customerId
    {| invoiceNumber := invoiceNumber; amount := amount; daysOverdue := daysOverdue |} ;;;
  ret true.

Definition getOverdueInvoices : M unit Groups :=
  call ([] : Groups)
    (invoiceResults <- search_create_run w search_options ;;
     each invoiceResults each_callback ;;;
     gets id).

(** [senderId] is the local variable of [getSenderId]. *)
Definition getSenderId (salesRepId : string) : M unit Js.value :=
  call admin
    ((if Js.truthy salesRepId
      then
        try_catch
          (salesRepRecord <- record_load_ w EMPLOYEE salesRepId ;;
           let salesRepEmail := getValue salesRepRecord "email" in
           if Js.truthy salesRepEmail
           then modify (λ _, Js.VString salesRepId)
           else ret ())
          (λ e,
             log ERROR "Sales Rep Load Error"
               ("Could not load sales rep record for ID " +:+ salesRepId +:+ ": "
                +:+ message e))
      else ret ()) ;;;
     gets id).

Definition generateCsvFile (customerName : string) (invoices : list Invoice) : M unit File :=
  let csvContent := csv_content invoices in
  file_create_ w
    {| name := "Overdue_Invoices_" +:+ customerName +:+ ".csv";
       contents := csvContent;
       folder := None |}.

(** The [try] block of the [for (const customerId in customerInvoices)]
    loop; [continue] ends it normally. *)
Definition notify_customer_try (customerInvoices : Groups) (customerId : string)
  : M unit unit :=
  customerRecord <- record_load_ w CUSTOMER customerId ;;
  let customerName :=
    Js.or_else (getValue customerRecord "companyname") (getValue customerRecord "firstname") in
  let customerEmail := getValue customerRecord "email" in
  let salesRepId := getValue customerRecord "salesrep" in
  if negb (Js.truthy customerEmail) then ret () else
  senderId <- getSenderId salesRepId ;;
  csvFile <- generateCsvFile customerName
    (default [] (JsObject.get_own customerInvoices customerId)) ;;
  email_send_ w
    {| author := senderId;
       recipients := customerEmail;
       subject := "Overdue Invoice Notification";
       body := "Dear " +:+ customerName +:+ "," +:+ Js.LF +:+ Js.LF
               +:+ "Please find attached your overdue invoices.";
       attachments := [csvFile] |}.

(** The body of the loop: the [try] block and its [catch]. *)
Definition notify_customer (customerInvoices : Groups) (customerId : string) : M unit unit :=
  try_catch
    (notify_customer_try customerInvoices customerId)
    (λ e,
       log ERROR "Email Error"
         ("Failed to send email to customer ID " +:+ customerId +:+ ": " +:+ message e)).

Definition notifyCustomers (customerInvoices : Groups) : M unit unit :=
  for_each (JsObject.keys customerInvoices) (notify_customer customerInvoices).

Definition execute : M unit unit :=
  customerInvoices <- getOverdueInvoices ;;
  if (length (JsObject.keys customerInvoices) =? 0)%nat
  then log AUDIT "No Invoices Found" "No overdue invoices were found for the previous month."
  else notifyCustomers customerInvoices.

End Script.
End Modular.

(** ** The script with everything inside [execute] *)

Module Inline.
Import Host Run Api.
Local Open Scope run_scope.

(** The local variables of [execute] that are assigned after their
    declaration. *)
Record Vars := {
  customerInvoices : Groups;
  invoiceCount : Z
}.

Definition initial : Vars := {| customerInvoices := []; invoiceCount := 0 |}.

Definition set_customerInvoices (f : Groups → Groups) (v : Vars) : Vars :=
  {| customerInvoices := f (customerInvoices v); invoiceCount := invoiceCount v |}.

Definition set_invoiceCount (f : Z → Z) (v : Vars) : Vars :=
  {| customerInvoices := customerInvoices v; invoiceCount := f (invoiceCount v) |}.

Definition search_options : SearchOptions :=
  {| search_type := "invoice";
     filters := [ Filter "status" "anyof" "CustInvc:A"; AND;
                  Filter "duedate" "before" "lastmonth" ];
     columns := ["entity"; "tranid"; "amount"; "duedate"; "salesrep"] |}.

(** [!customerInvoices[customerId]]: only a missing entry is falsy. *)
Definition missing (groups : Groups) (customerId : string) : bool :=
  match JsObject.get groups customerId with
  | JsObject.Undefined => true
  | _ => false
  end.

Definition csv_header : string := "Invoice Number,Amount,Days Overdue" +:+ Js.LF.

Definition csv_row (inv : Invoice) : string :=
  invoiceNumber inv +:+ "," +:+ amount inv +:+ ","
  +:+ Js.number_to_string (daysOverdue inv) +:+ Js.LF.

(** [csvContent] after the [forEach]. *)
Definition csv_content (invoices : list Invoice) : string :=
  fold_left (λ csvContent inv, csvContent +:+ csv_row inv) invoices csv_header.

(** [`${senderId}`] *)
Definition value_to_string (v : Js.value) : string :=
  match v with
  | Js.VNumber n => Js.number_to_string n
  | Js.VString s => s
  end.

Section Script.
Context (w : World).

(** [customerInvoices[customerId].push(inv)] *)
Definition push (customerId : string) (inv : Invoice) : M Vars unit :=
  slot <- gets (λ v, JsObject.get (customerInvoices v) customerId) ;;
  match slot with
  | JsObject.Own l =>
      modify (set_customerInvoices (λ o, JsObject.set o customerId (l ++ [inv])))
  | _ => throw (type_error w)
  end.

Definition each_callback (result : Values) : M Vars bool :=
  let customerId := getValue result "entity" in
  if negb (Js.truthy customerId)
  then
    log ERROR "Missing Customer ID" "Skipping invoice with no customer ID." ;;;
    ret true
  else
    modify (set_invoiceCount (λ n, n + 1)) ;;;
    let invoiceNumber := getValue result "tranid" in
    let amount := getValue result "amount" in
    let dueDate := date_parse w (getValue result "duedate") in
    now <- Date_now w ;;
    let daysOverdue := days_overdue now dueDate in
    log DEBUG "Invoice Found"
      ("Customer ID: " +:+ customerId +:+ ", Invoice: " +:+ invoiceNumber +:+ ", Amount: "
       +:+ amount +:+ ", Days Overdue: " +:+ Js.number_to_string daysOverdue) ;;;
    absent <- gets (λ v, missing (customerInvoices v) customerId) ;;
    (if absent : bool
     then modify (set_customerInvoices (λ o, JsObject.set o customerId []))
     else ret ()) ;;;
    push customerId
      {| invoiceNumber := invoiceNumber; amount := amount; daysOverdue := daysOverdue |} ;;;
    ret true.

(** The [try] block of the [for (const customerId in customerInvoices)]
    loop; [continue] ends it normally. *)
Definition notify_customer_try (groups : Groups) (customerId : string) : M Vars unit :=
  customerRecord <- record_load_ w CUSTOMER customerId ;;
  let customerName :=
    Js.or_else (getValue customerRecord "companyname") (getValue customerRecord "firstname") in
  let customerEmail := getValue customerRecord "email" in
  let salesRepId := getValue customerRecord "salesrep" in
  if negb (Js.truthy customerEmail)
  then
    log ERROR "Missing Email"
      ("Customer " +:+ customerName +:+ " (ID: " +:+ customerId +:+ ") has no email. Skipping.")
  else
    senderId <-
      (if Js.truthy salesRepId
       then ret (Js.VString salesRepId)
       else user <- runtime_getCurrentUser_id w ;; ret (Js.VNumber (Js.Num user))) ;;
    log AUDIT "Preparing Email"
      ("Customer: " +:+ customerName +:+ ", Email: " +:+ customerEmail +:+ ", Sender ID: "
       +:+ value_to_string senderId) ;;;
    let invoices := default [] (JsObject.get_own groups customerId) in
    let csvContent := csv_content invoices in
    csvFile <- file_create_ w
      {| name := "Overdue_Invoices_" +:+ customerName +:+ ".csv";
         contents := csvContent;
         folder := None |} ;;
    email_send_ w
      {| author := senderId;
         recipients := customerEmail;
         subject := "Overdue Invoice Notification";
         body := "Dear " +:+ customerName +:+ "," +:+ Js.LF +:+ Js.LF
                 +:+ "Please find attached your overdue invoices";
         attachments := [csvFile] |} ;;;
    log AUDIT "Email Sent"
      ("Email sent to " +:+ customerEmail +:+ " with " +:+ pretty (length invoices)
       +:+ " overdue invoices.").

(** The body of the loop: the [try] block and its [catch]. *)
Definition notify_customer (groups : Groups) (customerId : string) : M Vars unit :=
  try_catch
    (notify_customer_try groups customerId)
    (λ e,
       log ERROR "Email Error"
         ("Failed to send email to customer ID " +:+ customerId +:+ ": " +:+ message e)).

(** The grouping stage: the search and its [each]. *)
Definition group_invoices : M Vars unit :=
  invoiceResults <- search_create_run w search_options ;;
  each invoiceResults each_callback.

(** The dispatch stage: the [for ... in] loop. *)
Definition notify_customers : M Vars unit :=
  groups <- gets customerInvoices ;;
  for_each (JsObject.keys groups) (notify_customer groups).

Definition execute : M unit unit :=
  call initial
    (log_title AUDIT "Script Started" ;;;
     group_invoices ;;;
     n <- gets invoiceCount ;;
     if n =? 0
     then log AUDIT "No Invoices Found" "No overdue invoices were found for the previous month."
     else
       log AUDIT "Invoices Found" ("Total overdue invoices: " +:+ pretty n) ;;;
       groups <- gets customerInvoices ;;
       log AUDIT "Customers to Notify"
         ("Total customers with overdue invoices: " +:+ pretty (length (JsObject.keys groups))) ;;;
       notify_customers ;;;
       log AUDIT "Script End" "Overdue Invoice Email Notification script completed.").

End Script.
End Inline.

(** ** Reasoning about runs *)

Module Logic.
Import Host Run.

(** [wp m Q s h]: the run of [m] from the variables [s] and the history [h]
    ends (every run does) in an outcome, variables and a history that
    satisfy [Q]. *)
Definition wp {S A} (m : M S A) (Q : outcome A → S → History → Prop)
    (s : S) (h : History) : Prop :=
  Q (m s h).1.1 (m s h).1.2 (m s h).2.

(** The history at the end of a run. *)
Definition history_after {S A} (m : M S A) (s : S) (h : History) : History := (m s h).2.

(** The outcome of a run. *)
Definition outcome_of {S A} (m : M S A) (s : S) (h : History) : outcome A := (m s h).1.1.

Definition is_email (ev : Event) : bool :=
  match ev with
  | EmailSend _ => true
  | _ => false
  end.

End Logic.

(** ** Sample data *)

Module Sample.
Import Host.

(** A search result row with the four columns that the scripts read. *)
Definition row (entity tranid amount duedate : string) : Values :=
  {| getValue c :=
       if decide (c = "entity") then entity
       else if decide (c = "tranid") then tranid
       else if decide (c = "amount") then amount
       else if decide (c = "duedate") then duedate
       else EmptyString |}.

(** A loaded customer or employee record. *)
Definition record (companyname firstname email salesrep : string) : Values :=
  {| getValue c :=
       if decide (c = "companyname") then companyname
       else if decide (c = "firstname") then firstname
       else if decide (c = "email") then email
       else if decide (c = "salesrep") then salesrep
       else EmptyString |}.

(** 2024-01-01 and 2024-03-01, midnight UTC, in milliseconds. *)
Definition jan1 : Z := 1704067200000.
Definition mar1 : Z := 1709251200000.

(** A host where nothing fails.  Customer 1 (ACME) has an email and the
    sales rep 42, who has an email; customer 2 (Bob) has neither an email
    nor a sales rep; employee 43 has no email; any other record is missing. *)
Definition world (rows : list Values) : World :=
  {| search_run _ := inr rows;
     date_now _ := mar1;
     date_parse s := if decide (s = "1/1/2024") then Js.Num jan1 else Js.NaN;
     lookup_customer _ id :=
       if decide (id = "1") then
         inr {| companyname := "ACME"; firstname := EmptyString; email := "ap@acme.test";
                salesrep := [ {| value := "42"; text := "Rep" |} ] |}
       else if decide (id = "2") then
         inr {| companyname := EmptyString; firstname := "Bob"; email := EmptyString;
                salesrep := [] |}
       else inl {| message := "That record does not exist." |};
     lookup_employee _ id :=
       if decide (id = "42") then inr "rep@seller.test"
       else if decide (id = "43") then inr EmptyString
       else inl {| message := "That record does not exist." |};
     record_load _ type id :=
       match type with
       | CUSTOMER =>
           if decide (id = "1") then inr (record "ACME" EmptyString "ap@acme.test" "42")
           else if decide (id = "2") then inr (record EmptyString "Bob" EmptyString EmptyString)
           else if decide (id = "3") then inr (record "Initech" EmptyString "ap@initech.test" EmptyString)
           else if decide (id = "4") then inr (record "Globex" EmptyString "ap@globex.test" "43")
           else inl {| message := "That record does not exist." |}
       | EMPLOYEE =>
           if decide (id = "42") then inr (record EmptyString "Rep" "rep@seller.test" EmptyString)
           else if decide (id = "43") then inr (record EmptyString "Quiet" EmptyString EmptyString)
           else inl {| message := "That record does not exist." |}
       end;
     file_create _ _ := None;
     file_save h _ := inr (Z.of_nat (length h));
     file_load _ _ := None;
     email_send _ _ := None;
     current_user := 7;
     type_error := {| message := "push is not a function" |};
     no_such_file := {| message := "That record does not exist." |} |}.

(** The same invoice of customer 1 delivered twice by the search. *)
Definition duplicate_rows : list Values :=
  [ row "1" "INV1" "100" "1/1/2024"; row "1" "INV1" "100" "1/1/2024" ].

(** Two different invoices, of the customers 1 and 1_2, with the same
    deduplication key 1_2_3. *)
Definition colliding_rows : list Values :=
  [ row "1" "2_3" "100" "1/1/2024"; row "1_2" "3" "250" "1/1/2024" ].

(** One overdue invoice of customer 1. *)
Definition one_row : list Values := [ row "1" "INV1" "100" "1/1/2024" ].

(** The CSV file and the email that the second script produces for it. *)
Definition modular_file : File :=
  {| name := "Overdue_Invoices_ACME.csv";
     contents :=
       Modular.csv_content
         [ {| invoiceNumber := "INV1"; amount := "100"; daysOverdue := Js.Num 60 |} ];
     folder := None |}.

Definition modular_email : EmailOptions :=
  {| author := Js.VString "42";
     recipients := "ap@acme.test";
     subject := "Overdue Invoice Notification";
     body := "Dear ACME," +:+ Js.LF +:+ Js.LF +:+ "Please find attached your overdue invoices.";
     attachments := [modular_file] |}.

(** The groups used to exercise the dispatch of one customer. *)
Definition invoice_60 : Invoice :=
  {| invoiceNumber := "INV1"; amount := "100"; daysOverdue := Js.Num 60 |}.

Definition groups_of (customerId : string) : Groups := [(customerId, [invoice_60])].

(** The error of a search that cannot run. *)
Definition unavailable : Exn := {| message := "The search could not be run." |}.

(** A host whose search fails. *)
Definition offline : World := with_search (world []) (inl unavailable).

(** An invoice of a customer named as a member of [Object.prototype],
    between two invoices of customer 1. *)
Definition hostile_rows : list Values :=
  [ row "1" "INV1" "100" "1/1/2024"; row "constructor" "INV9" "900" "1/1/2024";
    row "1" "INV2" "200" "1/1/2024" ].

(** The invoice INV1 of customer 1 delivered twice, with two amounts. *)
Definition repriced_rows : list Values :=
  [ row "1" "INV1" "100" "1/1/2024"; row "1" "INV1" "250" "1/1/2024" ].

(** A row without a customer, two invoices of customer 1 and, between
    them, one of customer 3. *)
Definition mixed_rows : list Values :=
  [ row EmptyString "INV0" "10" "1/1/2024"; row "1" "INV1" "100" "1/1/2024";
    row "3" "INV3" "300" "1/1/2024"; row "1" "INV2" "200" "1/1/2024" ].

(** Invoices of the customers 10, b and 9, in this order, and a second
    invoice of customer 10. *)
Definition unordered_rows : list Values :=
  [ row "10" "INV1" "100" "1/1/2024"; row "b" "INV2" "200" "1/1/2024";
    row "9" "INV3" "300" "1/1/2024"; row "10" "INV4" "400" "1/1/2024" ].

(** An invoice whose due date is written day first, which [new Date]
    cannot read. *)
Definition day_first_rows : list Values := [ row "1" "INV1" "100" "31/1/2024" ].

End Sample.

(** ** Vocabulary of the properties *)

Module Spec.
Import Host.

(** The summary that a script builds from a row, when the clock is read
    after the history [h]. *)
Definition summary_of (w : World) (h : History) (r : Values) : Invoice :=
  {| invoiceNumber := getValue r "tranid";
     amount := getValue r "amount";
     daysOverdue := days_overdue (date_now w h) (date_parse w (getValue r "duedate")) |}.

(** [inv] was built from a row of customer [customerId]. *)
Definition built_from (w : World) (rows : list Values) (customerId : string)
    (inv : Invoice) : Prop :=
  ∃ r h, r ∈ rows ∧ getValue r "entity" = customerId ∧ inv = summary_of w h r.

(** The invoice list of a customer in the grouping result. *)
Definition group_of (groups : Groups) (customerId : string) : list Invoice :=
  default [] (JsObject.get_own groups customerId).

(** The summaries of one (customer, invoice number) pair. *)
Definition summaries_for (groups : Groups) (customerId number : string) : list Invoice :=
  filter (λ inv, invoiceNumber inv = number) (group_of groups customerId).

(** The rows of one (customer, invoice number) pair. *)
Definition has_pair (customerId number : string) (r : Values) : Prop :=
  getValue r "entity" = customerId ∧ getValue r "tranid" = number.

#[global] Instance has_pair_dec customerId number r : Decision (has_pair customerId number r).
Proof. unfold has_pair. apply _. Defined.

(** The deduplication keys that the primary script marks: those of the rows
    with a customer, unless the key reads as a member of [Object.prototype]. *)
Definition marked_keys (rows : list Values) : list string :=
  omap (λ r,
          let key := Primary.invoiceKey (getValue r "entity") (getValue r "tranid") in
          if Js.truthy (getValue r "entity") && negb (JsObject.inherited key)
          then Some key else None) rows.

(** What one call of the primary script's [each] callback does to the
    variables and the history (shown equal to the callback below). *)
Definition primary_step (w : World) (r : Values) (v : Primary.Vars) (h : History)
  : Primary.Vars * History :=
  let customerId := getValue r "entity" in
  let key := Primary.invoiceKey customerId (getValue r "tranid") in
  if negb (Js.truthy customerId) || Primary.seen (Primary.processedInvoices v) key
  then (v, h)
  else
    let v1 :=
      Primary.set_invoiceCount (λ n, n + 1)
        (Primary.set_processedInvoices (λ o, JsObject.set o key true) v) in
    match JsObject.get (Primary.customerInvoices v) customerId with
    | JsObject.Inherited =>
        (v1, h ++ [DateNow;
                   Log ERROR "Invoice Processing Error"
                     (Some ("Error processing invoice: " +:+ message (type_error w)))])
    | _ =>
        (Primary.set_customerInvoices
           (λ o, JsObject.set o customerId (group_of o customerId ++ [summary_of w h r])) v1,
         h ++ [DateNow])
    end.

(** Every customer of the grouping result has at least one summary, each
    built from one of the customer's rows. *)
Definition groups_ok (w : World) (rows : list Values) (groups : Groups) : Prop :=
  ∀ customerId l, JsObject.get_own groups customerId = Some l →
    l ≠ [] ∧ ∀ inv, inv ∈ l → built_from w rows customerId inv.

(** What one call of the [each] callback of the second script does. *)
Definition modular_step (w : World) (r : Values) (groups : Groups) (h : History)
  : Run.outcome bool * Groups * History :=
  let customerId := getValue r "entity" in
  if negb (Js.truthy customerId) then (Run.Normal true, groups, h)
  else
    match JsObject.get groups customerId with
    | JsObject.Inherited => (Run.Thrown (type_error w), groups, h ++ [DateNow])
    | _ =>
        (Run.Normal true,
         JsObject.set groups customerId (group_of groups customerId ++ [summary_of w h r]),
         h ++ [DateNow])
    end.

(** What one call of the [each] callback of [part_000] does. *)
Definition inline_step (w : World) (r : Values) (v : Inline.Vars) (h : History)
  : Run.outcome bool * Inline.Vars * History :=
  let customerId := getValue r "entity" in
  if negb (Js.truthy customerId)
  then
    (Run.Normal true, v,
     h ++ [Log ERROR "Missing Customer ID" (Some "Skipping invoice with no customer ID.")])
  else
    let inv := summary_of w h r in
    let v1 := Inline.set_invoiceCount (λ n, n + 1) v in
    let h1 :=
      h ++ [DateNow;
            Log DEBUG "Invoice Found"
              (Some ("Customer ID: " +:+ customerId +:+ ", Invoice: " +:+ invoiceNumber inv
                     +:+ ", Amount: " +:+ amount inv +:+ ", Days Overdue: "
                     +:+ Js.number_to_string (daysOverdue inv)))] in
    match JsObject.get (Inline.customerInvoices v) customerId with
    | JsObject.Inherited => (Run.Thrown (type_error w), v1, h1)
    | _ =>
        (Run.Normal true,
         Inline.set_customerInvoices
           (λ o, JsObject.set o customerId (group_of o customerId ++ [inv])) v1,
         h1)
    end.

(** [h] is [h0] followed by events that all satisfy [P]. *)
Definition extends (P : Event → Prop) (h0 h : History) : Prop :=
  ∃ evs, h = h0 ++ evs ∧ Forall P evs.

(** The sender-selection rule in the words of the specification: without
    a sales rep the administrator; with one, the sales rep when the
    employee has an email, the administrator when the employee has none or
    cannot be looked up.  An empty identifier counts as absent. *)
Inductive Sender :=
| Administrator
| SalesRep (id : string).

Definition spec_sender (salesRepId : option string) (employee_email : Exn + string) : Sender :=
  match salesRepId with
  | None => Administrator
  | Some id =>
      if Js.truthy id then
        match employee_email with
        | inr e => if Js.truthy e then SalesRep id else Administrator
        | inl _ => Administrator
        end
      else Administrator
  end.

(** How the primary script and the second script write a sender as the
    author of an email. *)
Definition primary_author (sender : Sender) : Js.value :=
  match sender with
  | Administrator => admin
  | SalesRep id => Js.VNumber (Js.parseInt id)
  end.

Definition modular_author (sender : Sender) : Js.value :=
  match sender with
  | Administrator => admin
  | SalesRep id => Js.VString id
  end.

(** A field of a record that was loaded, or the error of the load. *)
Definition loaded_field (fieldId : string) (loaded : Exn + Values) : Exn + string :=
  match loaded with
  | inl e => inl e
  | inr loaded_record => inr (getValue loaded_record fieldId)
  end.

(** The email field of an employee record that was loaded, or the error. *)
Definition loaded_email (loaded : Exn + Values) : Exn + string := loaded_field "email" loaded.

(** The sender that [part_000] computes inline. *)
Definition inline_author (w : World) (salesRepId : string) : Js.value :=
  if Js.truthy salesRepId then Js.VString salesRepId
  else Js.VNumber (Js.Num (current_user w)).

(** An event that, when it is a call of [email.send], has the author [a]. *)
Definition authored_by (a : Js.value) (ev : Event) : Prop :=
  match ev with
  | EmailSend options => author options = a
  | _ => True
  end.

(** The authors of the emails of a history, in order. *)
Definition authors (h : History) : list Js.value :=
  omap (λ ev, match ev with EmailSend options => Some (author options) | _ => None end) h.

(** A loop over [customers] whose body is the [attempt] in a try block and
    a catch that writes [error_log]: from the variables [s], for every
    customer of the list, the customers before it are done without an
    exception; then, whether the attempt for it returns or throws, the loop
    goes on with the customers after it, from the history that the attempt
    left, to which the error entry is added when it threw; and the loop as
    a whole ends without an exception. *)
Definition isolates_failures {S : Type} (customers : list string)
    (attempt body : string → Run.M S unit) (error_log : string → Exn → Event)
    (loop : Run.M S unit) (s : S) : Prop :=
  ∀ pre customerId post h,
    customers = pre ++ customerId :: post →
    ∃ s1 h1,
      Api.for_each pre body s h = (Run.Normal (), s1, h1)
      ∧ match attempt customerId s1 h1 with
        | (Run.Normal _, s2, h2) => loop s h = Api.for_each post body s2 h2
        | (Run.Thrown e, s2, h2) =>
            loop s h = Api.for_each post body s2 (h2 ++ [error_log customerId e])
        end
      ∧ (loop s h).1.1 = Run.Normal ().

(** The text holds a line feed. *)
Fixpoint has_line_feed (s : string) : bool :=
  match s with
  | EmptyString => false
  | String c r => bool_decide (c = "010"%char) || has_line_feed r
  end.

(** The lines of a text, each without its line feed. *)
Fixpoint lines (s : string) : list string :=
  match s with
  | EmptyString => []
  | String c r =>
      if bool_decide (c = "010"%char) then EmptyString :: lines r
      else
        match lines r with
        | [] => [String c EmptyString]
        | l :: ls => String c l :: ls
        end
  end.

(** The texts of a list, one after the other. *)
Definition concat_strings (xs : list string) : string := foldr String.append EmptyString xs.


Definition plain_line (inv : Invoice) : string :=
  invoiceNumber inv +:+ "," +:+ amount inv +:+ "," +:+ Js.number_to_string (daysOverdue inv).

(** An invoice whose number and amount hold no line feed. *)
Definition single_line (inv : Invoice) : Prop :=
  has_line_feed (invoiceNumber inv) = false ∧ has_line_feed (amount inv) = false.

(** An event that, when it is a call of [email.send], has exactly one
    attachment, and that one satisfies [P]. *)
Definition email_with (P : File → Prop) (ev : Event) : Prop :=
  match ev with
  | EmailSend options => ∃ f, attachments options = [f] ∧ P f
  | _ => True
  end.

(** The event is not a call of [email.send]. *)
Definition not_email (ev : Event) : Prop := Logic.is_email ev = false.

(** The events [evs] hold no call of [email.send]. *)
Definition no_email (evs : History) : Prop := Forall not_email evs.

(** The invariant of the primary script's grouping loop, after the rows
    [pre], from the history [h0]. *)
Record primary_inv (w : World) (h0 : History) (pre : list Values)
    (v : Primary.Vars) (h : History) : Prop := {
  inv_groups : groups_ok w pre (Primary.customerInvoices v);
  inv_marked : ∀ customerId l inv,
    JsObject.get_own (Primary.customerInvoices v) customerId = Some l → inv ∈ l →
    JsObject.get_own (Primary.processedInvoices v)
      (Primary.invoiceKey customerId (invoiceNumber inv)) = Some true;
  inv_nodup : ∀ customerId l,
    JsObject.get_own (Primary.customerInvoices v) customerId = Some l →
    NoDup (invoiceNumber <$> l);
  inv_count : Primary.invoiceCount v = Z.of_nat (length (Primary.processedInvoices v));
  inv_keys_nodup : NoDup (Primary.processedInvoices v).*1;
  inv_keys : ∀ key, key ∈ (Primary.processedInvoices v).*1 ↔ key ∈ marked_keys pre;
  inv_true : ∀ key b, JsObject.get_own (Primary.processedInvoices v) key = Some b → b = true;
  inv_present : ∀ customerId number,
    (∀ r, r ∈ pre → Js.truthy (getValue r "entity") = true →
       Primary.invoiceKey (getValue r "entity") (getValue r "tranid")
       = Primary.invoiceKey customerId number →
       has_pair customerId number r) →
    JsObject.inherited customerId = false →
    JsObject.get_own (Primary.processedInvoices v) (Primary.invoiceKey customerId number)
    = Some true →
    ∃ inv, inv ∈ group_of (Primary.customerInvoices v) customerId ∧ invoiceNumber inv = number;
  inv_history : extends not_email h0 h
}.

(** *** Rows and groups *)

(** The rows that have a customer identifier. *)
Definition with_customer (rows : list Values) : list Values :=
  filter (λ r, Js.truthy (getValue r "entity") = true) rows.

(** The groups hold, for each customer of the rows, the invoice number and
    the amount of each of the customer's rows, in the order of the rows;
    they hold no other customer. *)
Definition partitions (rows : list Values) (groups : Groups) : Prop :=
  (∀ customerId,
     is_Some (JsObject.get_own groups customerId)
     ↔ ∃ r, r ∈ with_customer rows ∧ getValue r "entity" = customerId)
  ∧ ∀ customerId,
      (λ inv, (invoiceNumber inv, amount inv)) <$> group_of groups customerId
      = (λ r, (getValue r "tranid", getValue r "amount"))
          <$> filter (λ r, getValue r "entity" = customerId) (with_customer rows).

(** The number of invoice summaries that the groups hold. *)
Definition total (groups : Groups) : nat := sum_list (length <$> groups.*2).

(** A row is covered when the callback of the primary script returns at
    once on it: it has no customer, or its key reads as processed. *)
Definition covered (v : Primary.Vars) (r : Values) : Prop :=
  Js.truthy (getValue r "entity") = false
  ∨ Primary.seen (Primary.processedInvoices v)
      (Primary.invoiceKey (getValue r "entity") (getValue r "tranid")) = true.

(** *** Histories *)

(** The customer whose record an event reads. *)
Definition customer_load (ev : Event) : option string :=
  match ev with
  | LookupFields CUSTOMER id => Some id
  | RecordLoad CUSTOMER id => Some id
  | _ => None
  end.

(** The customers whose records a history reads, in order. *)
Definition customer_loads (h : History) : list string := omap customer_load h.

(** The calls of [email.send] of a history, in order. *)
Definition emails (h : History) : list EmailOptions :=
  omap (λ ev, match ev with EmailSend options => Some options | _ => None end) h.

(** An event that is neither a call of [email.send] nor the reading of a
    customer record. *)
Definition quiet (ev : Event) : Prop :=
  Logic.is_email ev = false ∧ customer_load ev = None.

(** A computation that, from any variables and any history, only adds
    events that satisfy [P] to the history. *)
Definition only_calls {S A : Type} (P : Event → Prop) (m : Run.M S A) : Prop :=
  ∀ s h, extends P h (m s h).2.

(** The host calls of the grouping stage. *)
Definition grouping_call (ev : Event) : Prop :=
  match ev with
  | Log _ _ _ | DateNow | SearchRun _ => True
  | _ => False
  end.




(** A host whose file and email services never refuse a call. *)
Definition reliable (w : World) : Prop :=
  (∀ h f, file_create w h f = None)
  ∧ (∀ h f, ∃ id, file_save w h f = inr id)
  ∧ (∀ h id, file_load w h id = None)
  ∧ (∀ h options, email_send w h options = None).

(** *** Emails and files *)

(** The body of the email. *)
Definition greeting (customerName closing : string) : string :=
  "Dear " +:+ customerName +:+ "," +:+ Js.LF +:+ Js.LF +:+ closing.

(** The file that the primary script creates for a customer, when the
    clock reads [stamp]. *)
Definition primary_file (customerName customerEmail : string) (invoices : list Invoice)
    (stamp : Z) : File :=
  {| name := "Overdue_Invoices_" +:+ Js.replace_non_alnum customerName +:+ "_"
             +:+ pretty stamp +:+ ".csv";
     contents := Primary.csv_content customerName customerEmail invoices;
     folder := Some 1226 |}.

(** The file that the second script and [part_000] create. *)
Definition plain_file (customerName : string) (csvContent : string) : File :=
  {| name := "Overdue_Invoices_" +:+ customerName +:+ ".csv";
     contents := csvContent;
     folder := None |}.

(** The email of a customer. *)
Definition mail (sender : Js.value) (customerName customerEmail closing : string)
    (csvFile : File) : EmailOptions :=
  {| author := sender;
     recipients := customerEmail;
     subject := "Overdue Invoice Notification";
     body := greeting customerName closing;
     attachments := [csvFile] |}.

(** An entry of the log. *)
Definition log_entry (ev : Event) : Prop :=
  match ev with
  | Log _ _ _ => True
  | _ => False
  end.

(** The host calls with which the primary script sends a file: it reads
    the clock, creates the file, saves it, logs the identifier, loads the
    file back by the identifier, and calls [email.send]. *)
Definition primary_sending (customerName : string) (csvFile : File) (id : Z)
    (message : EmailOptions) : History :=
  [ DateNow; FileCreate csvFile; FileSave csvFile (Some id);
    Log DEBUG "CSV File Created"
      (Some ("File ID: " +:+ pretty id +:+ " for customer " +:+ customerName));
    FileLoad id; EmailSend message ].

(** The part of a history in which a loop handles one customer: it begins
    with the reading [read customerId] of the customer's record, reads no
    other customer record, and holds at most one call of [email.send]. *)
Definition customer_part (read : string → Event) (customerId : string) (part : History)
  : Prop :=
  ∃ rest,
    part = read customerId :: rest
    ∧ customer_loads rest = []
    ∧ (length (emails rest) ≤ 1)%nat.

(** *** Texts *)

(** Every character of the text satisfies [p]. *)
Fixpoint all_chars (p : ascii → bool) (s : string) : bool :=
  match s with
  | EmptyString => true
  | String c r => p c && all_chars p r
  end.

(** A letter, a digit or an underscore; and the characters of a file
    name: these and the dot. *)
Definition is_name_char (c : ascii) : bool := Js.is_alnum c || bool_decide (c = "_"%char).

Definition is_file_char (c : ascii) : bool := is_name_char c || bool_decide (c = "."%char).

(** The text holds a comma. *)
Fixpoint has_comma (s : string) : bool :=
  match s with
  | EmptyString => false
  | String c r => bool_decide (c = ","%char) || has_comma r
  end.

(** The fields of a line: the texts between its commas. *)
Fixpoint fields (s : string) : list string :=
  match s with
  | EmptyString => [EmptyString]
  | String c r =>
      if bool_decide (c = ","%char) then EmptyString :: fields r
      else
        match fields r with
        | [] => [String c EmptyString]
        | f :: fs => String c f :: fs
        end
  end.

(** *** Keys *)

(** Two keys that are array indices, the first one not above the second. *)
Definition index_before (a b : string) : Prop :=
  ∃ m n, JsObject.array_index a = Some m ∧ JsObject.array_index b = Some n ∧ m ≤ n.

(** [visited] lists the keys [ids] in the order of [for ... in]: first the
    keys that are array indices, in ascending numeric order, then the other
    keys in the order of [ids]. *)
Definition in_visiting_order (ids visited : list string) : Prop :=
  ∃ indices names,
    visited = indices ++ names
    ∧ indices ≡ₚ filter (λ k, is_Some (JsObject.array_index k)) ids
    ∧ StronglySorted index_before indices
    ∧ names = filter (λ k, JsObject.array_index k = None) ids.

(** The customers of the rows, each once, in the order of their first
    rows. *)
Definition customers_of (rows : list Values) : list string :=
  fold_left
    (λ ids r, if decide (getValue r "entity" ∈ ids) then ids else ids ++ [getValue r "entity"])
    rows [].

(** *** The clock and the days overdue *)

(** The readings of the clock that the events [evs] record after the
    history [h0], in order: what the host answered at each [new Date()]. *)
Fixpoint readings_from (w : World) (h0 evs : History) : list Z :=
  match evs with
  | [] => []
  | ev :: evs' =>
      match ev with DateNow => [date_now w h0] | _ => [] end
      ++ readings_from w (h0 ++ [ev]) evs'
  end.

(** The readings of the clock of a history. *)
Definition readings (w : World) (h : History) : list Z := readings_from w [] h.

(** The days between a due date and a reading of the clock, in the words
    of the specification: floor((now - dueDate) / 86400000); no number when
    the due date is none. *)
Definition days_between (now : Z) (dueDate : Js.number) : Js.number :=
  match dueDate with
  | Js.Num due => Js.Num ((now - due) `div` 86400000)
  | Js.NaN => Js.NaN
  end.

(** The summary of a row whose days overdue are counted at the reading
    [now] of the clock. *)
Definition summary_at (w : World) (now : Z) (r : Values) : Invoice :=
  {| invoiceNumber := getValue r "tranid";
     amount := getValue r "amount";
     daysOverdue := days_between now (date_parse w (getValue r "duedate")) |}.

(** The deduplication key of a row. *)
Definition row_key (r : Values) : string :=
  Primary.invoiceKey (getValue r "entity") (getValue r "tranid").

(** The rows that the primary script takes up: of the rows that have a
    customer and whose key is no member name of [Object.prototype], those
    whose key no row taken up before has. *)
Definition takes_up (taken : list Values) (r : Values) : bool :=
  Js.truthy (getValue r "entity") && negb (JsObject.inherited (row_key r))
  && bool_decide (row_key r ∉ row_key <$> taken).

Definition first_rows (rows : list Values) : list Values :=
  fold_left (λ taken r, if takes_up taken r then taken ++ [r] else taken) rows [].

(** [r] is the first row of its deduplication key: it has a customer, and
    no row with a customer before it has the same key. *)
Definition first_of_key (rows : list Values) (r : Values) : Prop :=
  ∃ pre post,
    rows = pre ++ r :: post
    ∧ Js.truthy (getValue r "entity") = true
    ∧ ∀ r', r' ∈ pre → Js.truthy (getValue r' "entity") = true → row_key r' ≠ row_key r.

(** The rows that the primary script stores: those that it takes up, but
    for the rows whose customer identifier is a member name of
    [Object.prototype]. *)
Definition stored_rows (rows : list Values) : list Values :=
  filter (λ r, JsObject.inherited (getValue r "entity") = false) (first_rows rows).

(** The rows, each with the reading of the clock made for it, whose
    customer identifier is no member name of [Object.prototype]. *)
Definition storable (pairs : list (Values * Z)) : list (Values * Z) :=
  filter (λ p, JsObject.inherited (getValue p.1 "entity") = false) pairs.

(** The groups hold, for each customer, the summaries of the customer's
    rows among [pairs], in order, each with its days overdue counted at the
    reading paired with the row. *)
Definition counts_days (w : World) (pairs : list (Values * Z)) (groups : Groups) : Prop :=
  ∀ customerId,
    group_of groups customerId
    = (λ p, summary_at w p.2 p.1)
        <$> filter (λ p, getValue p.1 "entity" = customerId) pairs.

(** Every row has a due date that [new Date] can read, and the reading of
    the clock paired with the row is not before it. *)
Definition never_early (w : World) (pairs : list (Values * Z)) : Prop :=
  ∀ r now, (r, now) ∈ pairs →
    ∃ due, date_parse w (getValue r "duedate") = Js.Num due ∧ due ≤ now.

(** The days overdue of every summary of the groups are a number that is
    not negative. *)
Definition no_negative_days (groups : Groups) : Prop :=
  ∀ customerId inv, inv ∈ group_of groups customerId →
    ∃ days, daysOverdue inv = Js.Num days ∧ 0 ≤ days.

End Spec.

(** * Properties *)

(** ** Objects *)

Section JsObject_facts.
Context {V : Type}.
Implicit Types (o : JsObject.t V) (k : string) (v : V).

Lemma get_own_set_eq o k v : JsObject.get_own (JsObject.set o k v) k = Some v.
Proof.
  induction o as [|[k' v'] o IH]; simpl.
  - by rewrite decide_True.
  - destruct (decide (k' = k)) as [->|Hne]; simpl.
    + by rewrite decide_True.
    + by rewrite decide_False.
Qed.

Lemma get_own_set_ne o k k' v :
  k ≠ k' → JsObject.get_own (JsObject.set o k v) k' = JsObject.get_own o k'.
Proof.
  intros Hne. induction o as [|[k0 v0] o IH]; simpl.
  - by rewrite decide_False.
  - destruct (decide (k0 = k)) as [->|Hk]; simpl.
    + by rewrite !decide_False.
    + destruct (decide (k0 = k')); [done | apply IH].
Qed.

Lemma get_own_set o k k' v :
  JsObject.get_own (JsObject.set o k v) k'
  = if decide (k = k') then Some v else JsObject.get_own o k'.
Proof.
  destruct (decide (k = k')) as [->|Hne];
    [apply get_own_set_eq | by apply get_own_set_ne].
Qed.

Lemma get_own_is_Some o k : is_Some (JsObject.get_own o k) ↔ k ∈ o.*1.
Proof.
  induction o as [|[k' v'] o IH]; simpl.
  - split; [by intros [? ?] | by intros ?%elem_of_nil].
  - destruct (decide (k' = k)) as [->|Hne].
    + split; [intros _; left | by eauto].
    + rewrite IH. split; [by right|].
      intros [?|?]%elem_of_cons; [congruence | done].
Qed.

(** [for ... in] and [Object.keys] visit each own property once. *)
Lemma keys_Permutation o : JsObject.keys o ≡ₚ o.*1.
Proof.
  unfold JsObject.keys. generalize (o.*1). intros ks.
  rewrite merge_sort_Permutation.
  induction ks as [|k ks IH]; simpl; [done|].
  rewrite filter_cons.
  case_decide as Hd; destruct (JsObject.array_index k) as [n|] eqn:Hk; simpl; try done.
  - rewrite <- Permutation_middle. by rewrite IH.
  - by rewrite IH.
Qed.

Lemma elem_of_keys o k : k ∈ JsObject.keys o ↔ is_Some (JsObject.get_own o k).
Proof. by rewrite keys_Permutation, get_own_is_Some. Qed.

Lemma get_Own o k v : JsObject.get o k = JsObject.Own v ↔ JsObject.get_own o k = Some v.
Proof.
  unfold JsObject.get. destruct (JsObject.get_own o k); [|destruct (JsObject.inherited k)];
    split; congruence.
Qed.

Lemma get_Undefined o k :
  JsObject.get o k = JsObject.Undefined
  ↔ JsObject.get_own o k = None ∧ JsObject.inherited k = false.
Proof.
  unfold JsObject.get. destruct (JsObject.get_own o k); [|destruct (JsObject.inherited k)];
    intuition congruence.
Qed.

Lemma get_Inherited o k :
  JsObject.get o k = JsObject.Inherited
  ↔ JsObject.get_own o k = None ∧ JsObject.inherited k = true.
Proof.
  unfold JsObject.get. destruct (JsObject.get_own o k); [|destruct (JsObject.inherited k)];
    intuition congruence.
Qed.

End JsObject_facts.

(** ** Rules for runs *)

Section Rules.
Import Host Run Api Logic.
Context {S : Type}.

Lemma wp_ret {A} (a : A) Q (s : S) h : Q (Normal a) s h → wp (ret a) Q s h.
Proof. done. Qed.

Lemma wp_throw {A} e (Q : outcome A → S → History → Prop) s h :
  Q (Thrown e) s h → wp (throw e) Q s h.
Proof. done. Qed.

Lemma wp_bind {A B} (m : M S A) (k : A → M S B) Q s h :
  wp m (λ r s' h',
          match r with
          | Normal a => wp (k a) Q s' h'
          | Thrown e => Q (Thrown e) s' h'
          end) s h →
  wp (bind m k) Q s h.
Proof.
  unfold wp, bind. destruct (m s h) as [[[a|e] s'] h']; simpl; done.
Qed.

Lemma wp_try_catch {A} (m : M S A) handler Q s h :
  wp m (λ r s' h',
          match r with
          | Normal a => Q (Normal a) s' h'
          | Thrown e => wp (handler e) Q s' h'
          end) s h →
  wp (try_catch m handler) Q s h.
Proof.
  unfold wp, try_catch. destruct (m s h) as [[[a|e] s'] h']; simpl; done.
Qed.

Lemma wp_gets {A} (f : S → A) Q s h : Q (Normal (f s)) s h → wp (gets f) Q s h.
Proof. done. Qed.

Lemma wp_modify (f : S → S) Q s h : Q (Normal ()) (f s) h → wp (modify f) Q s h.
Proof. done. Qed.

Lemma wp_call {S' A} (s0 : S') (m : M S' A) Q (s : S) h :
  wp m (λ r _ h', Q r s h') s0 h → wp (call s0 m) Q s h.
Proof.
  unfold wp, call. destruct (m s0 h) as [[r s'] h']; simpl; done.
Qed.

Lemma wp_host {A} ev (answer : History → Exn + A) Q (s : S) h :
  (∀ a, answer h = inr a → Q (Normal a) s (h ++ [ev])) →
  (∀ e, answer h = inl e → Q (Thrown e) s (h ++ [ev])) →
  wp (host ev answer) Q s h.
Proof.
  intros Hok Herr. unfold wp, host. destruct (answer h) as [e|a]; simpl; auto.
Qed.

Lemma wp_host_ ev (answer : History → option Exn) Q (s : S) h :
  (answer h = None → Q (Normal ()) s (h ++ [ev])) →
  (∀ e, answer h = Some e → Q (Thrown e) s (h ++ [ev])) →
  wp (host_ ev answer) Q s h.
Proof.
  intros Hok Herr. unfold wp, host_, host. destruct (answer h) as [e|]; simpl; auto.
Qed.

Lemma wp_file_save w f Q (s : S) h :
  (∀ id, file_save w h f = inr id → Q (Normal id) s (h ++ [FileSave f (Some id)])) →
  (∀ e, file_save w h f = inl e → Q (Thrown e) s (h ++ [FileSave f None])) →
  wp (file_save_ w f) Q s h.
Proof.
  intros Hok Herr. unfold wp, file_save_. destruct (file_save w h f) as [e|id]; simpl; auto.
Qed.

Lemma wp_file_create w f Q (s : S) h :
  (file_create w h f = None → Q (Normal f) s (h ++ [FileCreate f])) →
  (∀ e, file_create w h f = Some e → Q (Thrown e) s (h ++ [FileCreate f])) →
  wp (file_create_ w f) Q s h.
Proof.
  intros Hok Herr. unfold wp, file_create_, host.
  destruct (file_create w h f) as [e|]; simpl; auto.
Qed.

Lemma wp_email_send w options Q (s : S) h :
  (email_send w h options = None → Q (Normal ()) s (h ++ [EmailSend options])) →
  (∀ e, email_send w h options = Some e → Q (Thrown e) s (h ++ [EmailSend options])) →
  wp (email_send_ w options) Q s h.
Proof. apply (wp_host_ _ (λ h, email_send w h options)). Qed.

Lemma cabinet_snoc h ev id :
  cabinet (h ++ [ev]) id
  = match ev with
    | FileSave f (Some id') => if decide (id' = id) then Some f else cabinet h id
    | _ => cabinet h id
    end.
Proof.
  induction h as [|e h IH]; simpl.
  - destruct ev as [| | | | | |f [id'|]| | |]; try done; by case_decide.
  - rewrite IH. destruct ev as [| | | | | |f [id'|]| | |]; try done; by case_decide.
Qed.

(** [file.load] of the identifier just returned by [save], after events
    that store no file, gives the saved file back. *)
Lemma wp_file_load_saved w f id Q (s : S) h :
  cabinet h id = Some f →
  Q (Normal f) s (h ++ [FileLoad id]) →
  (∀ e, Q (Thrown e) s (h ++ [FileLoad id])) →
  wp (file_load_ w id) Q s h.
Proof.
  intros Hcab Hok Herr. unfold wp, file_load_, host. rewrite Hcab.
  destruct (file_load w h id); simpl; auto.
Qed.

Lemma wp_log level title details Q (s : S) h :
  Q (Normal ()) s (h ++ [Log level title (Some details)]) →
  wp (log level title details) Q s h.
Proof. done. Qed.

Lemma wp_log_title level title Q (s : S) h :
  Q (Normal ()) s (h ++ [Log level title None]) →
  wp (log_title level title) Q s h.
Proof. done. Qed.

Lemma wp_mono {A} (m : M S A) (Q Q' : outcome A → S → History → Prop) s h :
  (∀ r s' h', Q r s' h' → Q' r s' h') → wp m Q s h → wp m Q' s h.
Proof. unfold wp. auto. Qed.

(** A loop whose body never throws runs to its end and keeps an invariant. *)
Lemma wp_for_each {A} (xs : list A) (body : A → M S unit) (I : S → History → Prop) s h :
  (∀ x s h, x ∈ xs → I s h → wp (body x) (λ r s' h', r = Normal () ∧ I s' h') s h) →
  I s h →
  wp (for_each xs body) (λ r s' h', r = Normal () ∧ I s' h') s h.
Proof.
  revert s h. induction xs as [|x xs IH]; intros s h Hbody HI; simpl.
  - by apply wp_ret.
  - apply wp_bind. eapply wp_mono; [|apply Hbody; [left | done]].
    intros r s' h' [-> HI']. apply IH; [|done].
    intros y s0 h0 Hy. apply Hbody. by right.
Qed.


(** [each] with a callback that always returns true, and an invariant that
    knows the rows visited so far. *)
Lemma wp_each_prefix (rs : list Values) (cb : Values → M S bool)
    (I : list Values → S → History → Prop) s h :
  (∀ pre r post s h, rs = pre ++ r :: post → I pre s h →
     wp (cb r) (λ o s' h', o = Normal true ∧ I (pre ++ [r]) s' h') s h) →
  I [] s h →
  wp (each rs cb) (λ o s' h', o = Normal () ∧ I rs s' h') s h.
Proof.
  intros Hcb. change rs with ([] ++ rs) at 2.
  assert (Hall : rs = [] ++ rs) by done. revert Hall.
  generalize (@nil Values) as pre. generalize rs at 2 3 4 as todo.
  intros todo. revert s h. induction todo as [|r todo IH]; intros s h pre Hall HI; simpl.
  - apply wp_ret. by rewrite app_nil_r.
  - apply wp_bind. eapply wp_mono; [|by eapply Hcb].
    intros o s' h' [-> HI']. simpl.
    replace (pre ++ r :: todo) with ((pre ++ [r]) ++ todo) by by rewrite <- app_assoc.
    apply IH; [|done]. by rewrite <- app_assoc.
Qed.

(** Loops split at any element. *)
Lemma for_each_app {A} (xs ys : list A) (body : A → M S unit) s h :
  for_each (xs ++ ys) body s h = bind (for_each xs body) (λ _, for_each ys body) s h.
Proof.
  revert s h. induction xs as [|x xs IH]; intros s h; simpl; [done|].
  unfold bind in *. destruct (body x s h) as [[[[]|e] s'] h']; [apply IH | done].
Qed.

End Rules.

(** One step of a run: the rule of the head construct. *)
Ltac wp_step :=
  lazymatch goal with
  | |- Logic.wp (Run.bind _ _) _ _ _ => apply wp_bind
  | |- Logic.wp (Run.try_catch _ _) _ _ _ => apply wp_try_catch
  | |- Logic.wp (Run.ret _) _ _ _ => apply wp_ret
  | |- Logic.wp (Run.throw _) _ _ _ => apply wp_throw
  | |- Logic.wp (Run.gets _) _ _ _ => apply wp_gets
  | |- Logic.wp (Run.modify _) _ _ _ => apply wp_modify
  | |- Logic.wp (Run.call _ _) _ _ _ => apply wp_call
  | |- Logic.wp (Api.log _ _ _) _ _ _ => apply wp_log
  | |- Logic.wp (Api.log_title _ _) _ _ _ => apply wp_log_title
  | |- Logic.wp (Api.file_create_ _ _) _ _ _ => apply wp_file_create; [intros ?|intros ? ?]
  | |- Logic.wp (Api.file_save_ _ _) _ _ _ => apply wp_file_save; intros ? ?
  | |- Logic.wp (Api.email_send_ _ _) _ _ _ => apply wp_email_send; [intros ?|intros ? ?]
  | |- Logic.wp (Api.search_lookupFields_customer _ _) _ _ _ => apply wp_host; intros ? ?
  | |- Logic.wp (Api.search_lookupFields_employee _ _) _ _ _ => apply wp_host; intros ? ?
  | |- Logic.wp (Api.record_load_ _ _ _) _ _ _ => apply wp_host; intros ? ?
  | |- Logic.wp (Api.Date_now _) _ _ _ => apply wp_host; [intros ? ? | intros ? [=]]
  | |- Logic.wp (Api.runtime_getCurrentUser_id _) _ _ _ =>
      apply wp_host; [intros ? ? | intros ? [=]]
  | |- Logic.wp (if ?b then _ else _) _ _ _ => destruct b eqn:?
  | |- Logic.wp (match ?x with _ => _ end) _ _ _ => destruct x eqn:?
  end; cbn beta iota.

Ltac wp_steps := repeat wp_step.

(** ** Histories *)

Section Histories.
Import Host Spec.
Context (P : Event → Prop).

Lemma extends_refl h : extends P h h.
Proof. exists []. split; [by rewrite app_nil_r | constructor]. Qed.

Lemma extends_snoc h0 h ev : extends P h0 h → P ev → extends P h0 (h ++ [ev]).
Proof.
  intros (evs & -> & Hevs) Hev. exists (evs ++ [ev]).
  split; [by rewrite app_assoc | apply Forall_app; by repeat constructor].
Qed.

Lemma extends_trans h0 h1 h2 : extends P h0 h1 → extends P h1 h2 → extends P h0 h2.
Proof.
  intros (evs1 & -> & H1) (evs2 & -> & H2). exists (evs1 ++ evs2).
  split; [by rewrite app_assoc | by apply Forall_app].
Qed.

Lemma extends_app h0 h evs : extends P h0 h → Forall P evs → extends P h0 (h ++ evs).
Proof. intros H Hevs. eapply extends_trans; [done|]. by exists evs. Qed.

Lemma extends_weaken (Q : Event → Prop) h0 h :
  (∀ ev, P ev → Q ev) → extends P h0 h → extends Q h0 h.
Proof.
  intros HPQ (evs & -> & Hevs). exists evs. split; [done|].
  eapply Forall_impl; eauto.
Qed.

Lemma extends_elem h0 h ev : extends P h0 h → ev ∈ h → ev ∈ h0 ∨ P ev.
Proof.
  intros (evs & -> & Hevs) [?|Hin]%elem_of_app; [by left|].
  right. rewrite Forall_forall in Hevs. by apply Hevs.
Qed.

End Histories.

(** Closes [extends P h0 (h ++ [e1] ++ ...)] from [extends P h0 h] in the
    context, event by event. *)
Ltac extends_tac :=
  repeat first
    [ eassumption
    | apply extends_refl
    | apply extends_app;
      [| repeat (apply List.Forall_cons; [try (hnf; done)|]); try apply List.Forall_nil ] ].

(** ** The grouping stage of the primary script *)

Section Primary_grouping.
Import Host Run Api Logic Spec.
Context (w : World).

Lemma set_set {V} (o : JsObject.t V) k v v' :
  JsObject.set (JsObject.set o k v) k v' = JsObject.set o k v'.
Proof.
  induction o as [|[k0 v0] o IH]; simpl.
  - by rewrite decide_True.
  - destruct (decide (k0 = k)) as [->|Hne]; simpl.
    + by rewrite decide_True.
    + rewrite decide_False by done. by rewrite IH.
Qed.

(** The callback always returns true, and is [primary_step]. *)
Lemma primary_callback_step r v h :
  Primary.each_callback w r v h
  = (Normal true, (primary_step w r v h).1, (primary_step w r v h).2).
Proof.
  unfold Primary.each_callback, primary_step, try_catch, bind, gets, modify, ret.
  destruct (Js.truthy (getValue r "entity")); simpl; [|done].
  destruct (Primary.seen _ _); simpl; [done|].
  unfold Primary.missing, Primary.push, bind, gets, modify, throw, Primary.set_customerInvoices,
    Primary.set_invoiceCount, Primary.set_processedInvoices, group_of; simpl.
  destruct (JsObject.get (Primary.customerInvoices v) (getValue r "entity")) as [l| |] eqn:Hslot;
    simpl.
  - rewrite Hslot; simpl. apply get_Own in Hslot. by rewrite Hslot.
  - rewrite Hslot; simpl. by rewrite <- app_assoc.
  - apply get_Undefined in Hslot as [Hown _].
    unfold JsObject.get. rewrite get_own_set_eq; simpl.
    by rewrite set_set, Hown.
Qed.

Lemma fst_set_fresh {V} (o : JsObject.t V) k v :
  JsObject.get_own o k = None → (JsObject.set o k v).*1 = o.*1 ++ [k].
Proof.
  induction o as [|[k0 v0] o IH]; simpl; [done|].
  destruct (decide (k0 = k)); [done|]. intros H. csimpl. f_equal. by apply IH.
Qed.

Lemma length_set_fresh {V} (o : JsObject.t V) k v :
  JsObject.get_own o k = None → length (JsObject.set o k v) = Datatypes.S (length o).
Proof.
  intros H. transitivity (length (JsObject.set o k v).*1); [by rewrite length_fmap|].
  rewrite fst_set_fresh by done. rewrite length_app, length_fmap. simpl. lia.
Qed.

Lemma group_of_set (groups : Groups) customerId customerId' l :
  group_of (JsObject.set groups customerId l) customerId'
  = if decide (customerId = customerId') then l else group_of groups customerId'.
Proof. unfold group_of. rewrite get_own_set. by case_decide. Qed.

Lemma built_from_mono rows rows' customerId inv :
  rows ⊆ rows' → built_from w rows customerId inv → built_from w rows' customerId inv.
Proof. intros Hsub (r & h & Hr & Hc & ->). exists r, h. auto. Qed.

Lemma groups_ok_mono rows rows' groups :
  rows ⊆ rows' → groups_ok w rows groups → groups_ok w rows' groups.
Proof.
  intros Hsub Hok customerId l Hl. destruct (Hok _ _ Hl) as [Hne Hall].
  split; [done|]. intros inv Hinv. eapply built_from_mono; eauto.
Qed.

Lemma marked_keys_snoc pre r :
  marked_keys (pre ++ [r])
  = marked_keys pre
    ++ (let key := Primary.invoiceKey (getValue r "entity") (getValue r "tranid") in
        if Js.truthy (getValue r "entity") && negb (JsObject.inherited key)
        then [key] else []).
Proof.
  unfold marked_keys. rewrite omap_app. simpl.
  by destruct (Js.truthy _ && negb _).
Qed.

Lemma seen_false processed key :
  Primary.seen processed key = false →
  (∀ b, JsObject.get_own processed key = Some b → b = true) →
  JsObject.get_own processed key = None ∧ JsObject.inherited key = false.
Proof.
  unfold Primary.seen, JsObject.get. intros Hseen Htrue.
  destruct (JsObject.get_own processed key) as [b|].
  - rewrite (Htrue b) in Hseen by done. done.
  - by destruct (JsObject.inherited key).
Qed.

Lemma seen_true processed key :
  Primary.seen processed key = true →
  JsObject.inherited key = false →
  JsObject.get_own processed key = Some true.
Proof.
  unfold Primary.seen, JsObject.get. intros Hseen Hinh.
  destruct (JsObject.get_own processed key) as [b|]; [by subst|].
  by rewrite Hinh in Hseen.
Qed.

Lemma primary_inv_initial h0 : primary_inv w h0 [] Primary.initial h0.
Proof.
  split; simpl; try done; try by constructor.
  exists []. split; [by rewrite app_nil_r | constructor].
Qed.

Lemma primary_inv_step h0 pre r v h :
  primary_inv w h0 pre v h →
  primary_inv w h0 (pre ++ [r]) (primary_step w r v h).1 (primary_step w r v h).2.
Proof.
  intros [Hg Hm Hnd Hc Hknd Hk Ht Hp Hh].
  assert (Hsub : pre ⊆ pre ++ [r]) by (intros x Hx; apply elem_of_app; by left).
  assert (Hp' : ∀ customerId number,
    (∀ r0, r0 ∈ pre ++ [r] → Js.truthy (getValue r0 "entity") = true →
       Primary.invoiceKey (getValue r0 "entity") (getValue r0 "tranid")
       = Primary.invoiceKey customerId number → has_pair customerId number r0) →
    JsObject.inherited customerId = false →
    JsObject.get_own (Primary.processedInvoices v) (Primary.invoiceKey customerId number)
    = Some true →
    ∃ inv, inv ∈ group_of (Primary.customerInvoices v) customerId ∧ invoiceNumber inv = number).
  { intros c num Hcoll. apply Hp. intros r0 Hr0. apply Hcoll, Hsub, Hr0. }
  unfold primary_step.
  set (cid := getValue r "entity"). set (n := getValue r "tranid").
  set (K := Primary.invoiceKey cid n).
  pose proof (marked_keys_snoc pre r) as Hsnoc. simpl in Hsnoc. fold cid n K in Hsnoc.
  destruct (Js.truthy cid) eqn:Hcid; simpl.
  2: { split; simpl; try done.
       - by eapply groups_ok_mono.
       - intros key. rewrite Hsnoc. simpl. rewrite app_nil_r. apply Hk. }
  destruct (Primary.seen (Primary.processedInvoices v) K) eqn:Hseen; simpl.
  { split; simpl; try done.
    - by eapply groups_ok_mono.
    - intros key. rewrite Hsnoc. simpl.
      destruct (JsObject.inherited K) eqn:HiK; simpl.
      + rewrite app_nil_r. apply Hk.
      + rewrite elem_of_app, <- Hk, list_elem_of_singleton. split; [by left|].
        intros [?| ->]; [done|].
        apply get_own_is_Some. by rewrite (seen_true _ _ Hseen HiK). }
  destruct (seen_false _ _ Hseen (Ht K)) as [HKown HKinh].
  rewrite HKinh in Hsnoc. simpl in Hsnoc.
  assert (HKfresh : K ∉ (Primary.processedInvoices v).*1).
  { rewrite <- get_own_is_Some, HKown. by intros [? ?]. }
  assert (Hmarked' : ∀ key, JsObject.get_own (Primary.processedInvoices v) key = Some true →
            JsObject.get_own (JsObject.set (Primary.processedInvoices v) K true) key = Some true).
  { intros key Hkey. rewrite get_own_set. by case_decide. }
  assert (Hcount' : Primary.invoiceCount v + 1
            = Z.of_nat (length (JsObject.set (Primary.processedInvoices v) K true))).
  { rewrite length_set_fresh by done. lia. }
  assert (Hkeys' : ∀ key, key ∈ (JsObject.set (Primary.processedInvoices v) K true).*1
                          ↔ key ∈ marked_keys (pre ++ [r])).
  { intros key. rewrite fst_set_fresh, Hsnoc, !elem_of_app, Hk by done. done. }
  assert (Hnd' : NoDup (JsObject.set (Primary.processedInvoices v) K true).*1).
  { rewrite fst_set_fresh by done. apply NoDup_app. split; [done|].
    split; [|apply NoDup_singleton].
    intros x Hx ->%list_elem_of_singleton. done. }
  assert (Htrue' : ∀ key b,
            JsObject.get_own (JsObject.set (Primary.processedInvoices v) K true) key = Some b →
            b = true).
  { intros key b. rewrite get_own_set. case_decide; [congruence | apply Ht]. }
  assert (Hhist' : ∀ evs, no_email evs → ∃ evs', h ++ evs = h0 ++ evs' ∧ no_email evs').
  { intros evs Hevs. destruct Hh as (evs0 & -> & Hevs0). exists (evs0 ++ evs).
    split; [by rewrite app_assoc | by apply Forall_app]. }
  set (G' := JsObject.set (Primary.customerInvoices v) cid
               (group_of (Primary.customerInvoices v) cid ++ [summary_of w h r])).
  assert (Hgroup : ∀ inv, inv ∈ group_of (Primary.customerInvoices v) cid →
            JsObject.get_own (Primary.customerInvoices v) cid
            = Some (group_of (Primary.customerInvoices v) cid)).
  { unfold group_of. destruct (JsObject.get_own (Primary.customerInvoices v) cid);
      [done | by intros ? ?%elem_of_nil]. }
  assert (Hpush_groups : groups_ok w (pre ++ [r]) G').
  { intros c l. unfold G'. rewrite get_own_set. case_decide as Hc_eq.
    - intros [= <-]. split.
      { intros Heq. by apply app_eq_nil in Heq as [_ ?]. }
      intros inv [Hin | ->%list_elem_of_singleton]%elem_of_app.
      + destruct (Hg _ _ (Hgroup inv Hin)) as [_ Hall].
        subst c. eapply built_from_mono; [apply Hsub | by apply Hall].
      + exists r, h. split; [apply elem_of_app; right; left | done].
    - intros Hl. by eapply groups_ok_mono. }
  assert (Hpush_marked : ∀ c l inv, JsObject.get_own G' c = Some l → inv ∈ l →
            JsObject.get_own (JsObject.set (Primary.processedInvoices v) K true)
              (Primary.invoiceKey c (invoiceNumber inv)) = Some true).
  { intros c l inv. unfold G'. rewrite get_own_set. case_decide as Hc_eq.
    - intros [= <-] [Hin | ->%list_elem_of_singleton]%elem_of_app.
      + subst c. apply Hmarked'. by apply (Hm _ _ inv (Hgroup inv Hin)).
      + subst c. apply get_own_set_eq.
    - intros Hl Hin. apply Hmarked'. by eapply Hm. }
  assert (Hpush_nodup : ∀ c l, JsObject.get_own G' c = Some l → NoDup (invoiceNumber <$> l)).
  { intros c l. unfold G'. rewrite get_own_set. case_decide as Hc_eq; [|apply Hnd].
    intros [= <-]. rewrite fmap_app. apply NoDup_app. split; [|split; [|apply NoDup_singleton]].
    - unfold group_of.
      destruct (JsObject.get_own (Primary.customerInvoices v) cid) as [l0|] eqn:Hown0; simpl;
        [by eapply Hnd | constructor].
    - intros x Hx Hx'. apply list_elem_of_singleton in Hx'. simpl in Hx'. subst x.
      apply list_elem_of_fmap in Hx as (inv & Hn & Hin).
      pose proof (Hm _ _ _ (Hgroup inv Hin) Hin) as Hmk.
      rewrite <- Hn in Hmk. unfold K, n in HKown. congruence. }
  assert (Hpush_present : ∀ c num,
    (∀ r0, r0 ∈ pre ++ [r] → Js.truthy (getValue r0 "entity") = true →
       Primary.invoiceKey (getValue r0 "entity") (getValue r0 "tranid")
       = Primary.invoiceKey c num → has_pair c num r0) →
    JsObject.inherited c = false →
    JsObject.get_own (JsObject.set (Primary.processedInvoices v) K true)
      (Primary.invoiceKey c num) = Some true →
    ∃ inv, inv ∈ group_of G' c ∧ invoiceNumber inv = num).
  { intros c num Hcoll Hci. unfold G'. rewrite get_own_set, group_of_set.
    case_decide as HK.
    - intros _.
      destruct (Hcoll r) as [Hc_eq Hn_eq]; [apply elem_of_app; right; left | done | done |].
      fold cid in Hc_eq. fold n in Hn_eq. subst c num. rewrite decide_True by done.
      exists (summary_of w h r). split; [apply elem_of_app; right; left | done].
    - intros Hmk. destruct (Hp' c num Hcoll Hci Hmk) as (inv & Hin & Hnum).
      exists inv. split; [|done].
      case_decide; [subst c; apply elem_of_app; by left | done]. }
  destruct (JsObject.get (Primary.customerInvoices v) cid) as [l| |] eqn:Hslot; simpl.
  2: { (* the customer identifier names a member of Object.prototype *)
       apply get_Inherited in Hslot as [Hown Hinh].
       split; simpl; try done.
       - by eapply groups_ok_mono.
       - eauto.
       - intros c num Hcoll Hc_inh. rewrite get_own_set. case_decide as HK.
         + intros _.
           destruct (Hcoll r) as [Hc_eq _]; [apply elem_of_app; right; left | done | done |].
           fold cid in Hc_eq. congruence.
         + by apply Hp'.
       - apply Hhist'. repeat constructor. }
  all: split; simpl; try done; apply Hhist'; by repeat constructor.
Qed.

Lemma primary_inv_history h0 pre v h evs :
  primary_inv w h0 pre v h → no_email evs → primary_inv w h0 pre v (h ++ evs).
Proof.
  intros [Hg Hm Hnd Hc Hknd Hk Ht Hp (evs0 & -> & Hevs0)] Hevs. split; try done.
  exists (evs0 ++ evs). split; [by rewrite app_assoc | by apply Forall_app].
Qed.

Lemma primary_each rows h0 v h :
  primary_inv w h0 [] v h →
  wp (each rows (Primary.each_callback w))
    (λ o v' h', o = Normal () ∧ primary_inv w h0 rows v' h') v h.
Proof.
  intros Hinv. apply (wp_each_prefix rows _ (primary_inv w h0)); [|done].
  intros pre r post s' h' _ Hpre. unfold wp. rewrite primary_callback_step. simpl.
  split; [done | by apply primary_inv_step].
Qed.

(** [searchOverdueInvoices]: unless the search itself fails, the grouping
    returns [customerInvoices] and its variables satisfy the invariant for
    all the rows. *)
Lemma primary_search_body h0 :
  wp (Primary.searchOverdueInvoices_body w)
    (λ o v h,
       match o with
       | Normal groups =>
           ∃ rows, search_run w Primary.search_options = inr rows
                   ∧ groups = Primary.customerInvoices v ∧ primary_inv w h0 rows v h
       | Thrown e =>
           search_run w Primary.search_options = inl e ∧ v = Primary.initial
           ∧ ∃ evs, h = h0 ++ evs ∧ no_email evs
       end) Primary.initial h0.
Proof.
  unfold Primary.searchOverdueInvoices_body. wp_steps.
  apply wp_host; cbn beta iota.
  - intros rows Hrows.
    wp_step. eapply wp_mono; [|apply (primary_each rows h0)].
    2: { apply primary_inv_history; [apply primary_inv_initial | by repeat constructor]. }
    intros o v h [-> Hinv]. wp_steps.
    eapply wp_mono;
      [|apply (wp_for_each _ _ (λ v' h', v' = v ∧ primary_inv w h0 rows v h'))].
    + intros o v' h' [-> [-> Hinv']]. wp_steps. eauto.
    + intros customerId v' h' _ [-> Hinv']. unfold Primary.log_customer_invoices. wp_steps.
      split; [done|]. split; [done|]. apply primary_inv_history; [done | by repeat constructor].
    + split; [done|]. apply primary_inv_history; [done | by repeat constructor].
  - intros e He. wp_steps. split; [done|]. split; [done|].
    eexists. rewrite <- app_assoc. split; [done | by repeat constructor].
Qed.

End Primary_grouping.

(** ** The grouping stage of the two other scripts *)

Section Other_grouping.
Import Host Run Api Logic Spec.
Context (w : World).


Lemma modular_callback_step r groups h :
  Modular.each_callback w r groups h = modular_step w r groups h.
Proof.
  unfold Modular.each_callback, modular_step, bind, gets, modify, ret.
  destruct (Js.truthy (getValue r "entity")); simpl; [|done].
  unfold Modular.missing, Modular.push, bind, gets, modify, throw, group_of; simpl.
  destruct (JsObject.get groups (getValue r "entity")) as [l| |] eqn:Hslot; simpl.
  - rewrite Hslot; simpl. apply get_Own in Hslot. by rewrite Hslot.
  - by rewrite Hslot.
  - apply get_Undefined in Hslot as [Hown _].
    unfold JsObject.get. rewrite get_own_set_eq; simpl.
    by rewrite set_set, Hown.
Qed.

Lemma inline_callback_step r v h :
  Inline.each_callback w r v h = inline_step w r v h.
Proof.
  unfold Inline.each_callback, inline_step, bind, gets, modify, ret.
  destruct (Js.truthy (getValue r "entity")); simpl; [|done].
  unfold Inline.missing, Inline.push, bind, gets, modify, throw, group_of,
    Inline.set_customerInvoices, Inline.set_invoiceCount; simpl.
  destruct (JsObject.get (Inline.customerInvoices v) (getValue r "entity")) as [l| |] eqn:Hslot;
    simpl.
  - rewrite Hslot; simpl. apply get_Own in Hslot. by rewrite Hslot, <- app_assoc.
  - rewrite Hslot; simpl. by rewrite <- app_assoc.
  - apply get_Undefined in Hslot as [Hown _].
    unfold JsObject.get. rewrite get_own_set_eq; simpl.
    by rewrite set_set, Hown, <- app_assoc.
Qed.



End Other_grouping.

(** ** The dispatch stage of the primary script *)

Section Primary_dispatch.
Import Host Run Api Logic Spec.
Context (w : World).

Lemma primary_getSenderId_total salesRepId customerName h :
  wp (Primary.getSenderId w salesRepId customerName)
    (λ o _ h', (∃ sender, o = Normal sender) ∧ extends not_email h h') () h.
Proof.
  unfold Primary.getSenderId. wp_steps; (split; [eauto | extends_tac]).
Qed.

Lemma primary_createCSVFile_spec customerName customerEmail invoices h :
  wp (Primary.createCSVFile w customerName customerEmail invoices)
    (λ o _ h',
       extends not_email h h'
       ∧ ∀ f, o = Normal f → contents f = Primary.csv_content customerName customerEmail invoices)
    () h.
Proof.
  unfold Primary.createCSVFile. wp_steps.
  - eapply wp_file_load_saved.
    + rewrite !cabinet_snoc. by rewrite decide_True.
    + split; [extends_tac | by intros f [= <-]].
    + intros e. wp_steps. split; [extends_tac | done].
  - split; [extends_tac | done].
  - split; [extends_tac | done].
Qed.

Lemma not_email_with P ev : not_email ev → email_with P ev.
Proof. by destruct ev. Qed.

Lemma extends_not_email P h0 h1 h2 :
  extends (email_with P) h0 h1 → extends not_email h1 h2 → extends (email_with P) h0 h2.
Proof.
  intros H1 H2. eapply extends_trans; [done|].
  eapply extends_weaken; [apply not_email_with | done].
Qed.

(** Every email that [sendCustomerEmail] sends carries one file: the CSV of
    the invoices it was given. *)
Lemma primary_sendCustomerEmail_spec customerId invoices h :
  wp (Primary.sendCustomerEmail w customerId invoices)
    (λ _ _ h',
       extends (email_with (λ f, ∃ customerName customerEmail,
                  contents f = Primary.csv_content customerName customerEmail invoices)) h h')
    () h.
Proof.
  unfold Primary.sendCustomerEmail. wp_steps; try extends_tac.
  eapply wp_mono; [|apply primary_getSenderId_total].
  intros o [] h1 [[senderId ->] Hsender]. wp_step.
  eapply wp_mono; [|apply primary_createCSVFile_spec].
  intros [csvFile|e] [] h2 [Hcsv Hfile].
  - specialize (Hfile _ eq_refl).
    assert (extends (email_with (λ f, ∃ customerName customerEmail,
              contents f = Primary.csv_content customerName customerEmail invoices)) h h2).
    { eapply extends_not_email; [|done]. eapply extends_not_email; [|done]. extends_tac. }
    wp_steps; extends_tac; simpl; eauto.
  - wp_steps. apply extends_snoc; [|done].
    eapply extends_not_email; [|done]. eapply extends_not_email; [|done]. extends_tac.
Qed.

Lemma primary_process_customer_spec groups customerId h :
  wp (Primary.process_customer w groups customerId)
    (λ o _ h',
       o = Normal ()
       ∧ extends (email_with (λ f, ∃ customerName customerEmail,
                    contents f
                    = Primary.csv_content customerName customerEmail (group_of groups customerId)))
           h h')
    () h.
Proof.
  unfold Primary.process_customer. wp_step.
  eapply wp_mono; [|apply primary_sendCustomerEmail_spec].
  intros [[]|e] [] h1 Hext; [done|]. wp_steps. split; [done | extends_tac].
Qed.

(** The loop never throws; its emails carry the CSV of one of the groups. *)
Lemma primary_processCustomerNotifications_spec groups h :
  wp (Primary.processCustomerNotifications w groups)
    (λ o _ h',
       o = Normal ()
       ∧ extends (email_with (λ f, ∃ customerId customerName customerEmail,
                    customerId ∈ JsObject.keys groups
                    ∧ contents f
                      = Primary.csv_content customerName customerEmail
                          (group_of groups customerId)))
           h h')
    () h.
Proof.
  unfold Primary.processCustomerNotifications.
  apply (wp_for_each _ _ (λ _ h', extends (email_with _) h h')); [|apply extends_refl].
  intros customerId [] h1 Hin Hext.
  eapply wp_mono; [|apply primary_process_customer_spec].
  intros o [] h2 [-> Hext2]. split; [done|].
  eapply extends_trans; [done|]. eapply extends_weaken; [|done].
  intros [] Hev; try done. destruct Hev as (f & Hf & name & email & Hc). simpl. eauto 10.
Qed.

End Primary_dispatch.

(** ** The second script: grouping and dispatch *)

Section Modular_run.
Import Host Run Api Logic Spec.
Context (w : World).


Lemma modular_getSenderId_total salesRepId h :
  wp (Modular.getSenderId w salesRepId)
    (λ o _ h', (∃ sender, o = Normal sender) ∧ extends not_email h h') () h.
Proof.
  unfold Modular.getSenderId. wp_steps; (split; [eauto | extends_tac]).
Qed.

Lemma modular_generateCsvFile_spec customerName invoices h :
  wp (Modular.generateCsvFile w customerName invoices)
    (λ o _ h',
       extends not_email h h' ∧ ∀ f, o = Normal f → contents f = Modular.csv_content invoices)
    () h.
Proof.
  unfold Modular.generateCsvFile. wp_steps; (split; [extends_tac|]); [by intros f [= <-] | done].
Qed.

Lemma modular_notify_customer_spec groups customerId h :
  wp (Modular.notify_customer w groups customerId)
    (λ o _ h',
       o = Normal ()
       ∧ extends (email_with (λ f,
                    contents f = Modular.csv_content (group_of groups customerId))) h h')
    () h.
Proof.
  unfold Modular.notify_customer, Modular.notify_customer_try. wp_steps; try (split; [done | extends_tac]).
  eapply wp_mono; [|apply modular_getSenderId_total].
  intros o [] h1 [[senderId ->] Hsender]. wp_step.
  eapply wp_mono; [|apply modular_generateCsvFile_spec].
  assert (extends (email_with (λ f,
            contents f = Modular.csv_content (group_of groups customerId))) h h1).
  { eapply extends_not_email; [|done]. extends_tac. }
  intros [csvFile|e] [] h2 [Hcsv Hfile].
  - specialize (Hfile _ eq_refl).
    assert (extends (email_with (λ f,
              contents f = Modular.csv_content (group_of groups customerId))) h h2)
      by by eapply extends_not_email.
    wp_steps; (split; [done|]); extends_tac; simpl; eauto.
  - wp_steps. split; [done|]. apply extends_snoc; [|done]. by eapply extends_not_email.
Qed.

Lemma modular_notifyCustomers_spec groups h :
  wp (Modular.notifyCustomers w groups)
    (λ o _ h',
       o = Normal ()
       ∧ extends (email_with (λ f, ∃ customerId,
                    customerId ∈ JsObject.keys groups
                    ∧ contents f = Modular.csv_content (group_of groups customerId)))
           h h')
    () h.
Proof.
  unfold Modular.notifyCustomers.
  apply (wp_for_each _ _ (λ _ h', extends (email_with _) h h')); [|apply extends_refl].
  intros customerId [] h1 Hin Hext.
  eapply wp_mono; [|apply modular_notify_customer_spec].
  intros o [] h2 [-> Hext2]. split; [done|].
  eapply extends_trans; [done|]. eapply extends_weaken; [|done].
  intros [] Hev; try done. destruct Hev as (f & Hf & Hc). simpl. eauto 10.
Qed.

End Modular_run.

(** ** The script of [part_000]: grouping and dispatch *)

Section Inline_run.
Import Host Run Api Logic Spec.
Context (w : World).


Lemma inline_notify_customer_spec groups customerId v h :
  wp (Inline.notify_customer w groups customerId)
    (λ o v' h',
       o = Normal () ∧ v' = v
       ∧ extends (email_with (λ f,
                    contents f = Inline.csv_content (group_of groups customerId))) h h')
    v h.
Proof.
  unfold Inline.notify_customer, Inline.notify_customer_try. wp_steps; try (split; [done | split; [done | extends_tac]]).
  all: simpl; eauto.
Qed.

Lemma inline_notify_customers_spec v h :
  wp (Inline.notify_customers w)
    (λ o v' h',
       o = Normal () ∧ v' = v
       ∧ extends (email_with (λ f, ∃ customerId,
                    customerId ∈ JsObject.keys (Inline.customerInvoices v)
                    ∧ contents f
                      = Inline.csv_content (group_of (Inline.customerInvoices v) customerId)))
           h h')
    v h.
Proof.
  unfold Inline.notify_customers. wp_steps.
  eapply wp_mono;
    [|apply (wp_for_each _ _
               (λ v' h', v' = v
                  ∧ extends (email_with (λ f, ∃ customerId,
                       customerId ∈ JsObject.keys (Inline.customerInvoices v)
                       ∧ contents f
                         = Inline.csv_content
                             (group_of (Inline.customerInvoices v) customerId))) h h'));
      [|split; [done | apply extends_refl]]].
  - intros o v' h' [-> [-> Hext]]. done.
  - intros customerId v' h1 Hin [-> Hext].
    eapply wp_mono; [|apply inline_notify_customer_spec].
    intros o v' h2 (-> & -> & Hext2). split; [done|]. split; [done|].
    eapply extends_trans; [done|]. eapply extends_weaken; [|done].
    intros [] Hev; try done. destruct Hev as (f & Hf & Hc). simpl. eauto 10.
Qed.

End Inline_run.

(** ** Whole runs: what the emails carry *)

Section Executions.
Import Host Run Api Logic Spec.
Context (w : World).





End Executions.

(** ** Loops over customers *)

Section Customer_loops.
Import Host Run Api Logic Spec.
Context {S : Type}.

(** A body that catches everything and only logs never throws. *)
Lemma try_catch_log (attempt : M S unit) level title details s h :
  try_catch attempt (λ e, log level title (details e)) s h
  = match attempt s h with
    | (Normal a, s', h') => (Normal (), s', h')
    | (Thrown e, s', h') => (Normal (), s', h' ++ [Log level title (Some (details e))])
    end.
Proof.
  unfold try_catch. by destruct (attempt s h) as [[[[]|e] s'] h'].
Qed.

Lemma for_each_total (xs : list string) (body : string → M S unit) s h :
  (∀ x s h, (body x s h).1.1 = Normal ()) →
  (for_each xs body s h).1.1 = Normal ().
Proof.
  intros Hbody. revert s h. induction xs as [|x xs IH]; intros s h; simpl; [done|].
  unfold bind. specialize (Hbody x s h).
  destruct (body x s h) as [[[[]|e] s'] h']; [apply IH | done].
Qed.

(** The loop at one of its customers. *)
Lemma for_each_at (pre : list string) x (post : list string) (body : string → M S unit) s h :
  (∀ x s h, (body x s h).1.1 = Normal ()) →
  ∃ s1 h1 s2 h2,
    for_each pre body s h = (Normal (), s1, h1)
    ∧ body x s1 h1 = (Normal (), s2, h2)
    ∧ for_each (pre ++ x :: post) body s h = for_each post body s2 h2.
Proof.
  intros Hbody.
  pose proof (for_each_total pre body s h Hbody) as Hpre.
  destruct (for_each pre body s h) as [[o1 s1] h1] eqn:Epre. simpl in Hpre. subst o1.
  pose proof (Hbody x s1 h1) as Hx.
  destruct (body x s1 h1) as [[o2 s2] h2] eqn:Ex. simpl in Hx. subst o2.
  exists s1, h1, s2, h2. split; [done|]. split; [done|].
  rewrite for_each_app. unfold bind at 1. rewrite Epre. simpl.
  unfold bind. by rewrite Ex.
Qed.

Lemma try_catch_loop_isolates (customers : list string) (attempt : string → M S unit)
    level title (details : string → Exn → string) s :
  isolates_failures customers attempt
    (λ c, try_catch (attempt c) (λ e, log level title (details c e)))
    (λ c e, Log level title (Some (details c e)))
    (for_each customers (λ c, try_catch (attempt c) (λ e, log level title (details c e))))
    s.
Proof.
  set (body := λ c, try_catch (attempt c) (λ e, log level title (details c e))).
  assert (Hbody : ∀ x s h, (body x s h).1.1 = Normal ()).
  { intros x s' h'. unfold body. rewrite try_catch_log.
    by destruct (attempt x s' h') as [[[[]|e] s''] h'']. }
  intros pre customerId post h ->.
  destruct (for_each_at pre customerId post body s h Hbody)
    as (s1 & h1 & s2 & h2 & Hpre & Hx & Hloop).
  exists s1, h1. split; [done|]. split; [|by apply for_each_total].
  rewrite Hloop. unfold body in Hx. rewrite try_catch_log in Hx.
  destruct (attempt customerId s1 h1) as [[[[]|e] s'] h']; by simplify_eq.
Qed.

End Customer_loops.

(** ** CSV texts *)

Section Csv.
Import Spec.

Lemma string_app_cons (x : ascii) (a b : string) :
  String x a +:+ b = String x (a +:+ b).
Proof. done. Qed.

Lemma string_app_assoc (a b c : string) : (a +:+ b) +:+ c = a +:+ b +:+ c.
Proof. induction a as [|x a IH]; [done|]. by rewrite !string_app_cons, IH. Qed.

Lemma string_app_nil_r (a : string) : a +:+ EmptyString = a.
Proof. induction a as [|x a IH]; [done|]. by rewrite string_app_cons, IH. Qed.

Lemma fold_left_append {A} (f : A → string) (l : list A) (init : string) :
  fold_left (λ acc x, acc +:+ f x) l init = init +:+ concat_strings (f <$> l).
Proof.
  revert init. induction l as [|x l IH]; intros init; csimpl.
  - by rewrite string_app_nil_r.
  - rewrite IH. unfold concat_strings. simpl. by rewrite string_app_assoc.
Qed.

Lemma has_line_feed_app (a b : string) :
  has_line_feed (a +:+ b) = has_line_feed a || has_line_feed b.
Proof.
  induction a as [|x a IH]; [done|]. rewrite string_app_cons. simpl.
  by rewrite IH, orb_assoc.
Qed.

(** A text without line feed, then a line feed: one line. *)
Lemma lines_line (l rest : string) :
  has_line_feed l = false → lines (l +:+ Js.LF +:+ rest) = l :: lines rest.
Proof.
  induction l as [|c l IH]; [done|]. rewrite string_app_cons. simpl.
  intros [Hc Hl]%orb_false_elim. rewrite Hc, (IH Hl). done.
Qed.

Lemma lines_rows (rows : list string) :
  Forall (λ l, has_line_feed l = false) rows →
  lines (concat_strings ((λ l, l +:+ Js.LF) <$> rows)) = rows.
Proof.
  induction 1 as [|l rows Hl _ IH]; csimpl; [done|].
  by rewrite string_app_assoc, lines_line, IH.
Qed.

Lemma pretty_N_char_no_line_feed (x : N) : pretty_N_char x ≠ "010"%char.
Proof. unfold pretty_N_char. by repeat case_match. Qed.

Lemma pretty_N_go_no_line_feed (x : N) (s : string) :
  has_line_feed s = false → has_line_feed (pretty_N_go x s) = false.
Proof.
  revert s. induction (N.lt_wf_0 x) as [x _ IH]; intros s Hs.
  destruct (decide (x = 0)%N) as [->|Hx]; [by rewrite pretty_N_go_0|].
  rewrite pretty_N_go_step by lia. apply IH.
  - apply N.div_lt; lia.
  - simpl. rewrite Hs, orb_false_r. apply bool_decide_eq_false, pretty_N_char_no_line_feed.
Qed.

Lemma pretty_N_no_line_feed (x : N) : has_line_feed (pretty x) = false.
Proof.
  unfold pretty, pretty_N. case_decide; [done|]. by apply pretty_N_go_no_line_feed.
Qed.

Lemma number_to_string_no_line_feed (n : Js.number) :
  has_line_feed (Js.number_to_string n) = false.
Proof.
  destruct n as [[|x|x]|]; try done; simpl.
  - apply (pretty_N_no_line_feed (N.pos x)).
  - apply (pretty_N_no_line_feed (N.pos x)).
Qed.


Lemma modular_csv_row_line inv : Modular.csv_row inv = plain_line inv +:+ Js.LF.
Proof. unfold Modular.csv_row, plain_line. by rewrite !string_app_assoc. Qed.

Lemma inline_csv_row_line inv : Inline.csv_row inv = plain_line inv +:+ Js.LF.
Proof. unfold Inline.csv_row, plain_line. by rewrite !string_app_assoc. Qed.


Lemma plain_line_single inv : single_line inv → has_line_feed (plain_line inv) = false.
Proof.
  intros [Hi Ha]. unfold plain_line.
  rewrite !has_line_feed_app, Hi, Ha, number_to_string_no_line_feed. done.
Qed.

(** The CSV text of each script: the header, then one row per invoice. *)
Lemma csv_content_rows (customerName customerEmail : string) (invoices : list Invoice) :
  Primary.csv_content customerName customerEmail invoices
  = Primary.csv_header
    +:+ concat_strings (Primary.csv_row customerName customerEmail <$> invoices)
  ∧ Modular.csv_content invoices
    = Modular.csv_header +:+ concat_strings (Modular.csv_row <$> invoices)
  ∧ Inline.csv_content invoices
    = Inline.csv_header +:+ concat_strings (Inline.csv_row <$> invoices).
Proof.
  split; [|split].
  - apply (fold_left_append (Primary.csv_row customerName customerEmail)).
  - apply (fold_left_append Modular.csv_row).
  - apply (fold_left_append Inline.csv_row).
Qed.

(** The lines of a header and rows that hold no line feed. *)
Lemma lines_header_rows {A} (header : string) (row line : A → string) (xs : list A) :
  has_line_feed header = false →
  (∀ x, row x = line x +:+ Js.LF) →
  Forall (λ x, has_line_feed (line x) = false) xs →
  lines ((header +:+ Js.LF) +:+ concat_strings (row <$> xs)) = header :: (line <$> xs).
Proof.
  intros Hheader Hrow Hlines. rewrite string_app_assoc, lines_line by done. f_equal.
  rewrite <- (lines_rows (line <$> xs)) by by apply Forall_fmap.
  f_equal. f_equal. rewrite <- list_fmap_compose. apply list_fmap_ext.
  intros _ x _. apply Hrow.
Qed.

End Csv.

(** ** C1: deduplication *)

Section Deduplication.
Import Host Run Api Logic Spec.

Lemma length_filter_NoDup {A B} `{EqDecision B} (f : A → B) (l : list A) (x : A) :
  NoDup (f <$> l) → x ∈ l → length (filter (λ y, f y = f x) l) = 1%nat.
Proof.
  induction l as [|a l IH]; csimpl; [by intros _ ?%elem_of_nil|].
  intros [Ha Hnd]%NoDup_cons Hx. rewrite filter_cons.
  case_decide as Hfa.
  - simpl. f_equal. destruct (filter (λ y, f y = f x) l) as [|y ys] eqn:Hf; [done|].
    assert (Hy : y ∈ filter (λ y, f y = f x) l) by (rewrite Hf; left).
    apply list_elem_of_filter in Hy as [Hfy Hy].
    destruct Ha. rewrite Hfa, <- Hfy. by apply list_elem_of_fmap_2.
  - apply IH; [done|]. apply elem_of_cons in Hx as [->|Hx]; done.
Qed.

(** C1 (amended), the primary script.  When the search delivers at least
    one row (so also two, or more) of the pair (customerId, number), with a
    customer identifier that is not empty, and neither the identifier nor
    the key customerId_number is a member name of Object.prototype, and no
    row of another pair has the same key, then the grouping ends normally,
    the customer's list holds exactly one summary of that invoice number,
    and invoiceCount is the number of distinct keys: a repeated row
    increments no count. *)
Theorem primary_deduplicates (w : World) (h0 : History) (rows : list Values)
    (customerId number : string) :
  search_run w Primary.search_options = inr rows →
  (∃ r, r ∈ rows ∧ has_pair customerId number r) →
  Js.truthy customerId = true →
  JsObject.inherited customerId = false →
  JsObject.inherited (Primary.invoiceKey customerId number) = false →
  (∀ r, r ∈ rows → Js.truthy (getValue r "entity") = true →
     Primary.invoiceKey (getValue r "entity") (getValue r "tranid")
     = Primary.invoiceKey customerId number →
     has_pair customerId number r) →
  ∃ v h,
    Primary.searchOverdueInvoices_body w Primary.initial h0
    = (Normal (Primary.customerInvoices v), v, h)
    ∧ length (summaries_for (Primary.customerInvoices v) customerId number) = 1%nat
    ∧ Primary.invoiceCount v = Z.of_nat (length (remove_dups (marked_keys rows))).
Proof.
  intros Hrows (r & Hr & Hc & Hn) Htruthy Hinh_c Hinh_k Hcoll.
  pose proof (primary_search_body w h0) as Hwp. unfold wp in Hwp.
  destruct (Primary.searchOverdueInvoices_body w Primary.initial h0) as [[[groups|e] v] h];
    simpl in Hwp; [|destruct Hwp as [? _]; congruence].
  destruct Hwp as (rows' & Hrows' & -> & Hinv).
  assert (rows' = rows) as -> by congruence.
  exists v, h. split; [done|].
  destruct Hinv as [Hg Hm Hnd Hcount Hknd Hk Ht Hp _].
  assert (Hkey : Primary.invoiceKey customerId number ∈ marked_keys rows).
  { unfold marked_keys. apply list_elem_of_omap. exists r. split; [done|].
    rewrite Hc, Hn, Htruthy, Hinh_k. done. }
  apply Hk, get_own_is_Some in Hkey as [b Hb].
  rewrite (Ht _ _ Hb) in Hb.
  destruct (Hp customerId number Hcoll Hinh_c Hb) as (inv & Hin & Hnum).
  split.
  - unfold summaries_for. rewrite <- Hnum.
    apply (length_filter_NoDup invoiceNumber); [|done].
    unfold group_of in *.
    destruct (JsObject.get_own (Primary.customerInvoices v) customerId) as [l|] eqn:Hl;
      simpl in *; [by eapply Hnd | by apply elem_of_nil in Hin].
  - rewrite Hcount. f_equal. rewrite <- (length_fmap fst). apply Permutation_length.
    apply NoDup_Permutation; [done | apply NoDup_remove_dups |].
    intros key. by rewrite Hk, elem_of_remove_dups.
Qed.

Lemma primary_deduplicates_witness :
  ∃ v h,
    Primary.searchOverdueInvoices_body (Sample.world Sample.duplicate_rows) Primary.initial []
    = (Normal (Primary.customerInvoices v), v, h)
    ∧ length (summaries_for (Primary.customerInvoices v) "1" "INV1") = 1%nat
    ∧ Primary.invoiceCount v
      = Z.of_nat (length (remove_dups (marked_keys Sample.duplicate_rows))).
Proof.
  apply (primary_deduplicates (Sample.world Sample.duplicate_rows) [] Sample.duplicate_rows
           "1" "INV1").
  - reflexivity.
  - exists (Sample.row "1" "INV1" "100" "1/1/2024"). split; [left | by split].
  - reflexivity.
  - reflexivity.
  - reflexivity.
  - intros r Hr _ _. unfold Sample.duplicate_rows in Hr.
    apply elem_of_cons in Hr as [->|Hr]; [by split|].
    apply list_elem_of_singleton in Hr as ->. by split.
Defined.

(** C1, as stated, fails on the two other scripts: they have no guard, and
    keep both summaries of an invoice that the search delivers twice. *)
Lemma duplicates_kept_without_guard :
  (∃ h, Modular.getOverdueInvoices (Sample.world Sample.duplicate_rows) () []
        = (Normal [("1", [ {| invoiceNumber := "INV1"; amount := "100";
                              daysOverdue := Js.Num 60 |};
                           {| invoiceNumber := "INV1"; amount := "100";
                              daysOverdue := Js.Num 60 |} ])], (), h))
  ∧ (∃ n h, Inline.group_invoices (Sample.world Sample.duplicate_rows) Inline.initial []
            = (Normal (),
               {| Inline.customerInvoices :=
                    [("1", [ {| invoiceNumber := "INV1"; amount := "100";
                                daysOverdue := Js.Num 60 |};
                             {| invoiceNumber := "INV1"; amount := "100";
                                daysOverdue := Js.Num 60 |} ])];
                  Inline.invoiceCount := n |}, h))
  ∧ length (summaries_for
              [("1", [ {| invoiceNumber := "INV1"; amount := "100";
                          daysOverdue := Js.Num 60 |};
                       {| invoiceNumber := "INV1"; amount := "100";
                          daysOverdue := Js.Num 60 |} ])] "1" "INV1") = 2%nat.
Proof.
  split; [|split].
  - eexists. vm_compute. reflexivity.
  - do 2 eexists. vm_compute. reflexivity.
  - reflexivity.
Qed.

End Deduplication.

(** ** C3: one customer's failure never aborts the batch *)

Section Failure_isolation.
Import Host Run Api Logic Spec.

(** C3.  In each of the three scripts the customer loop isolates failures:
    whatever the attempt for one customer does (load the customer, resolve
    the sender, create the file, send the email), an exception that it
    throws is caught by the loop body, which writes an error entry with the
    customer identifier and the message, and the loop goes on with the
    customers after it and ends without an exception. *)
Theorem one_failure_never_aborts_the_batch (w : World) (groups : Groups) :
  isolates_failures (JsObject.keys groups)
    (λ customerId, Primary.sendCustomerEmail w customerId (group_of groups customerId))
    (Primary.process_customer w groups)
    (λ customerId e,
       Log ERROR "Customer Processing Error"
         (Some ("Failed to process customer ID " +:+ customerId +:+ ": " +:+ message e)))
    (Primary.processCustomerNotifications w groups) ()
  ∧ isolates_failures (JsObject.keys groups)
      (Modular.notify_customer_try w groups)
      (Modular.notify_customer w groups)
      (λ customerId e,
         Log ERROR "Email Error"
           (Some ("Failed to send email to customer ID " +:+ customerId +:+ ": " +:+ message e)))
      (Modular.notifyCustomers w groups) ()
  ∧ ∀ invoiceCount,
      isolates_failures (JsObject.keys groups)
        (Inline.notify_customer_try w groups)
        (Inline.notify_customer w groups)
        (λ customerId e,
           Log ERROR "Email Error"
             (Some ("Failed to send email to customer ID " +:+ customerId +:+ ": "
                    +:+ message e)))
        (Inline.notify_customers w)
        {| Inline.customerInvoices := groups; Inline.invoiceCount := invoiceCount |}.
Proof.
  split; [|split].
  - apply (try_catch_loop_isolates (JsObject.keys groups)
             (λ customerId, Primary.sendCustomerEmail w customerId (group_of groups customerId))
             ERROR "Customer Processing Error"
             (λ customerId e,
                "Failed to process customer ID " +:+ customerId +:+ ": " +:+ message e)).
  - apply (try_catch_loop_isolates (JsObject.keys groups)
             (Modular.notify_customer_try w groups)
             ERROR "Email Error"
             (λ customerId e,
                "Failed to send email to customer ID " +:+ customerId +:+ ": " +:+ message e)).
  - intros invoiceCount.
    apply (try_catch_loop_isolates (JsObject.keys groups)
             (Inline.notify_customer_try w groups)
             ERROR "Email Error"
             (λ customerId e,
                "Failed to send email to customer ID " +:+ customerId +:+ ": " +:+ message e)).
Qed.

(** A run of the primary script's loop where the load of customer 3
    fails: the error is logged twice (by [sendCustomerEmail], which throws
    it again, and by the loop body) and the loop ends normally. *)
Example failure_of_customer_3_is_logged :
  Primary.processCustomerNotifications (Sample.world []) (Sample.groups_of "3") () []
  = (Normal (), (),
     [ LookupFields CUSTOMER "3";
       Log ERROR "Email Send Error"
         (Some "Failed to send email to customer ID 3: That record does not exist.");
       Log ERROR "Customer Processing Error"
         (Some "Failed to process customer ID 3: That record does not exist.") ]).
Proof. vm_compute. reflexivity. Qed.

End Failure_isolation.

(** ** C4: a customer without an email address is skipped *)

Section Missing_email.
Import Host Run Api Logic Spec.

(** C4.  In each of the three scripts, when the loop reaches a customer
    whose record, as the host returns it at that moment, has no email
    address, the only host calls made for that customer are the load of the
    record and (primary script, [part_000]) the log entry that reports the
    missing address: no file is created and [email.send] is not called;
    the loop then goes on with the customers after it. *)
Theorem customers_without_email_are_skipped (w : World) (groups : Groups)
    (pre : list string) (customerId : string) (post : list string) (h : History) :
  JsObject.keys groups = pre ++ customerId :: post →
  (∀ fields,
     let h1 := history_after (for_each pre (Primary.process_customer w groups)) () h in
     lookup_customer w h1 customerId = inr fields →
     Js.truthy (email fields) = false →
     Primary.processCustomerNotifications w groups () h
     = for_each post (Primary.process_customer w groups) ()
         (h1 ++ [ LookupFields CUSTOMER customerId;
                  Log ERROR "Missing Email"
                    (Some ("Customer "
                           +:+ Js.or_else (Js.or_else (companyname fields) (firstname fields))
                                 "Customer"
                           +:+ " (ID: " +:+ customerId +:+ ") has no email. Skipping.")) ]))
  ∧ (∀ customerRecord,
       let h1 := history_after (for_each pre (Modular.notify_customer w groups)) () h in
       record_load w h1 CUSTOMER customerId = inr customerRecord →
       Js.truthy (getValue customerRecord "email") = false →
       Modular.notifyCustomers w groups () h
       = for_each post (Modular.notify_customer w groups) ()
           (h1 ++ [RecordLoad CUSTOMER customerId]))
  ∧ (∀ customerRecord invoiceCount,
       let v := {| Inline.customerInvoices := groups; Inline.invoiceCount := invoiceCount |} in
       let h1 := history_after (for_each pre (Inline.notify_customer w groups)) v h in
       record_load w h1 CUSTOMER customerId = inr customerRecord →
       Js.truthy (getValue customerRecord "email") = false →
       Inline.notify_customers w v h
       = for_each post (Inline.notify_customer w groups) v
           (h1 ++ [ RecordLoad CUSTOMER customerId;
                    Log ERROR "Missing Email"
                      (Some ("Customer "
                             +:+ Js.or_else (getValue customerRecord "companyname")
                                   (getValue customerRecord "firstname")
                             +:+ " (ID: " +:+ customerId +:+ ") has no email. Skipping.")) ])).
Proof.
  intros Hkeys. split; [|split].
  - intros fields h1 Hlookup Hemail.
    destruct (try_catch_loop_isolates (JsObject.keys groups)
                (λ customerId, Primary.sendCustomerEmail w customerId (group_of groups customerId))
                ERROR "Customer Processing Error"
                (λ customerId e,
                   "Failed to process customer ID " +:+ customerId +:+ ": " +:+ message e)
                () pre customerId post h Hkeys) as ([] & h1' & Hpre & Hattempt & _).
    change (for_each pre (Primary.process_customer w groups) () h = (Normal (), (), h1'))
      in Hpre.
    assert (h1' = h1) as -> by (unfold h1, history_after; by rewrite Hpre).
    unfold Primary.sendCustomerEmail, search_lookupFields_customer, try_catch, bind, host
      in Hattempt.
    rewrite Hlookup in Hattempt. simpl in Hattempt. rewrite Hemail in Hattempt.
    simpl in Hattempt. rewrite <- app_assoc in Hattempt. exact Hattempt.
  - intros customerRecord h1 Hload Hemail.
    destruct (try_catch_loop_isolates (JsObject.keys groups)
                (Modular.notify_customer_try w groups)
                ERROR "Email Error"
                (λ customerId e,
                   "Failed to send email to customer ID " +:+ customerId +:+ ": " +:+ message e)
                () pre customerId post h Hkeys) as ([] & h1' & Hpre & Hattempt & _).
    change (for_each pre (Modular.notify_customer w groups) () h = (Normal (), (), h1'))
      in Hpre.
    assert (h1' = h1) as -> by (unfold h1, history_after; by rewrite Hpre).
    unfold Modular.notify_customer_try, record_load_, bind, host in Hattempt.
    rewrite Hload in Hattempt. simpl in Hattempt. rewrite Hemail in Hattempt.
    exact Hattempt.
  - intros customerRecord invoiceCount v h1 Hload Hemail.
    destruct (try_catch_loop_isolates (JsObject.keys groups)
                (Inline.notify_customer_try w groups)
                ERROR "Email Error"
                (λ customerId e,
                   "Failed to send email to customer ID " +:+ customerId +:+ ": " +:+ message e)
                v pre customerId post h Hkeys) as (v1 & h1' & Hpre & Hattempt & _).
    change (for_each pre (Inline.notify_customer w groups) v h = (Normal (), v1, h1'))
      in Hpre.
    assert (h1' = h1) as -> by (unfold h1, history_after; by rewrite Hpre).
    assert (v1 = v) as ->.
    { pose proof (wp_for_each pre (Inline.notify_customer w groups) (λ v' _, v' = v) v h) as Hv.
      unfold wp in Hv. rewrite Hpre in Hv. apply Hv; [|done]. intros x s' h' _ ->.
      pose proof (inline_notify_customer_spec w groups x v h') as Hx. unfold wp in *.
      destruct Hx as (Ho & Hs & _). by rewrite Ho, Hs. }
    unfold Inline.notify_customer_try, record_load_, bind, host in Hattempt.
    rewrite Hload in Hattempt. simpl in Hattempt. rewrite Hemail in Hattempt.
    simpl in Hattempt. rewrite <- app_assoc in Hattempt. exact Hattempt.
Qed.

Lemma customers_without_email_are_skipped_witness :
  Modular.notifyCustomers (Sample.world [])
    [("2", [Sample.invoice_60]); ("3", [Sample.invoice_60])] () []
  = for_each ["3"]
      (Modular.notify_customer (Sample.world [])
         [("2", [Sample.invoice_60]); ("3", [Sample.invoice_60])])
      () [RecordLoad CUSTOMER "2"].
Proof.
  destruct (customers_without_email_are_skipped (Sample.world [])
              [("2", [Sample.invoice_60]); ("3", [Sample.invoice_60])]
              [] "2" ["3"] []) as (_ & Hmodular & _).
  - vm_compute. reflexivity.
  - exact (Hmodular (Sample.record EmptyString "Bob" EmptyString EmptyString)
             eq_refl eq_refl).
Defined.

End Missing_email.

(** ** C8: no invoice, no email *)

Section No_invoices.
Import Host Run Api Logic Spec.

(** C8.  When the search delivers no row, each script ends normally after
    its log entry "No Invoices Found": nothing is thrown, and the history
    holds no customer load, no file and no email. *)
Theorem no_invoices_ends_early (w : World) (h : History) :
  (search_run w Primary.search_options = inr [] →
   Primary.execute w () h
   = (Normal (), (),
      h ++ [ Log AUDIT "Script Started" (Some "Monthly Overdue Invoice Email Notification");
             SearchRun Primary.search_options;
             Log AUDIT "Invoices Found" (Some "Total unique overdue invoices: 0");
             Log AUDIT "No Invoices Found"
               (Some "No overdue invoices were found for the previous month.") ]))
  ∧ (search_run w Modular.search_options = inr [] →
     Modular.execute w () h
     = (Normal (), (),
        h ++ [ SearchRun Modular.search_options;
               Log AUDIT "No Invoices Found"
                 (Some "No overdue invoices were found for the previous month.") ]))
  ∧ (search_run w Inline.search_options = inr [] →
     Inline.execute w () h
     = (Normal (), (),
        h ++ [ Log AUDIT "Script Started" None;
               SearchRun Inline.search_options;
               Log AUDIT "No Invoices Found"
                 (Some "No overdue invoices were found for the previous month.") ])).
Proof.
  split; [|split]; intros Hrows.
  - unfold Primary.execute, Primary.searchOverdueInvoices, Primary.searchOverdueInvoices_body,
      search_create_run, log, try_catch, bind, call, host.
    rewrite Hrows. simpl. rewrite <- ?app_assoc. reflexivity.
  - unfold Modular.execute, Modular.getOverdueInvoices, search_create_run, log, bind, call, host.
    rewrite Hrows. simpl. rewrite <- ?app_assoc. reflexivity.
  - unfold Inline.execute, Inline.group_invoices, search_create_run, log, log_title, bind,
      call, host.
    rewrite Hrows. simpl. rewrite <- ?app_assoc. reflexivity.
Qed.

Lemma no_invoices_ends_early_witness :
  Primary.execute (Sample.world []) () []
  = (Normal (), (),
     [ Log AUDIT "Script Started" (Some "Monthly Overdue Invoice Email Notification");
       SearchRun Primary.search_options;
       Log AUDIT "Invoices Found" (Some "Total unique overdue invoices: 0");
       Log AUDIT "No Invoices Found"
         (Some "No overdue invoices were found for the previous month.") ])
  ∧ Modular.execute (Sample.world []) () []
    = (Normal (), (),
       [ SearchRun Modular.search_options;
         Log AUDIT "No Invoices Found"
           (Some "No overdue invoices were found for the previous month.") ])
  ∧ Inline.execute (Sample.world []) () []
    = (Normal (), (),
       [ Log AUDIT "Script Started" None;
         SearchRun Inline.search_options;
         Log AUDIT "No Invoices Found"
           (Some "No overdue invoices were found for the previous month.") ]).
Proof.
  destruct (no_invoices_ends_early (Sample.world []) []) as (Hp & Hm & Hi).
  split; [|split].
  - apply Hp. reflexivity.
  - apply Hm. reflexivity.
  - apply Hi. reflexivity.
Defined.

End No_invoices.

(** ** C9: two pairs with one key *)

Section Key_collision.
Import Host Run Api Logic Spec.

(** C9.  The key of the primary script is customerId, an underscore, the
    invoice number; the different pairs (1, 2_3) and (1_2, 3) have the same
    key 1_2_3.  When the search delivers an invoice of each, in that order,
    the second one is dropped: the result has the customer 1 only, with its
    single invoice, invoiceCount is 1, and the history holds no error
    entry (nor any entry) for the dropped row. *)
Theorem invoiceKey_collision_drops_invoice :
  Primary.invoiceKey "1" "2_3" = Primary.invoiceKey "1_2" "3"
  ∧ ("1", "2_3") ≠ ("1_2", "3")
  ∧ ∀ (w : World) (h : History) (amount1 due1 amount2 due2 : string),
      search_run w Primary.search_options
      = inr [ Sample.row "1" "2_3" amount1 due1; Sample.row "1_2" "3" amount2 due2 ] →
      Primary.searchOverdueInvoices w () h
      = (Normal [ ("1", [ summary_of w (h ++ [SearchRun Primary.search_options])
                            (Sample.row "1" "2_3" amount1 due1) ]) ],
         (),
         h ++ [ SearchRun Primary.search_options;
                DateNow;
                Log AUDIT "Invoices Found" (Some "Total unique overdue invoices: 1");
                Log AUDIT "Customer Invoices" (Some "Customer ID 1: 1 invoices - 2_3") ]).
Proof.
  split; [done|]. split; [done|].
  intros w h amount1 due1 amount2 due2 Hrows.
  unfold Primary.searchOverdueInvoices, Primary.searchOverdueInvoices_body,
    search_create_run, try_catch, bind, call, host.
  rewrite Hrows. cbn [each]. unfold bind. rewrite !primary_callback_step.
  simpl. rewrite <- ?app_assoc. reflexivity.
Qed.

Lemma invoiceKey_collision_drops_invoice_witness :
  Primary.searchOverdueInvoices (Sample.world Sample.colliding_rows) () []
  = (Normal [ ("1", [ {| invoiceNumber := "2_3"; amount := "100";
                         daysOverdue := Js.Num 60 |} ]) ],
     (),
     [ SearchRun Primary.search_options;
       DateNow;
       Log AUDIT "Invoices Found" (Some "Total unique overdue invoices: 1");
       Log AUDIT "Customer Invoices" (Some "Customer ID 1: 1 invoices - 2_3") ]).
Proof.
  destruct invoiceKey_collision_drops_invoice as (_ & _ & Hdrop).
  apply (Hdrop (Sample.world Sample.colliding_rows) [] "100" "1/1/2024" "250" "1/1/2024").
  reflexivity.
Defined.

End Key_collision.

(** ** C10: what the groups hold *)

Section Grouping_results.
Import Host Run Api Logic Spec.
Context (w : World).






End Grouping_results.

Section Days_overdue.
Import Host Run Api Logic Spec.



End Days_overdue.

(** ** [parseInt] of a decimal numeral *)

Section ParseInt.

Lemma decimal_value_app (a b : string) (acc : Z) :
  JsObject.decimal_value acc (a +:+ b)
  = JsObject.decimal_value acc a ≫= λ v, JsObject.decimal_value v b.
Proof.
  revert acc. induction a as [|c a IH]; intros acc; [done|].
  rewrite string_app_cons. simpl. destruct (JsObject.is_digit c); [apply IH | done].
Qed.

Lemma pretty_N_go_app (x : N) (s : string) :
  pretty_N_go x s = pretty_N_go x EmptyString +:+ s.
Proof.
  revert s. induction (N.lt_wf_0 x) as [x _ IH]; intros s.
  destruct (decide (x = 0)%N) as [->|Hx]; [by rewrite !pretty_N_go_0|].
  assert (Hlt : (x `div` 10 < x)%N) by (apply N.div_lt; lia).
  rewrite (pretty_N_go_step x s), (pretty_N_go_step x EmptyString) by lia.
  rewrite (IH _ Hlt (String (pretty_N_char (x `mod` 10)) s)).
  rewrite (IH _ Hlt (String (pretty_N_char (x `mod` 10)) EmptyString)).
  by rewrite string_app_assoc.
Qed.

Lemma pretty_N_char_code (x : N) :
  (x < 10)%N → Js.code (pretty_N_char x) = 48 + Z.of_N x.
Proof.
  intros Hx.
  assert (x = 0 ∨ x = 1 ∨ x = 2 ∨ x = 3 ∨ x = 4 ∨ x = 5 ∨ x = 6 ∨ x = 7 ∨ x = 8 ∨ x = 9)%N
    as Hcases by lia.
  repeat (destruct Hcases as [->|Hcases]; [reflexivity|]). by subst.
Qed.

Lemma decimal_value_pretty_N_go (x : N) :
  JsObject.decimal_value 0 (pretty_N_go x EmptyString) = Some (Z.of_N x).
Proof.
  induction (N.lt_wf_0 x) as [x _ IH].
  destruct (decide (x = 0)%N) as [->|Hx]; [done|].
  rewrite pretty_N_go_step by lia. rewrite pretty_N_go_app, decimal_value_app.
  rewrite IH by (apply N.div_lt; lia). simpl.
  assert (Hmod : (x `mod` 10 < 10)%N) by (apply N.mod_lt; lia).
  unfold JsObject.is_digit. rewrite (pretty_N_char_code _ Hmod).
  assert (Hx10 : Z.of_N x = 10 * Z.of_N (x `div` 10) + Z.of_N (x `mod` 10)).
  { rewrite N2Z.inj_div, N2Z.inj_mod. apply Z.div_mod. lia. }
  generalize dependent (x `mod` 10)%N. generalize dependent (x `div` 10)%N.
  intros q r Hr Hx10.
  replace ((48 <=? 48 + Z.of_N r) && (48 + Z.of_N r <=? 57))
    with true by (symmetry; apply andb_true_iff; split; apply Z.leb_le; lia).
  f_equal. lia.
Qed.

Lemma read_digits_decimal (s : string) (acc : option Z) (v : Z) :
  JsObject.decimal_value (default 0 acc) s = Some v →
  s ≠ EmptyString ∨ is_Some acc →
  Js.read_digits 10 acc s = Some v.
Proof.
  revert acc. induction s as [|c s IH]; intros acc; simpl.
  - intros [= <-] [?|[a ->]]; done.
  - unfold JsObject.is_digit, Js.digit_value.
    destruct ((48 <=? Js.code c) && (Js.code c <=? 57)) eqn:Hc; [|done].
    apply andb_true_iff in Hc as [Hlo%Z.leb_le Hhi%Z.leb_le].
    replace (Js.code c - 48 <? 10) with true by (symmetry; apply Z.ltb_lt; lia).
    intros Hv _. apply IH; [done | right; eauto].
Qed.

Lemma digit_is_plain (c : ascii) :
  JsObject.is_digit c = true →
  Js.is_white_space c = false ∧ c ≠ "-"%char ∧ c ≠ "+"%char
  ∧ c ≠ "x"%char ∧ c ≠ "X"%char.
Proof.
  unfold JsObject.is_digit, Js.is_white_space.
  intros [Hlo%Z.leb_le Hhi%Z.leb_le]%andb_true_iff.
  split; [|repeat split; intros ->; vm_compute in Hlo, Hhi; by first [apply Hlo | apply Hhi]].
  apply orb_false_iff. split; [apply orb_false_iff; split|].
  - apply andb_false_iff. right. apply Z.leb_gt. lia.
  - apply Z.eqb_neq. lia.
  - apply Z.eqb_neq. lia.
Qed.

(** [parseInt] reads a canonical decimal numeral back. *)
Lemma parseInt_pretty (n : N) : Js.parseInt (pretty n) = Js.Num (Z.of_N n).
Proof.
  unfold pretty, pretty_N. case_decide as Hn; [by subst|].
  pose proof (decimal_value_pretty_N_go n) as Hvalue.
  destruct (pretty_N_go n EmptyString) as [|c s] eqn:Hs.
  { simpl in Hvalue. injection Hvalue as Hvalue. lia. }
  assert (Hread : Js.read_digits 10 None (String c s) = Some (Z.of_N n))
    by (apply read_digits_decimal; [done | by left]).
  simpl in Hvalue. destruct (JsObject.is_digit c) eqn:Hc; [|done].
  destruct (digit_is_plain c Hc) as (Hws & Hminus & Hplus & _).
  unfold Js.parseInt. simpl. rewrite Hws.
  assert (Hsign : Js.strip_sign (String c s) = (1, String c s)).
  { unfold Js.strip_sign.
    destruct c as [[] [] [] [] [] [] [] []]; try done. }
  rewrite Hsign.
  assert (Hhex : Js.strip_hex_prefix (String c s) = (10, String c s)).
  { destruct s as [|c' s']; [by destruct c as [[] [] [] [] [] [] [] []]|].
    simpl in Hvalue. destruct (JsObject.is_digit c') eqn:Hc'; [|done].
    destruct (digit_is_plain c' Hc') as (_ & _ & _ & Hx & HX).
    unfold Js.strip_hex_prefix.
    destruct c as [[] [] [] [] [] [] [] []]; try done;
      destruct c' as [[] [] [] [] [] [] [] []]; done. }
  rewrite Hhex, Hread. f_equal. lia.
Qed.

End ParseInt.

(** ** C2: the sender of each email *)

Section Sender.
Import Host Run Api Logic Spec.
Context (w : World).

Lemma not_email_authored a ev : not_email ev → authored_by a ev.
Proof. by destruct ev. Qed.

Lemma extends_authored a h0 h1 h2 :
  extends (authored_by a) h0 h1 → extends not_email h1 h2 → extends (authored_by a) h0 h2.
Proof.
  intros H1 H2. eapply extends_trans; [done|].
  eapply extends_weaken; [apply not_email_authored | done].
Qed.

(** [getSenderId] of the primary script follows the rule of the
    specification, with [parseInt] of the identifier for the sales rep. *)
Lemma primary_getSenderId_spec salesRepId customerName h :
  wp (Primary.getSenderId w salesRepId customerName)
    (λ o _ h',
       o = Normal (primary_author
                     (spec_sender salesRepId
                        (lookup_employee w h (default EmptyString salesRepId))))
       ∧ extends not_email h h')
    () h.
Proof.
  unfold Primary.getSenderId. wp_step.
  destruct salesRepId as [id|]; simpl; [|wp_steps; split; [done | extends_tac]].
  unfold spec_sender. destruct (Js.truthy id) eqn:Hid; simpl;
    [|wp_steps; split; [done | extends_tac]].
  wp_step. apply wp_host; cbn beta iota.
  - intros salesRepEmail ->.
    destruct (Js.truthy salesRepEmail) eqn:He; wp_steps; (split; [done | extends_tac]).
  - intros e ->. wp_steps. split; [done | extends_tac].
Qed.

(** [getSenderId] of the second script follows the rule too, with the
    identifier itself for the sales rep. *)
Lemma modular_getSenderId_spec salesRepId h :
  wp (Modular.getSenderId w salesRepId)
    (λ o _ h',
       o = Normal (modular_author
                     (spec_sender (Some salesRepId)
                        (loaded_email (record_load w h EMPLOYEE salesRepId))))
       ∧ extends not_email h h')
    () h.
Proof.
  unfold Modular.getSenderId, spec_sender, loaded_email, loaded_field. wp_step. wp_step.
  destruct (Js.truthy salesRepId) eqn:Hid; simpl; [|wp_steps; split; [done | extends_tac]].
  wp_step. wp_step. apply wp_host; cbn beta iota.
  - intros salesRepRecord ->.
    destruct (Js.truthy (getValue salesRepRecord "email")) eqn:He; wp_steps;
      (split; [done | extends_tac]).
  - intros e ->. wp_steps. split; [done | extends_tac].
Qed.

Lemma primary_process_customer_author groups customerId h fields :
  lookup_customer w h customerId = inr fields →
  wp (Primary.process_customer w groups customerId)
    (λ _ _ h',
       extends
         (authored_by
            (primary_author
               (spec_sender (Primary.first_value (salesrep fields))
                  (lookup_employee w (h ++ [LookupFields CUSTOMER customerId])
                     (default EmptyString (Primary.first_value (salesrep fields)))))))
         h h')
    () h.
Proof.
  intros Hlookup. unfold Primary.process_customer, Primary.sendCustomerEmail.
  wp_steps; try extends_tac.
  assert (a = fields) as -> by congruence.
  eapply wp_mono; [|apply primary_getSenderId_spec].
  intros o [] h1 [-> Hsender]. wp_step.
  eapply wp_mono; [|apply primary_createCSVFile_spec].
  assert (extends
            (authored_by
               (primary_author
                  (spec_sender (Primary.first_value (salesrep fields))
                     (lookup_employee w (h ++ [LookupFields CUSTOMER customerId])
                        (default EmptyString (Primary.first_value (salesrep fields)))))))
            h h1) by (eapply extends_authored; [|done]; extends_tac).
  intros [csvFile|e] [] h2 [Hcsv _];
    (assert (extends
               (authored_by
                  (primary_author
                     (spec_sender (Primary.first_value (salesrep fields))
                        (lookup_employee w (h ++ [LookupFields CUSTOMER customerId])
                           (default EmptyString (Primary.first_value (salesrep fields)))))))
               h h2) by by eapply extends_authored);
    wp_steps; extends_tac.
Qed.

Lemma modular_notify_customer_author groups customerId h customerRecord :
  record_load w h CUSTOMER customerId = inr customerRecord →
  wp (Modular.notify_customer w groups customerId)
    (λ _ _ h',
       extends
         (authored_by
            (modular_author
               (spec_sender (Some (getValue customerRecord "salesrep"))
                  (loaded_email
                     (record_load w (h ++ [RecordLoad CUSTOMER customerId]) EMPLOYEE
                        (getValue customerRecord "salesrep"))))))
         h h')
    () h.
Proof.
  intros Hload. unfold Modular.notify_customer, Modular.notify_customer_try.
  wp_steps; try extends_tac.
  assert (a = customerRecord) as -> by congruence.
  eapply wp_mono; [|apply modular_getSenderId_spec].
  intros o [] h1 [-> Hsender]. wp_step.
  eapply wp_mono; [|apply modular_generateCsvFile_spec].
  assert (extends
            (authored_by
               (modular_author
                  (spec_sender (Some (getValue customerRecord "salesrep"))
                     (loaded_email
                        (record_load w (h ++ [RecordLoad CUSTOMER customerId]) EMPLOYEE
                           (getValue customerRecord "salesrep"))))))
            h h1) by (eapply extends_authored; [|done]; extends_tac).
  intros [csvFile|e] [] h2 [Hcsv _];
    (assert (extends
               (authored_by
                  (modular_author
                     (spec_sender (Some (getValue customerRecord "salesrep"))
                        (loaded_email
                           (record_load w (h ++ [RecordLoad CUSTOMER customerId]) EMPLOYEE
                              (getValue customerRecord "salesrep"))))))
               h h2) by by eapply extends_authored);
    wp_steps; extends_tac.
Qed.

Lemma inline_notify_customer_author groups customerId v h customerRecord :
  record_load w h CUSTOMER customerId = inr customerRecord →
  wp (Inline.notify_customer w groups customerId)
    (λ _ _ h',
       extends (authored_by (inline_author w (getValue customerRecord "salesrep"))) h h')
    v h.
Proof.
  intros Hload. unfold Inline.notify_customer, Inline.notify_customer_try.
  wp_steps; try extends_tac.
  all: assert (a = customerRecord) as -> by congruence.
  all: simpl; unfold inline_author;
    repeat match goal with H : Js.truthy _ = _ |- _ => rewrite H end; congruence.
Qed.

(** C2 (amended).  In the primary script and in the second script the
    sender follows the rule: the administrator -5 when the customer has no
    sales rep, or when the sales rep's employee record has no email or
    cannot be read; the sales rep otherwise, written as [parseInt] of the
    identifier by the primary script (for a decimal numeral, that number)
    and as the identifier itself by the second script.  This holds of
    [getSenderId] and of the author of every email that the loop body sends
    for a customer.  In [part_000] the author is the customer's sales rep
    whenever there is one, whatever the employee's email, and the current
    user otherwise. *)
Theorem sender_of_each_email (groups : Groups) (customerId : string) (h : History) :
  (∀ salesRepId customerName,
     outcome_of (Primary.getSenderId w salesRepId customerName) () h
     = Normal (primary_author
                 (spec_sender salesRepId
                    (lookup_employee w h (default EmptyString salesRepId)))))
  ∧ (∀ salesRepId,
       outcome_of (Modular.getSenderId w salesRepId) () h
       = Normal (modular_author
                   (spec_sender (Some salesRepId)
                      (loaded_email (record_load w h EMPLOYEE salesRepId)))))
  ∧ (∀ fields options,
       lookup_customer w h customerId = inr fields →
       EmailSend options ∈ history_after (Primary.process_customer w groups customerId) () h →
       EmailSend options ∈ h
       ∨ author options
         = primary_author
             (spec_sender (Primary.first_value (salesrep fields))
                (lookup_employee w (h ++ [LookupFields CUSTOMER customerId])
                   (default EmptyString (Primary.first_value (salesrep fields))))))
  ∧ (∀ customerRecord options,
       record_load w h CUSTOMER customerId = inr customerRecord →
       EmailSend options ∈ history_after (Modular.notify_customer w groups customerId) () h →
       EmailSend options ∈ h
       ∨ author options
         = modular_author
             (spec_sender (Some (getValue customerRecord "salesrep"))
                (loaded_email
                   (record_load w (h ++ [RecordLoad CUSTOMER customerId]) EMPLOYEE
                      (getValue customerRecord "salesrep")))))
  ∧ (∀ v customerRecord options,
       record_load w h CUSTOMER customerId = inr customerRecord →
       EmailSend options ∈ history_after (Inline.notify_customer w groups customerId) v h →
       EmailSend options ∈ h
       ∨ author options = inline_author w (getValue customerRecord "salesrep"))
  ∧ (∀ n : N, primary_author (SalesRep (pretty n)) = Js.VNumber (Js.Num (Z.of_N n))).
Proof.
  split; [|split; [|split; [|split; [|split]]]]; [| | | | |intros n; simpl; f_equal;
                                                        apply parseInt_pretty].
  - intros salesRepId customerName.
    by destruct (primary_getSenderId_spec salesRepId customerName h) as [? _].
  - intros salesRepId. by destruct (modular_getSenderId_spec salesRepId h) as [? _].
  - intros fields options Hlookup Hin.
    pose proof (primary_process_customer_author groups customerId h fields Hlookup) as Hwp.
    destruct (extends_elem _ _ _ _ Hwp Hin); [by left | by right].
  - intros customerRecord options Hload Hin.
    pose proof (modular_notify_customer_author groups customerId h customerRecord Hload) as Hwp.
    destruct (extends_elem _ _ _ _ Hwp Hin); [by left | by right].
  - intros v customerRecord options Hload Hin.
    pose proof (inline_notify_customer_author groups customerId v h customerRecord Hload)
      as Hwp.
    destruct (extends_elem _ _ _ _ Hwp Hin); [by left | by right].
Qed.

End Sender.

Section Sender_examples.
Import Host Run Api Logic Spec.

Lemma sender_of_each_email_witness :
  author Sample.modular_email
  = modular_author (spec_sender (Some "42") (inr "rep@seller.test")).
Proof.
  destruct (sender_of_each_email (Sample.world []) (Sample.groups_of "1") "1" [])
    as (_ & _ & _ & Hmodular & _ & _).
  destruct (Hmodular (Sample.record "ACME" EmptyString "ap@acme.test" "42")
              Sample.modular_email eq_refl) as [Hnil|Hauthor].
  - vm_compute. do 3 right. left.
  - by apply elem_of_nil in Hnil.
  - exact Hauthor.
Defined.

(** C2, as stated, fails on [part_000].  Customer 3 has no sales rep: the
    author is the current user 7, not -5.  Customer 4 has the sales rep 43,
    whose employee record has no email: the author is 43, not -5. *)
Lemma inline_sender_is_not_the_administrator :
  loaded_field "salesrep" (record_load (Sample.world []) [] CUSTOMER "3") = inr EmptyString
  ∧ authors (history_after
               (Inline.notify_customer (Sample.world []) (Sample.groups_of "3") "3")
               Inline.initial [])
    = [Js.VNumber (Js.Num 7)]
  ∧ loaded_field "salesrep" (record_load (Sample.world []) [] CUSTOMER "4") = inr "43"
  ∧ loaded_field "email" (record_load (Sample.world []) [] EMPLOYEE "43") = inr EmptyString
  ∧ authors (history_after
               (Inline.notify_customer (Sample.world []) (Sample.groups_of "4") "4")
               Inline.initial [])
    = [Js.VString "43"]
  ∧ admin = Js.VNumber (Js.Num (-5)).
Proof. repeat split; vm_compute; reflexivity. Qed.

End Sender_examples.

(** ** C7: the rows of the CSV *)

Section Csv_rows.
Import Host Run Api Logic Spec.





End Csv_rows.

(** ** When the search fails *)

Section Search_failure.
Import Host Run Api Logic Spec.

(** X1.  When the search of the primary script fails, [execute] ends with
    that same exception, after two error entries: "Search Error", written
    by [searchOverdueInvoices] before it throws the error again, and
    "Script Execution Error", written by [execute] before it does the
    same.  No customer is looked up and nothing is sent. *)
Theorem primary_search_failure_is_fatal (w : World) (h : History) (e : Exn) :
  search_run w Primary.search_options = inl e →
  Primary.execute w () h
  = (Thrown e, (),
     h ++ [ Log AUDIT "Script Started" (Some "Monthly Overdue Invoice Email Notification");
            SearchRun Primary.search_options;
            Log ERROR "Search Error"
              (Some ("Error searching overdue invoices: " +:+ message e));
            Log ERROR "Script Execution Error"
              (Some ("Fatal error in execute function: " +:+ message e)) ]).
Proof.
  intros Hsearch.
  unfold Primary.execute, Primary.searchOverdueInvoices, Primary.searchOverdueInvoices_body,
    search_create_run, log, try_catch, bind, call, host, throw.
  rewrite Hsearch. simpl. rewrite <- ?app_assoc. reflexivity.
Qed.

Lemma primary_search_failure_is_fatal_witness :
  Primary.execute Sample.offline () []
  = (Thrown Sample.unavailable, (),
     [ Log AUDIT "Script Started" (Some "Monthly Overdue Invoice Email Notification");
       SearchRun Primary.search_options;
       Log ERROR "Search Error"
         (Some "Error searching overdue invoices: The search could not be run.");
       Log ERROR "Script Execution Error"
         (Some "Fatal error in execute function: The search could not be run.") ]).
Proof.
  apply (primary_search_failure_is_fatal Sample.offline [] Sample.unavailable).
  reflexivity.
Defined.

(** X2.  The second script and [part_000] have no handler around the
    search: when it fails, [execute] ends with that exception at once, and
    the failure is not written to the log by the script. *)
Theorem search_failure_is_not_logged (w : World) (h : History) (e : Exn) :
  (search_run w Modular.search_options = inl e →
   Modular.execute w () h = (Thrown e, (), h ++ [SearchRun Modular.search_options]))
  ∧ (search_run w Inline.search_options = inl e →
     Inline.execute w () h
     = (Thrown e, (),
        h ++ [Log AUDIT "Script Started" None; SearchRun Inline.search_options])).
Proof.
  split; intros Hsearch.
  - unfold Modular.execute, Modular.getOverdueInvoices, search_create_run, bind, call, host.
    by rewrite Hsearch.
  - unfold Inline.execute, Inline.group_invoices, search_create_run, log_title, bind, call, host.
    rewrite Hsearch. simpl. rewrite <- ?app_assoc. reflexivity.
Qed.

Lemma search_failure_is_not_logged_witness :
  Modular.execute Sample.offline () []
  = (Thrown Sample.unavailable, (), [SearchRun Modular.search_options])
  ∧ Inline.execute Sample.offline () []
    = (Thrown Sample.unavailable, (),
       [Log AUDIT "Script Started" None; SearchRun Inline.search_options]).
Proof.
  destruct (search_failure_is_not_logged Sample.offline [] Sample.unavailable) as [Hm Hi].
  split; [apply Hm | apply Hi]; reflexivity.
Defined.

(** X3.  The primary script ends with an exception only when the search
    fails, and then with the exception of the search: every other failure
    (a row that cannot be processed, a customer that cannot be looked up, a
    file or an email that the host refuses) is caught on the way.  When the
    search succeeds the last entry of the history is the audit entry
    "No Invoices Found" or "Script End". *)
Theorem primary_execute_throws_only_a_search_error (w : World) (h : History) :
  match search_run w Primary.search_options with
  | inl e =>
      outcome_of (Primary.execute w) () h = Thrown e
  | inr _ =>
      outcome_of (Primary.execute w) () h = Normal ()
      ∧ (last (history_after (Primary.execute w) () h)
         = Some (Log AUDIT "No Invoices Found"
                   (Some "No overdue invoices were found for the previous month."))
         ∨ last (history_after (Primary.execute w) () h)
           = Some (Log AUDIT "Script End"
                     (Some "Overdue Invoice Email Notification script completed successfully.")))
  end.
Proof.
  change (wp (Primary.execute w)
            (λ o _ h',
               match search_run w Primary.search_options with
               | inl e => o = Thrown e
               | inr _ =>
                   o = Normal ()
                   ∧ (last h'
                      = Some (Log AUDIT "No Invoices Found"
                                (Some "No overdue invoices were found for the previous month."))
                      ∨ last h'
                        = Some (Log AUDIT "Script End"
                                  (Some "Overdue Invoice Email Notification script completed successfully.")))
               end) () h).
  unfold Primary.execute, Primary.searchOverdueInvoices. wp_steps.
  eapply wp_mono; [|apply primary_search_body].
  intros [groups|e] v h1 Hpost.
  - destruct Hpost as (rows & -> & _ & _). wp_steps.
    + split; [done|]. left. apply last_snoc.
    + eapply wp_mono; [|apply primary_processCustomerNotifications_spec].
      intros o [] h2 [-> _]. wp_steps. split; [done|]. right. apply last_snoc.
  - destruct Hpost as (-> & _ & _). wp_steps. done.
Qed.

End Search_failure.

(** ** The host calls of each script *)

Section Only_calls.
Import Host Run Api Logic Spec.
Context {S : Type} (P : Event → Prop).

Lemma calls_ret {A} (a : A) : only_calls P (ret a : M S A).
Proof. intros s h. apply extends_refl. Qed.

Lemma calls_throw {A} e : only_calls P (throw e : M S A).
Proof. intros s h. apply extends_refl. Qed.

Lemma calls_gets {A} (f : S → A) : only_calls P (gets f).
Proof. intros s h. apply extends_refl. Qed.

Lemma calls_modify (f : S → S) : only_calls P (modify f).
Proof. intros s h. apply extends_refl. Qed.

Lemma calls_bind {A B} (m : M S A) (k : A → M S B) :
  only_calls P m → (∀ a, only_calls P (k a)) → only_calls P (bind m k).
Proof.
  intros Hm Hk s h. specialize (Hm s h). unfold bind.
  destruct (m s h) as [[[a|e] s'] h']; simpl in *; [|done].
  eapply extends_trans; [done | apply Hk].
Qed.

Lemma calls_try_catch {A} (m : M S A) handler :
  only_calls P m → (∀ e, only_calls P (handler e)) → only_calls P (try_catch m handler).
Proof.
  intros Hm Hk s h. specialize (Hm s h). unfold try_catch.
  destruct (m s h) as [[[a|e] s'] h']; simpl in *; [done|].
  eapply extends_trans; [done | apply Hk].
Qed.

Lemma calls_call {S' A} (s0 : S') (m : M S' A) :
  only_calls P m → only_calls P (call s0 m : M S A).
Proof.
  intros Hm s h. specialize (Hm s0 h). unfold call.
  by destruct (m s0 h) as [[r s'] h'].
Qed.

Lemma calls_host {A} ev (answer : History → Exn + A) :
  P ev → only_calls P (host ev answer : M S A).
Proof.
  intros Hev s h. unfold host.
  destruct (answer h); simpl; (apply extends_snoc; [apply extends_refl | done]).
Qed.

Lemma calls_file_save w f :
  (∀ id, P (FileSave f id)) → only_calls P (file_save_ w f : M S Z).
Proof.
  intros Hev s h. unfold file_save_.
  destruct (file_save w h f); simpl; (apply extends_snoc; [apply extends_refl | done]).
Qed.

Lemma calls_for_each {A} (xs : list A) (body : A → M S unit) :
  (∀ x, only_calls P (body x)) → only_calls P (for_each xs body).
Proof.
  intros Hbody. induction xs as [|x xs IH]; simpl; [apply calls_ret|].
  apply calls_bind; [apply Hbody | done].
Qed.

Lemma calls_each (rs : list Values) (cb : Values → M S bool) :
  (∀ r, only_calls P (cb r)) → only_calls P (each rs cb).
Proof.
  intros Hcb. induction rs as [|r rs IH]; simpl; [apply calls_ret|].
  apply calls_bind; [apply Hcb|]. intros []; [done | apply calls_ret].
Qed.

End Only_calls.

Create HintDb scripts.
#[local] Hint Unfold
  Primary.execute Primary.searchOverdueInvoices Primary.searchOverdueInvoices_body
  Primary.each_callback Primary.push Primary.log_customer_invoices
  Primary.processCustomerNotifications Primary.process_customer Primary.sendCustomerEmail
  Primary.getSenderId Primary.createCSVFile
  Modular.execute Modular.getOverdueInvoices Modular.each_callback Modular.push
  Modular.notifyCustomers Modular.notify_customer Modular.notify_customer_try
  Modular.getSenderId Modular.generateCsvFile
  Inline.execute Inline.group_invoices Inline.each_callback Inline.push
  Inline.notify_customers Inline.notify_customer Inline.notify_customer_try : scripts.

(** One step of the proof that a script only makes the calls [P]. *)
Ltac calls_step :=
  lazymatch goal with
  | |- Spec.only_calls _ (Run.bind _ _) => apply calls_bind; [|intros ?]
  | |- Spec.only_calls _ (Run.try_catch _ _) => apply calls_try_catch; [|intros ?]
  | |- Spec.only_calls _ (Run.ret _) => apply calls_ret
  | |- Spec.only_calls _ (Run.throw _) => apply calls_throw
  | |- Spec.only_calls _ (Run.gets _) => apply calls_gets
  | |- Spec.only_calls _ (Run.modify _) => apply calls_modify
  | |- Spec.only_calls _ (Run.call _ _) => apply calls_call
  | |- Spec.only_calls _ (Api.for_each _ _) => apply calls_for_each; intros ?
  | |- Spec.only_calls _ (Api.each _ _) => apply calls_each; intros ?
  | |- Spec.only_calls _ (Api.file_save_ _ _) => apply calls_file_save; intros ?; hnf; done
  | |- Spec.only_calls _ (if ?b then _ else _) => destruct b
  | |- Spec.only_calls _ (match ?x with _ => _ end) => destruct x
  | |- Spec.only_calls _ _ =>
      first
        [ progress autounfold with scripts
        | progress unfold Api.log, Api.log_title, Api.search_create_run, Api.Date_now,
            Api.search_lookupFields_customer, Api.search_lookupFields_employee,
            Api.record_load_, Api.file_create_, Api.file_load_, Api.email_send_,
            Api.runtime_getCurrentUser_id, Run.host_
        | apply calls_host; hnf; done ]
  end; cbn beta iota zeta.

Section Host_calls.
Import Host Run Api Logic Spec.


End Host_calls.

(** ** The groups of the second script and of [part_000] *)

Section Partition.
Import Host Run Api Logic Spec.
Context (w : World).

Lemma with_customer_snoc pre r :
  with_customer (pre ++ [r])
  = with_customer pre ++ (if Js.truthy (getValue r "entity") then [r] else []).
Proof.
  unfold with_customer. rewrite filter_app. f_equal.
  rewrite filter_cons, filter_nil. case_decide as Hr.
  - by rewrite Hr.
  - by destruct (Js.truthy (getValue r "entity")).
Qed.

Lemma partitions_nil : partitions [] [].
Proof.
  split; intros c; simpl; [|done].
  split; [by intros [? ?] | by intros (r & ?%elem_of_nil & _)].
Qed.

Lemma partitions_skip pre r groups :
  Js.truthy (getValue r "entity") = false →
  partitions pre groups → partitions (pre ++ [r]) groups.
Proof.
  intros Hr Hp. unfold partitions. rewrite with_customer_snoc, Hr, app_nil_r. exact Hp.
Qed.

Lemma partitions_push pre r groups inv :
  Js.truthy (getValue r "entity") = true →
  invoiceNumber inv = getValue r "tranid" → amount inv = getValue r "amount" →
  partitions pre groups →
  partitions (pre ++ [r])
    (JsObject.set groups (getValue r "entity") (group_of groups (getValue r "entity") ++ [inv])).
Proof.
  intros Hr Hnumber Hamount [Hkeys Hrows]. unfold partitions.
  rewrite with_customer_snoc, Hr. split; intros c.
  - rewrite get_own_set. setoid_rewrite elem_of_app. setoid_rewrite list_elem_of_singleton.
    case_decide as Hc.
    + split; [|by eauto]. intros _. exists r. auto.
    + rewrite Hkeys. split.
      * intros (r' & Hr' & Hc'). eauto.
      * intros (r' & [Hr'| ->] & Hc'); [eauto | done].
  - rewrite group_of_set, filter_app, fmap_app, filter_cons, filter_nil.
    case_decide as Hc.
    + subst c. rewrite fmap_app, Hrows. simpl. by rewrite Hnumber, Hamount.
    + simpl. by rewrite app_nil_r.
Qed.

(** The callbacks never return false. *)
Lemma each_app_true {S} (xs ys : list Values) (cb : Values → M S bool) s h :
  (∀ r s h, (cb r s h).1.1 ≠ Normal false) →
  each (xs ++ ys) cb s h = bind (each xs cb) (λ _, each ys cb) s h.
Proof.
  intros Hcb. revert s h. induction xs as [|x xs IH]; intros s h; simpl; [done|].
  unfold bind in *. specialize (Hcb x s h).
  destruct (cb x s h) as [[[[]|e] s'] h']; simpl in *; [apply IH | done | done].
Qed.

(** The grouping loop of the second script, on rows whose customer
    identifiers are no member names of [Object.prototype]. *)
Lemma modular_each_partitions rows h0 :
  (∀ r, r ∈ rows → JsObject.inherited (getValue r "entity") = false) →
  wp (each rows (Modular.each_callback w))
    (λ o groups h,
       o = Normal () ∧ partitions rows groups
       ∧ h = h0 ++ replicate (length (with_customer rows)) DateNow)
    [] h0.
Proof.
  intros Hrows.
  apply (wp_each_prefix rows _
           (λ pre groups h,
              partitions pre groups
              ∧ h = h0 ++ replicate (length (with_customer pre)) DateNow)).
  2: { split; [apply partitions_nil | by rewrite app_nil_r]. }
  intros pre r post groups h Hsplit [Hp ->]. unfold wp.
  rewrite modular_callback_step. unfold modular_step.
  rewrite with_customer_snoc.
  destruct (Js.truthy (getValue r "entity")) eqn:Hr; simpl.
  2: { rewrite app_nil_r. split; [done|]. split; [by apply partitions_skip | done]. }
  assert (Hinh : JsObject.inherited (getValue r "entity") = false).
  { apply Hrows. rewrite Hsplit. apply elem_of_app. right. left. }
  rewrite length_app. simpl. rewrite Nat.add_1_r, replicate_S_end, app_assoc.
  destruct (JsObject.get groups (getValue r "entity")) as [l| |] eqn:Hslot; simpl.
  - split; [done|]. split; [by apply partitions_push | done].
  - apply get_Inherited in Hslot as [_ Hslot]. congruence.
  - split; [done|]. split; [by apply partitions_push | done].
Qed.

Lemma inline_each_partitions rows h0 :
  (∀ r, r ∈ rows → JsObject.inherited (getValue r "entity") = false) →
  wp (each rows (Inline.each_callback w))
    (λ o v h,
       o = Normal () ∧ partitions rows (Inline.customerInvoices v)
       ∧ Inline.invoiceCount v = Z.of_nat (length (with_customer rows))
       ∧ extends grouping_call h0 h)
    Inline.initial h0.
Proof.
  intros Hrows.
  apply (wp_each_prefix rows _
           (λ pre v h,
              partitions pre (Inline.customerInvoices v)
              ∧ Inline.invoiceCount v = Z.of_nat (length (with_customer pre))
              ∧ extends grouping_call h0 h)).
  2: { split; [apply partitions_nil | split; [done | apply extends_refl]]. }
  intros pre r post v h Hsplit (Hp & Hcount & Hh). unfold wp.
  rewrite inline_callback_step. unfold inline_step.
  rewrite with_customer_snoc.
  destruct (Js.truthy (getValue r "entity")) eqn:Hr; simpl.
  2: { rewrite app_nil_r. split; [done|].
       split; [by apply partitions_skip | split; [done | extends_tac]]. }
  assert (Hinh : JsObject.inherited (getValue r "entity") = false).
  { apply Hrows. rewrite Hsplit. apply elem_of_app. right. left. }
  rewrite length_app. simpl.
  destruct (JsObject.get (Inline.customerInvoices v) (getValue r "entity")) as [l| |] eqn:Hslot;
    simpl.
  - split; [done|]. split; [by apply partitions_push|]. split; [lia | extends_tac].
  - apply get_Inherited in Hslot as [_ Hslot]. congruence.
  - split; [done|]. split; [by apply partitions_push|]. split; [lia | extends_tac].
Qed.

Lemma partitions_keys rows (groups : Groups) customerId :
  partitions rows groups →
  customerId ∈ JsObject.keys groups
  ↔ ∃ r, r ∈ rows ∧ Js.truthy (getValue r "entity") = true
         ∧ getValue r "entity" = customerId.
Proof.
  intros [Hkeys _]. rewrite elem_of_keys, Hkeys. unfold with_customer.
  setoid_rewrite list_elem_of_filter. split.
  - intros (r & [Hr Hin] & Hc). eauto.
  - intros (r & Hin & Hr & Hc). eauto.
Qed.

Lemma inherited_truthy customerId :
  JsObject.inherited customerId = true → Js.truthy customerId = true.
Proof. by destruct customerId. Qed.

Lemma grouping_call_quiet h0 h :
  extends grouping_call h0 h → customer_loads h = customer_loads h0 ∧ emails h = emails h0.
Proof.
  intros (evs & -> & Hevs). unfold customer_loads, emails. rewrite !omap_app.
  induction Hevs as [|ev evs Hev _ IH]; simpl; [by rewrite !app_nil_r|].
  destruct ev; try done.
Qed.

(** [getOverdueInvoices] on such rows. *)
Lemma modular_getOverdueInvoices_partitions rows h0 :
  search_run w Modular.search_options = inr rows →
  (∀ r, r ∈ rows → JsObject.inherited (getValue r "entity") = false) →
  ∃ groups,
    Modular.getOverdueInvoices w () h0
    = (Normal groups, (),
       h0 ++ SearchRun Modular.search_options
          :: replicate (length (with_customer rows)) DateNow)
    ∧ partitions rows groups.
Proof.
  intros Hsearch Hrows.
  pose proof (modular_each_partitions rows (h0 ++ [SearchRun Modular.search_options]) Hrows)
    as Hwp.
  unfold wp in Hwp.
  unfold Modular.getOverdueInvoices, search_create_run, call, bind, host, gets.
  rewrite Hsearch.
  destruct (each rows (Modular.each_callback w) [] (h0 ++ [SearchRun Modular.search_options]))
    as [[o groups] h]. simpl in Hwp. destruct Hwp as (-> & Hp & ->).
  exists groups. split; [by rewrite <- app_assoc | done].
Qed.

(** The grouping stage of [part_000] on such rows. *)
Lemma inline_group_invoices_partitions rows h0 :
  search_run w Inline.search_options = inr rows →
  (∀ r, r ∈ rows → JsObject.inherited (getValue r "entity") = false) →
  wp (Inline.group_invoices w)
    (λ o v h,
       o = Normal () ∧ partitions rows (Inline.customerInvoices v)
       ∧ Inline.invoiceCount v = Z.of_nat (length (with_customer rows))
       ∧ extends grouping_call h0 h)
    Inline.initial h0.
Proof.
  intros Hsearch Hrows.
  pose proof (inline_each_partitions rows (h0 ++ [SearchRun Inline.search_options]) Hrows)
    as Hwp.
  unfold wp in *.
  unfold Inline.group_invoices, search_create_run, bind, host.
  rewrite Hsearch.
  destruct (each rows (Inline.each_callback w) Inline.initial
              (h0 ++ [SearchRun Inline.search_options])) as [[o v] h].
  simpl in *. destruct Hwp as (-> & Hp & Hcount & Hh).
  split; [done|]. split; [done|]. split; [done|].
  eapply extends_trans; [|done]. extends_tac.
Qed.

(** A row whose customer identifier is a member name of
    [Object.prototype], after rows of other customers. *)
Lemma partitions_inherited pre (groups : Groups) customerId :
  (∀ r, r ∈ pre → JsObject.inherited (getValue r "entity") = false) →
  JsObject.inherited customerId = true →
  partitions pre groups →
  JsObject.get groups customerId = JsObject.Inherited.
Proof.
  intros Hpre Hinh [Hkeys _]. apply get_Inherited. split; [|done].
  destruct (JsObject.get_own groups customerId) as [l|] eqn:Hl; [|done].
  destruct (proj1 (Hkeys customerId)) as (r & Hr & Hc); [by eauto|].
  apply list_elem_of_filter in Hr as [_ Hr]. specialize (Hpre r Hr). congruence.
Qed.

End Partition.

Section Partition_results.
Import Host Run Api Logic Spec.

(** X5.  The second script groups the rows by customer: when the search
    delivers [rows], none of them with a customer identifier that is a
    member name of [Object.prototype], [getOverdueInvoices] returns groups
    whose keys are the customer identifiers of the rows that have one, and
    the list of each customer holds the invoice number and the amount of
    each of the customer's rows, repeated rows included, in the order of
    the search.  The rows without a customer identifier are left out.  The
    only host calls are the search and one reading of the clock per row
    with a customer. *)
Theorem modular_groups_partition_the_rows (w : World) (h0 : History) (rows : list Values) :
  search_run w Modular.search_options = inr rows →
  (∀ r, r ∈ rows → JsObject.inherited (getValue r "entity") = false) →
  ∃ groups,
    Modular.getOverdueInvoices w () h0
    = (Normal groups, (),
       h0 ++ SearchRun Modular.search_options
          :: replicate (length (with_customer rows)) DateNow)
    ∧ (∀ customerId,
         customerId ∈ JsObject.keys groups
         ↔ ∃ r, r ∈ rows ∧ Js.truthy (getValue r "entity") = true
                ∧ getValue r "entity" = customerId)
    ∧ (∀ customerId,
         (λ inv, (invoiceNumber inv, amount inv)) <$> group_of groups customerId
         = (λ r, (getValue r "tranid", getValue r "amount"))
             <$> filter (λ r, getValue r "entity" = customerId) (with_customer rows)).
Proof.
  intros Hsearch Hrows.
  destruct (modular_getOverdueInvoices_partitions w rows h0 Hsearch Hrows)
    as (groups & Hrun & Hp).
  exists groups. split; [done|].
  split; [intros c; by apply partitions_keys | apply Hp].
Qed.

Lemma modular_groups_partition_the_rows_witness :
  ∃ groups,
    Modular.getOverdueInvoices (Sample.world Sample.mixed_rows) () []
    = (Normal groups, (), [SearchRun Modular.search_options; DateNow; DateNow; DateNow])
    ∧ (∀ customerId,
         customerId ∈ JsObject.keys groups
         ↔ ∃ r, r ∈ Sample.mixed_rows ∧ Js.truthy (getValue r "entity") = true
                ∧ getValue r "entity" = customerId)
    ∧ (∀ customerId,
         (λ inv, (invoiceNumber inv, amount inv)) <$> group_of groups customerId
         = (λ r, (getValue r "tranid", getValue r "amount"))
             <$> filter (λ r, getValue r "entity" = customerId)
                   (with_customer Sample.mixed_rows)).
Proof.
  apply (modular_groups_partition_the_rows (Sample.world Sample.mixed_rows) []
           Sample.mixed_rows).
  - reflexivity.
  - intros r Hr. unfold Sample.mixed_rows in Hr.
    repeat (apply elem_of_cons in Hr as [->|Hr]; [reflexivity|]).
    by apply elem_of_nil in Hr.
Defined.

(** X6.  [part_000] groups the rows in the same way, and counts them: under
    the same condition the grouping ends normally, [invoiceCount] is the
    number of rows that have a customer identifier (repeated rows
    included), the keys of [customerInvoices] are the customer identifiers
    of these rows, and the list of each customer holds the invoice number
    and the amount of each of the customer's rows in the order of the
    search. *)
Theorem inline_groups_partition_the_rows (w : World) (h0 : History) (rows : list Values) :
  search_run w Inline.search_options = inr rows →
  (∀ r, r ∈ rows → JsObject.inherited (getValue r "entity") = false) →
  ∃ v h,
    Inline.group_invoices w Inline.initial h0 = (Normal (), v, h)
    ∧ Inline.invoiceCount v = Z.of_nat (length (with_customer rows))
    ∧ (∀ customerId,
         customerId ∈ JsObject.keys (Inline.customerInvoices v)
         ↔ ∃ r, r ∈ rows ∧ Js.truthy (getValue r "entity") = true
                ∧ getValue r "entity" = customerId)
    ∧ (∀ customerId,
         (λ inv, (invoiceNumber inv, amount inv))
           <$> group_of (Inline.customerInvoices v) customerId
         = (λ r, (getValue r "tranid", getValue r "amount"))
             <$> filter (λ r, getValue r "entity" = customerId) (with_customer rows)).
Proof.
  intros Hsearch Hrows.
  pose proof (inline_group_invoices_partitions w rows h0 Hsearch Hrows) as Hwp.
  unfold wp in Hwp.
  destruct (Inline.group_invoices w Inline.initial h0) as [[o v] h].
  simpl in Hwp. destruct Hwp as (-> & Hp & Hcount & _).
  exists v, h. split; [done|]. split; [done|].
  split; [intros c; by apply partitions_keys | apply Hp].
Qed.

Lemma inline_groups_partition_the_rows_witness :
  ∃ v h,
    Inline.group_invoices (Sample.world Sample.mixed_rows) Inline.initial [] = (Normal (), v, h)
    ∧ Inline.invoiceCount v = Z.of_nat (length (with_customer Sample.mixed_rows))
    ∧ (∀ customerId,
         customerId ∈ JsObject.keys (Inline.customerInvoices v)
         ↔ ∃ r, r ∈ Sample.mixed_rows ∧ Js.truthy (getValue r "entity") = true
                ∧ getValue r "entity" = customerId)
    ∧ (∀ customerId,
         (λ inv, (invoiceNumber inv, amount inv))
           <$> group_of (Inline.customerInvoices v) customerId
         = (λ r, (getValue r "tranid", getValue r "amount"))
             <$> filter (λ r, getValue r "entity" = customerId)
                   (with_customer Sample.mixed_rows)).
Proof.
  apply (inline_groups_partition_the_rows (Sample.world Sample.mixed_rows) []
           Sample.mixed_rows).
  - reflexivity.
  - intros r Hr. unfold Sample.mixed_rows in Hr.
    repeat (apply elem_of_cons in Hr as [->|Hr]; [reflexivity|]).
    by apply elem_of_nil in Hr.
Defined.

(** X7.  When the search succeeds and no row has a customer identifier
    that is a member name of [Object.prototype], the second script and
    [part_000] end without an exception, whatever the host answers to the
    calls made for the customers. *)
Theorem execute_ends_normally (w : World) (h : History) (rows : list Values) :
  (∀ r, r ∈ rows → JsObject.inherited (getValue r "entity") = false) →
  (search_run w Modular.search_options = inr rows →
   outcome_of (Modular.execute w) () h = Normal ())
  ∧ (search_run w Inline.search_options = inr rows →
     outcome_of (Inline.execute w) () h = Normal ()).
Proof.
  intros Hrows. split; intros Hsearch.
  - destruct (modular_getOverdueInvoices_partitions w rows h Hsearch Hrows)
      as (groups & Hrun & _).
    unfold outcome_of, Modular.execute, bind. rewrite Hrun.
    destruct (length (JsObject.keys groups) =? 0)%nat; [done|].
    by destruct (modular_notifyCustomers_spec w groups
                   (h ++ SearchRun Modular.search_options
                      :: replicate (length (with_customer rows)) DateNow)) as [? _].
  - change (wp (Inline.execute w) (λ o _ _, o = Normal ()) () h).
    unfold Inline.execute. wp_steps.
    eapply wp_mono; [|by apply (inline_group_invoices_partitions w rows)].
    intros o v h1 (-> & _). wp_steps; [done|].
    eapply wp_mono; [|apply inline_notify_customers_spec].
    intros o v' h2 (-> & _). by wp_steps.
Qed.

Lemma execute_ends_normally_witness :
  outcome_of (Modular.execute (Sample.world Sample.mixed_rows)) () [] = Normal ()
  ∧ outcome_of (Inline.execute (Sample.world Sample.mixed_rows)) () [] = Normal ().
Proof.
  destruct (execute_ends_normally (Sample.world Sample.mixed_rows) [] Sample.mixed_rows)
    as [Hm Hi].
  - intros r Hr. unfold Sample.mixed_rows in Hr.
    repeat (apply elem_of_cons in Hr as [->|Hr]; [reflexivity|]).
    by apply elem_of_nil in Hr.
  - split; [apply Hm | apply Hi]; reflexivity.
Defined.

(** X8.  A customer identifier that is a member name of
    [Object.prototype] (constructor, toString, ...) ends the second script
    and [part_000] with a TypeError in the grouping stage: the read
    [customerInvoices[customerId]] finds the inherited member, so no list
    is created and [push] is not a function.  The rows after it are not
    visited, no customer record is read and no email is sent. *)
Theorem prototype_named_customer_aborts_the_run (w : World) (h0 : History)
    (pre : list Values) (r : Values) (post : list Values) :
  (∀ r', r' ∈ pre → JsObject.inherited (getValue r' "entity") = false) →
  JsObject.inherited (getValue r "entity") = true →
  (search_run w Modular.search_options = inr (pre ++ r :: post) →
   Modular.execute w () h0
   = (Thrown (type_error w), (),
      h0 ++ SearchRun Modular.search_options
         :: replicate (Datatypes.S (length (with_customer pre))) DateNow))
  ∧ (search_run w Inline.search_options = inr (pre ++ r :: post) →
     outcome_of (Inline.execute w) () h0 = Thrown (type_error w)
     ∧ customer_loads (history_after (Inline.execute w) () h0) = customer_loads h0
     ∧ emails (history_after (Inline.execute w) () h0) = emails h0).
Proof.
  intros Hpre Hinh. pose proof (inherited_truthy _ Hinh) as Hr.
  split; intros Hsearch.
  - pose proof (modular_each_partitions w pre (h0 ++ [SearchRun Modular.search_options]) Hpre)
      as Hwp.
    unfold wp in Hwp.
    unfold Modular.execute, Modular.getOverdueInvoices, search_create_run, call, host.
    unfold bind at 1 2 3. rewrite Hsearch.
    rewrite each_app_true.
    2: { intros r' s' h'. rewrite modular_callback_step. unfold modular_step.
         destruct (Js.truthy (getValue r' "entity")); simpl; [|done].
         by destruct (JsObject.get _ (getValue r' "entity")). }
    unfold bind at 1.
    destruct (each pre (Modular.each_callback w) [] (h0 ++ [SearchRun Modular.search_options]))
      as [[o groups] h]. simpl in Hwp. destruct Hwp as (-> & Hp & ->).
    cbn [each]. unfold bind at 1. rewrite modular_callback_step. unfold modular_step.
    rewrite Hr. simpl. rewrite (partitions_inherited pre groups _ Hpre Hinh Hp).
    rewrite replicate_cons_app, <- !app_assoc. reflexivity.
  - change (wp (Inline.execute w)
              (λ o _ h, o = Thrown (type_error w)
                        ∧ customer_loads h = customer_loads h0 ∧ emails h = emails h0) () h0).
    unfold Inline.execute. wp_steps. unfold Inline.group_invoices, search_create_run.
    wp_step. apply wp_host; [|congruence]. intros rows Hrows. cbn beta iota.
    assert (rows = pre ++ r :: post) as -> by congruence.
    pose proof (inline_each_partitions w pre
                  ((h0 ++ [Log AUDIT "Script Started" None])
                   ++ [SearchRun Inline.search_options]) Hpre) as Hwp.
    unfold wp in Hwp.
    destruct (each pre (Inline.each_callback w) Inline.initial
                ((h0 ++ [Log AUDIT "Script Started" None])
                 ++ [SearchRun Inline.search_options])) as [[o v] h] eqn:Hpre_run.
    simpl in Hwp. destruct Hwp as (-> & Hp & _ & Hh).
    assert (Hrun : ∃ v1 h1,
              each (pre ++ r :: post) (Inline.each_callback w) Inline.initial
                ((h0 ++ [Log AUDIT "Script Started" None])
                 ++ [SearchRun Inline.search_options])
              = (Thrown (type_error w), v1, h1)
              ∧ extends grouping_call h h1).
    { rewrite each_app_true.
      2: { intros r' s' h'. rewrite inline_callback_step. unfold inline_step.
           destruct (Js.truthy (getValue r' "entity")); simpl; [|done].
           by destruct (JsObject.get _ (getValue r' "entity")). }
      unfold bind at 1. rewrite Hpre_run. cbn [each]. unfold bind.
      rewrite inline_callback_step. unfold inline_step. rewrite Hr. simpl.
      rewrite (partitions_inherited pre _ _ Hpre Hinh Hp).
      do 2 eexists. split; [done | extends_tac]. }
    destruct Hrun as (v1 & h1 & Hrun & Hh1).
    unfold wp. rewrite Hrun. simpl.
    split; [done|]. apply grouping_call_quiet.
    eapply extends_trans; [|eapply extends_trans; [apply Hh | apply Hh1]]. extends_tac.
Qed.

Lemma prototype_named_customer_aborts_the_run_witness :
  Modular.execute (Sample.world Sample.hostile_rows) () []
  = (Thrown {| message := "push is not a function" |}, (),
     [SearchRun Modular.search_options; DateNow; DateNow])
  ∧ outcome_of (Inline.execute (Sample.world Sample.hostile_rows)) () []
    = Thrown {| message := "push is not a function" |}
  ∧ customer_loads (history_after (Inline.execute (Sample.world Sample.hostile_rows)) () []) = []
  ∧ emails (history_after (Inline.execute (Sample.world Sample.hostile_rows)) () []) = [].
Proof.
  destruct (prototype_named_customer_aborts_the_run (Sample.world Sample.hostile_rows) []
              [Sample.row "1" "INV1" "100" "1/1/2024"]
              (Sample.row "constructor" "INV9" "900" "1/1/2024")
              [Sample.row "1" "INV2" "200" "1/1/2024"]) as [Hm Hi].
  - intros r Hr. apply list_elem_of_singleton in Hr as ->. reflexivity.
  - reflexivity.
  - split; [apply Hm | apply Hi]; reflexivity.
Defined.

End Partition_results.

(** ** Rows that the grouping of the primary script ignores *)

Section Ignored_rows.
Import Host Run Api Logic Spec.
Context (w : World).

Lemma primary_each_with_customer rows v h :
  each rows (Primary.each_callback w) v h
  = each (with_customer rows) (Primary.each_callback w) v h.
Proof.
  revert v h. induction rows as [|r rows IH]; intros v h; [done|].
  unfold with_customer. rewrite filter_cons. fold (with_customer rows).
  case_decide as Hr; cbn [each]; unfold bind.
  - destruct (Primary.each_callback w r v h) as [[[[]|e] v'] h']; [apply IH | done | done].
  - rewrite primary_callback_step. unfold primary_step.
    destruct (Js.truthy (getValue r "entity")); [done|]. simpl. apply IH.
Qed.

Lemma modular_each_with_customer rows groups h :
  each rows (Modular.each_callback w) groups h
  = each (with_customer rows) (Modular.each_callback w) groups h.
Proof.
  revert groups h. induction rows as [|r rows IH]; intros groups h; [done|].
  unfold with_customer. rewrite filter_cons. fold (with_customer rows).
  case_decide as Hr; cbn [each]; unfold bind.
  - destruct (Modular.each_callback w r groups h) as [[[[]|e] v'] h'];
      [apply IH | done | done].
  - rewrite modular_callback_step. unfold modular_step.
    destruct (Js.truthy (getValue r "entity")); [done|]. simpl. apply IH.
Qed.

Lemma seen_set processed key key' :
  Primary.seen processed key' = true ∨ key = key' →
  Primary.seen (JsObject.set processed key true) key' = true.
Proof.
  unfold Primary.seen, JsObject.get. rewrite get_own_set.
  case_decide as Hk; [done|]. by intros [?|?].
Qed.

Lemma primary_step_covered r v h : covered v r → primary_step w r v h = (v, h).
Proof.
  unfold covered, primary_step. intros [-> | ->]; [done|]. by rewrite orb_true_r.
Qed.

Lemma primary_step_covers r r' v h :
  covered v r' ∨ has_pair (getValue r "entity") (getValue r "tranid") r' →
  covered (primary_step w r v h).1 r'.
Proof.
  intros Hr'. unfold primary_step.
  destruct (Js.truthy (getValue r "entity")) eqn:Hr; simpl.
  2: { destruct Hr' as [?|[Hc _]]; [done|]. left. congruence. }
  destruct (Primary.seen (Primary.processedInvoices v) _) eqn:Hseen; simpl.
  { destruct Hr' as [?|[Hc Hn]]; [done|]. right. by rewrite Hc, Hn. }
  assert (Hcov : covered
            (Primary.set_invoiceCount (λ n, n + 1)
               (Primary.set_processedInvoices
                  (λ o, JsObject.set o
                          (Primary.invoiceKey (getValue r "entity") (getValue r "tranid")) true)
                  v)) r').
  { unfold covered. simpl. destruct Hr' as [[?|?]|[Hc Hn]]; [by left| |].
    - right. apply seen_set. by left.
    - right. apply seen_set. right. by rewrite Hc, Hn. }
  by destruct (JsObject.get (Primary.customerInvoices v) (getValue r "entity")).
Qed.

Lemma primary_each_covers rows v h :
  ∃ v' h',
    each rows (Primary.each_callback w) v h = (Normal (), v', h')
    ∧ ∀ r', covered v r' ∨ (∃ r, r ∈ rows
                                 ∧ has_pair (getValue r "entity") (getValue r "tranid") r') →
            covered v' r'.
Proof.
  revert v h. induction rows as [|r rows IH]; intros v h.
  - exists v, h. split; [done|]. intros r' [?|(r & ?%elem_of_nil & _)]; done.
  - cbn [each]. unfold bind. rewrite primary_callback_step.
    destruct (IH (primary_step w r v h).1 (primary_step w r v h).2) as (v' & h' & Hrun & Hcov).
    exists v', h'. split; [done|].
    intros r' [Hr'|(r0 & [->|Hr0]%elem_of_cons & Hpair)].
    + apply Hcov. left. apply primary_step_covers. by left.
    + apply Hcov. left. apply primary_step_covers. by right.
    + apply Hcov. right. eauto.
Qed.

Lemma primary_each_covered rows v h :
  Forall (covered v) rows → each rows (Primary.each_callback w) v h = (Normal (), v, h).
Proof.
  induction 1 as [|r rows Hr _ IH]; [done|].
  cbn [each]. unfold bind. rewrite primary_callback_step, primary_step_covered by done.
  apply IH.
Qed.

Lemma primary_each_again rows more v h :
  (∀ r', r' ∈ more →
     ∃ r, r ∈ rows ∧ has_pair (getValue r "entity") (getValue r "tranid") r') →
  each (rows ++ more) (Primary.each_callback w) v h
  = each rows (Primary.each_callback w) v h.
Proof.
  intros Hmore. rewrite each_app_true.
  2: { intros r s' h'. by rewrite primary_callback_step. }
  unfold bind. destruct (primary_each_covers rows v h) as (v' & h' & -> & Hcov).
  apply primary_each_covered, Forall_forall. intros r' Hr'. apply Hcov. right. by apply Hmore.
Qed.

End Ignored_rows.

Section Ignored_rows_results.
Import Host Run Api Logic Spec.

(** X9.  The rows without a customer identifier leave no trace in the
    primary script and in the second script: the grouping returns the same
    groups, after the same host calls (and, in the primary script, with the
    same log entries and the same invoice count), as when the search
    delivers the other rows only. *)
Theorem rows_without_customer_are_ignored (w : World) (rows : list Values) (h : History) :
  Primary.searchOverdueInvoices (with_search w (inr rows)) () h
  = Primary.searchOverdueInvoices (with_search w (inr (with_customer rows))) () h
  ∧ Modular.getOverdueInvoices (with_search w (inr rows)) () h
    = Modular.getOverdueInvoices (with_search w (inr (with_customer rows))) () h.
Proof.
  split.
  - unfold Primary.searchOverdueInvoices, Primary.searchOverdueInvoices_body, search_create_run,
      call, try_catch, bind, host.
    cbn [search_run with_search].
    change (Primary.each_callback (with_search w _)) with (Primary.each_callback w).
    by rewrite primary_each_with_customer.
  - unfold Modular.getOverdueInvoices, search_create_run, call, bind, host.
    cbn [search_run with_search].
    change (Modular.each_callback (with_search w _)) with (Modular.each_callback w).
    by rewrite modular_each_with_customer.
Qed.

(** X10.  In the primary script, rows of (customer, invoice number) pairs
    that the search has already delivered change nothing, wherever they
    come from: when every row of [more] has the pair of some row of [rows],
    the grouping of [rows] followed by [more] returns the same groups as
    the grouping of [rows], after the same host calls and log entries; the
    clock is not read for the rows of [more]. *)
Theorem redelivered_rows_are_ignored (w : World) (rows more : list Values) (h : History) :
  (∀ r', r' ∈ more →
     ∃ r, r ∈ rows ∧ getValue r' "entity" = getValue r "entity"
          ∧ getValue r' "tranid" = getValue r "tranid") →
  Primary.searchOverdueInvoices (with_search w (inr (rows ++ more))) () h
  = Primary.searchOverdueInvoices (with_search w (inr rows)) () h.
Proof.
  intros Hmore.
  unfold Primary.searchOverdueInvoices, Primary.searchOverdueInvoices_body, search_create_run,
    call, try_catch, bind, host.
  cbn [search_run with_search].
  change (Primary.each_callback (with_search w _)) with (Primary.each_callback w).
  rewrite primary_each_again; [done|].
  intros r' Hr'. destruct (Hmore r' Hr') as (r & Hr & Hc & Hn). exists r. by split.
Qed.

Lemma redelivered_rows_are_ignored_witness :
  Primary.searchOverdueInvoices
    (with_search (Sample.world []) (inr (Sample.one_row ++ Sample.one_row))) () []
  = Primary.searchOverdueInvoices (with_search (Sample.world []) (inr Sample.one_row)) () [].
Proof.
  apply (redelivered_rows_are_ignored (Sample.world []) Sample.one_row Sample.one_row []).
  intros r' Hr'. exists r'. by split.
Defined.

End Ignored_rows_results.

(** ** The emails of one customer *)

Section Traces.
Import Host Run Api Logic Spec.
Context (w : World).

Lemma customer_loads_snoc h ev :
  customer_loads (h ++ [ev])
  = customer_loads h ++ match customer_load ev with Some c => [c] | None => [] end.
Proof. unfold customer_loads. rewrite omap_app. simpl. by destruct (customer_load ev). Qed.

Lemma emails_snoc h ev :
  emails (h ++ [ev])
  = emails h ++ match ev with EmailSend options => [options] | _ => [] end.
Proof. unfold emails. rewrite omap_app. simpl. by destruct ev. Qed.

Lemma quiet_trace h0 h :
  extends quiet h0 h → customer_loads h = customer_loads h0 ∧ emails h = emails h0.
Proof.
  intros (evs & -> & Hevs). unfold customer_loads, emails. rewrite !omap_app.
  induction Hevs as [|ev evs [Hemail Hload] _ IH]; simpl; [by rewrite !app_nil_r|].
  rewrite Hload. destruct ev; try done.
Qed.

Lemma wp_only_calls {S A} P (m : M S A) Q s h :
  only_calls P m → wp m Q s h → wp m (λ o s' h', Q o s' h' ∧ extends P h h') s h.
Proof. intros Hcalls Hwp. split; [done | apply Hcalls]. Qed.

Lemma not_reliable_file_create h f e : file_create w h f = Some e → ¬ reliable w.
Proof. intros He (Hc & _). by rewrite Hc in He. Qed.

Lemma not_reliable_file_save h f e : file_save w h f = inl e → ¬ reliable w.
Proof. intros He (_ & Hs & _). destruct (Hs h f) as [id Hid]. congruence. Qed.

Lemma not_reliable_file_load h id e : file_load w h id = Some e → ¬ reliable w.
Proof. intros He (_ & _ & Hl & _). by rewrite Hl in He. Qed.

Lemma not_reliable_email_send h options e : email_send w h options = Some e → ¬ reliable w.
Proof. intros He (_ & _ & _ & Hs). by rewrite Hs in He. Qed.

Lemma modular_getSenderId_quiet salesRepId :
  only_calls quiet (Modular.getSenderId w salesRepId : M unit Js.value).
Proof. repeat calls_step. Qed.

Lemma primary_getSenderId_quiet salesRepId customerName :
  only_calls quiet (Primary.getSenderId w salesRepId customerName : M unit Js.value).
Proof. repeat calls_step. Qed.

Lemma primary_createCSVFile_quiet customerName customerEmail invoices :
  only_calls quiet
    (Primary.createCSVFile w customerName customerEmail invoices : M unit File).
Proof. repeat calls_step. Qed.

Lemma wp_file_load_cabinet {S} f id Q (s : S) h :
  cabinet h id = Some f →
  (file_load w h id = None → Q (Normal f) s (h ++ [FileLoad id])) →
  (∀ e, file_load w h id = Some e → Q (Thrown e) s (h ++ [FileLoad id])) →
  wp (file_load_ w id) Q s h.
Proof.
  intros Hcab Hok Herr. unfold wp, file_load_, host. rewrite Hcab.
  destruct (file_load w h id); simpl; auto.
Qed.

(** [createCSVFile] returns the file that it has saved and loaded back,
    unless the host refuses one of the three calls. *)
Lemma primary_createCSVFile_saved customerName customerEmail invoices h :
  wp (Primary.createCSVFile w customerName customerEmail invoices)
    (λ o _ h',
       match o with
       | Normal f =>
           f = primary_file customerName customerEmail invoices (date_now w h)
           ∧ ∃ id, FileSave f (Some id) ∈ h' ∧ FileLoad id ∈ h'
       | Thrown _ => ¬ reliable w
       end)
    () h.
Proof.
  unfold Primary.createCSVFile. wp_step. wp_step.
  apply wp_host; [|by intros ? [=]]. intros stamp [= <-]. cbn beta iota.
  wp_steps.
  - eapply wp_file_load_cabinet.
    + rewrite !cabinet_snoc. by rewrite decide_True.
    + intros _. split; [done|]. eexists. rewrite !elem_of_app, !list_elem_of_singleton. eauto 10.
    + intros e He. wp_steps. by eapply not_reliable_file_load.
  - by eapply not_reliable_file_save.
  - by eapply not_reliable_file_create.
Qed.

Lemma wp_history {S A} (m : M S A) Q s h :
  wp m Q s h → wp m (λ o s' h', Q o s' h' ∧ h' = history_after m s h) s h.
Proof. by split. Qed.

(** The host calls of [createCSVFile], in order, when none is refused. *)
Lemma primary_createCSVFile_history customerName customerEmail invoices h :
  wp (Primary.createCSVFile w customerName customerEmail invoices)
    (λ o _ h',
       match o with
       | Normal f =>
           f = primary_file customerName customerEmail invoices (date_now w h)
           ∧ ∃ id,
               h' = h ++ [ DateNow; FileCreate f; FileSave f (Some id);
                           Log DEBUG "CSV File Created"
                             (Some ("File ID: " +:+ pretty id +:+ " for customer "
                                    +:+ customerName));
                           FileLoad id ]
       | Thrown _ => ¬ reliable w
       end)
    () h.
Proof.
  unfold Primary.createCSVFile. wp_step. wp_step.
  apply wp_host; [|by intros ? [=]]. intros stamp [= <-]. cbn beta iota.
  wp_steps.
  - eapply wp_file_load_cabinet.
    + rewrite !cabinet_snoc. by rewrite decide_True.
    + intros _. split; [done|]. eexists. by rewrite <- !app_assoc.
    + intros e He. wp_steps. by eapply not_reliable_file_load.
  - by eapply not_reliable_file_save.
  - by eapply not_reliable_file_create.
Qed.

(** The body of the loop of the primary script, for one customer. *)
Lemma primary_process_customer_trace groups customerId h :
  wp (Primary.process_customer w groups customerId)
    (λ o _ h',
       o = Normal ()
       ∧ customer_loads h' = customer_loads h ++ [customerId]
       ∧ match lookup_customer w h customerId with
         | inl _ => emails h' = emails h
         | inr fields =>
             let customerName :=
               Js.or_else (Js.or_else (companyname fields) (firstname fields)) "Customer" in
             let salesRepId := Primary.first_value (salesrep fields) in
             let h1 :=
               history_after (Primary.getSenderId w salesRepId customerName) ()
                 (h ++ [LookupFields CUSTOMER customerId]) in
             let csvFile :=
               primary_file customerName (email fields) (group_of groups customerId)
                 (date_now w h1) in
             let message :=
               mail
                 (primary_author
                    (spec_sender salesRepId
                       (lookup_employee w (h ++ [LookupFields CUSTOMER customerId])
                          (default EmptyString salesRepId))))
                 customerName (email fields)
                 "Please find attached your overdue invoices." csvFile in
             if Js.truthy (email fields) then
               (emails h' = emails h ∧ ¬ reliable w)
               ∨ ∃ id logs,
                   h' = h1 ++ primary_sending customerName csvFile id message ++ logs
                   ∧ Forall log_entry logs
                   ∧ emails h' = emails h ++ [message]
             else emails h' = emails h
         end)
    () h.
Proof.
  unfold Primary.process_customer, Primary.sendCustomerEmail. wp_step. wp_step. wp_step.
  apply wp_host; cbn beta iota.
  2: { intros e ->. wp_steps. rewrite !customer_loads_snoc, !emails_snoc. simpl.
       by rewrite !app_nil_r. }
  intros fields ->. cbn zeta.
  destruct (Js.truthy (email fields)) eqn:Hemail; simpl.
  2: { wp_steps. rewrite !customer_loads_snoc, !emails_snoc. simpl. by rewrite !app_nil_r. }
  wp_step.
  eapply wp_mono;
    [|apply wp_history, wp_only_calls;
        [apply primary_getSenderId_quiet | apply primary_getSenderId_spec]].
  intros o [] h1 [[[-> _] [Hloads1 Hemails1]%quiet_trace] Hh1].
  rewrite customer_loads_snoc in Hloads1. rewrite emails_snoc in Hemails1.
  simpl in Hloads1, Hemails1. rewrite app_nil_r in Hemails1. rewrite <- Hh1.
  wp_step.
  eapply wp_mono;
    [|apply wp_only_calls;
        [apply primary_createCSVFile_quiet | apply primary_createCSVFile_history]].
  intros [csvFile|e] [] h2 [Hfile [Hloads2 Hemails2]%quiet_trace].
  - destruct Hfile as (-> & id & ->).
    wp_steps; rewrite ?customer_loads_snoc, ?emails_snoc, ?Hloads2, ?Hemails2, ?Hloads1,
                ?Hemails1; simpl; rewrite ?app_nil_r; (split; [done|]); (split; [done|]);
      right; exists id; eexists; unfold primary_sending;
      (split; [rewrite <- !app_assoc; cbn [app]; reflexivity|]);
      (split; [by repeat constructor | done]).
  - wp_steps. rewrite ?customer_loads_snoc, ?emails_snoc, ?Hloads2, ?Hemails2, ?Hloads1,
                ?Hemails1; simpl; rewrite ?app_nil_r. auto.
Qed.

(** The body of the loop of the second script, for one customer. *)
Lemma modular_notify_customer_trace groups customerId h :
  wp (Modular.notify_customer w groups customerId)
    (λ o _ h',
       o = Normal ()
       ∧ customer_loads h' = customer_loads h ++ [customerId]
       ∧ match record_load w h CUSTOMER customerId with
         | inl _ => emails h' = emails h
         | inr customerRecord =>
             let customerName :=
               Js.or_else (getValue customerRecord "companyname")
                 (getValue customerRecord "firstname") in
             if Js.truthy (getValue customerRecord "email") then
               (emails h' = emails h ∧ ¬ reliable w)
               ∨ emails h'
                 = emails h
                   ++ [ mail
                          (modular_author
                             (spec_sender (Some (getValue customerRecord "salesrep"))
                                (loaded_email
                                   (record_load w (h ++ [RecordLoad CUSTOMER customerId])
                                      EMPLOYEE (getValue customerRecord "salesrep")))))
                          customerName (getValue customerRecord "email")
                          "Please find attached your overdue invoices."
                          (plain_file customerName
                             (Modular.csv_content (group_of groups customerId))) ]
             else emails h' = emails h
         end)
    () h.
Proof.
  unfold Modular.notify_customer, Modular.notify_customer_try. wp_step. wp_step.
  apply wp_host; cbn beta iota.
  2: { intros e ->. wp_steps. rewrite !customer_loads_snoc, !emails_snoc. simpl.
       by rewrite !app_nil_r. }
  intros customerRecord ->. cbn zeta.
  destruct (Js.truthy (getValue customerRecord "email")) eqn:Hemail; simpl.
  2: { wp_steps. rewrite !customer_loads_snoc, !emails_snoc. simpl. by rewrite !app_nil_r. }
  wp_step.
  eapply wp_mono;
    [|apply wp_only_calls; [apply modular_getSenderId_quiet | apply modular_getSenderId_spec]].
  intros o [] h1 [[-> _] [Hloads1 Hemails1]%quiet_trace].
  rewrite customer_loads_snoc in Hloads1. rewrite emails_snoc in Hemails1.
  simpl in Hloads1, Hemails1. rewrite app_nil_r in Hemails1.
  unfold Modular.generateCsvFile. wp_steps;
    rewrite ?customer_loads_snoc, ?emails_snoc, ?Hloads1, ?Hemails1; simpl;
    rewrite ?app_nil_r; (split; [done|]); (split; [done|]).
  - by right.
  - by right.
  - left. split; [done|]. by eapply not_reliable_file_create.
Qed.

(** The body of the loop of [part_000], for one customer. *)
Lemma inline_notify_customer_trace groups customerId v h :
  wp (Inline.notify_customer w groups customerId)
    (λ o v' h',
       o = Normal () ∧ v' = v
       ∧ customer_loads h' = customer_loads h ++ [customerId]
       ∧ match record_load w h CUSTOMER customerId with
         | inl _ => emails h' = emails h
         | inr customerRecord =>
             let customerName :=
               Js.or_else (getValue customerRecord "companyname")
                 (getValue customerRecord "firstname") in
             if Js.truthy (getValue customerRecord "email") then
               (emails h' = emails h ∧ ¬ reliable w)
               ∨ emails h'
                 = emails h
                   ++ [ mail (inline_author w (getValue customerRecord "salesrep"))
                          customerName (getValue customerRecord "email")
                          "Please find attached your overdue invoices"
                          (plain_file customerName
                             (Inline.csv_content (group_of groups customerId))) ]
             else emails h' = emails h
         end)
    v h.
Proof.
  unfold Inline.notify_customer, Inline.notify_customer_try. wp_step. wp_step.
  apply wp_host; cbn beta iota.
  2: { intros e ->. wp_steps. rewrite !customer_loads_snoc, !emails_snoc. simpl.
       by rewrite !app_nil_r. }
  intros customerRecord ->. cbn zeta. unfold inline_author.
  destruct (Js.truthy (getValue customerRecord "email")) eqn:Hemail; simpl.
  2: { wp_steps. rewrite !customer_loads_snoc, !emails_snoc. simpl. by rewrite !app_nil_r. }
  wp_steps; simplify_eq;
    rewrite ?customer_loads_snoc, ?emails_snoc; simpl;
    rewrite ?app_nil_r; (split; [done|]); (split; [done|]); (split; [done|]).
  all: first [ by right | left; split; [done|]; by eapply not_reliable_file_create ].
Qed.

End Traces.

Section Trace_results.
Import Host Run Api Logic Spec.

Lemma reliable_world rows : reliable (Sample.world rows).
Proof. repeat split; intros; eauto. Qed.

(** A computation that begins with a host call. *)
Lemma begins_bind_host {S A B} ev answer (k : A → M S B) s h :
  (∀ a, only_calls (λ _, True) (k a)) →
  ∃ rest, (bind (host ev answer) k s h).2 = h ++ ev :: rest.
Proof.
  intros Hk. unfold bind, host. destruct (answer h) as [e|a]; simpl.
  - by exists [].
  - destruct (Hk a s (h ++ [ev])) as (evs & -> & _). exists evs. by rewrite <- app_assoc.
Qed.

Lemma begins_try_catch {S A} ev (m : M S A) handler s h :
  (∃ rest, (m s h).2 = h ++ ev :: rest) →
  (∀ e, only_calls (λ _, True) (handler e)) →
  ∃ rest, (try_catch m handler s h).2 = h ++ ev :: rest.
Proof.
  intros [rest Hm] Hhandler. unfold try_catch.
  destruct (m s h) as [[[a|e] s'] h']; simpl in *; [by exists rest|].
  destruct (Hhandler e s' h') as (evs & -> & _). subst h'. exists (rest ++ evs).
  by rewrite <- app_assoc.
Qed.

(** What the body of a loop adds to the history is the part of its
    customer, when it begins with the reading of the customer's record,
    reads one customer record and calls [email.send] at most once. *)
Lemma part_of_body (read : string → Event) customerId h rest :
  customer_load (read customerId) = Some customerId →
  is_email (read customerId) = false →
  customer_loads (h ++ read customerId :: rest) = customer_loads h ++ [customerId] →
  (length (emails (h ++ read customerId :: rest)) ≤ Datatypes.S (length (emails h)))%nat →
  customer_part read customerId (read customerId :: rest).
Proof.
  intros Hload Hmail Hloads Hemails. exists rest. split; [done|].
  assert (Hfirst : customer_loads (read customerId :: rest)
                   = customerId :: customer_loads rest).
  { unfold customer_loads. simpl. by rewrite Hload. }
  assert (Hrest : emails (read customerId :: rest) = emails rest).
  { unfold emails. simpl. by destruct (read customerId). }
  unfold customer_loads in Hloads, Hfirst. rewrite omap_app, Hfirst in Hloads.
  apply app_inv_head in Hloads.
  unfold emails in Hemails, Hrest. rewrite omap_app, length_app, Hrest in Hemails.
  split; [by injection Hloads | unfold emails; lia].
Qed.

Lemma for_each_parts {S} read (xs : list string) (body : string → M S unit) s h :
  (∀ x s h,
     ∃ part, (body x s h).1.1 = Normal () ∧ (body x s h).2 = h ++ part
             ∧ customer_part read x part) →
  (for_each xs body s h).1.1 = Normal ()
  ∧ ∃ parts,
      (for_each xs body s h).2 = h ++ concat parts
      ∧ Forall2 (customer_part read) xs parts.
Proof.
  intros Hbody. revert s h. induction xs as [|x xs IH]; intros s h; simpl.
  - split; [done|]. exists []. split; [by rewrite app_nil_r | constructor].
  - unfold bind. destruct (Hbody x s h) as (part & Ho & Hh & Hpart).
    destruct (body x s h) as [[o s'] h']. simpl in Ho, Hh. subst o h'.
    destruct (IH s' (h ++ part)) as (Ho' & parts & Hparts & Hall).
    split; [done|]. exists (part :: parts). simpl.
    split; [by rewrite Hparts, <- app_assoc | by constructor].
Qed.

Lemma parts_loads read (xs : list string) parts :
  (∀ x, customer_load (read x) = Some x) →
  Forall2 (customer_part read) xs parts →
  customer_loads (concat parts) = xs.
Proof.
  intros Hread. induction 1 as [|x part xs parts (rest & -> & Hrest & _) _ IH]; [done|].
  unfold customer_loads in *. simpl. rewrite Hread, omap_app, Hrest, IH. done.
Qed.

Lemma primary_process_customer_part w groups customerId h :
  ∃ part,
    (Primary.process_customer w groups customerId () h).1.1 = Normal ()
    ∧ (Primary.process_customer w groups customerId () h).2 = h ++ part
    ∧ customer_part (LookupFields CUSTOMER) customerId part.
Proof.
  assert (Hbegins : ∃ rest, (Primary.process_customer w groups customerId () h).2
                            = h ++ LookupFields CUSTOMER customerId :: rest).
  { unfold Primary.process_customer, Primary.sendCustomerEmail, search_lookupFields_customer.
    apply begins_try_catch; [|intros; repeat calls_step].
    apply begins_try_catch; [|intros; repeat calls_step].
    apply begins_bind_host. intros. repeat calls_step. }
  destruct Hbegins as [rest Hrest].
  pose proof (primary_process_customer_trace w groups customerId h) as Hwp.
  unfold wp in Hwp. destruct Hwp as (Ho & Hloads & Hemails).
  exists (LookupFields CUSTOMER customerId :: rest). split; [done|]. split; [done|].
  rewrite Hrest in Hloads, Hemails. apply (part_of_body _ _ h); [done | done | done |].
  destruct (lookup_customer w h customerId) as [e|fields]; [rewrite Hemails; lia|].
  cbn zeta in Hemails. destruct (Js.truthy (email fields)); [|rewrite Hemails; lia].
  destruct Hemails as [[-> _]|(id & logs & _ & _ & ->)]; [lia|].
  rewrite length_app. simpl. lia.
Qed.

Lemma modular_notify_customer_part w groups customerId h :
  ∃ part,
    (Modular.notify_customer w groups customerId () h).1.1 = Normal ()
    ∧ (Modular.notify_customer w groups customerId () h).2 = h ++ part
    ∧ customer_part (RecordLoad CUSTOMER) customerId part.
Proof.
  assert (Hbegins : ∃ rest, (Modular.notify_customer w groups customerId () h).2
                            = h ++ RecordLoad CUSTOMER customerId :: rest).
  { unfold Modular.notify_customer, Modular.notify_customer_try, record_load_.
    apply begins_try_catch; [|intros; repeat calls_step].
    apply begins_bind_host. intros. repeat calls_step. }
  destruct Hbegins as [rest Hrest].
  pose proof (modular_notify_customer_trace w groups customerId h) as Hwp.
  unfold wp in Hwp. destruct Hwp as (Ho & Hloads & Hemails).
  exists (RecordLoad CUSTOMER customerId :: rest). split; [done|]. split; [done|].
  rewrite Hrest in Hloads, Hemails. apply (part_of_body _ _ h); [done | done | done |].
  destruct (record_load w h CUSTOMER customerId) as [e|customerRecord];
    [rewrite Hemails; lia|].
  cbn zeta in Hemails.
  destruct (Js.truthy (getValue customerRecord "email")); [|rewrite Hemails; lia].
  destruct Hemails as [[-> _]| ->]; [lia|]. rewrite length_app. simpl. lia.
Qed.

Lemma inline_notify_customer_part w groups customerId v h :
  ∃ part,
    (Inline.notify_customer w groups customerId v h).1.1 = Normal ()
    ∧ (Inline.notify_customer w groups customerId v h).2 = h ++ part
    ∧ customer_part (RecordLoad CUSTOMER) customerId part.
Proof.
  assert (Hbegins : ∃ rest, (Inline.notify_customer w groups customerId v h).2
                            = h ++ RecordLoad CUSTOMER customerId :: rest).
  { unfold Inline.notify_customer, Inline.notify_customer_try, record_load_.
    apply begins_try_catch; [|intros; repeat calls_step].
    apply begins_bind_host. intros. repeat calls_step. }
  destruct Hbegins as [rest Hrest].
  pose proof (inline_notify_customer_trace w groups customerId v h) as Hwp.
  unfold wp in Hwp. destruct Hwp as (Ho & _ & Hloads & Hemails).
  exists (RecordLoad CUSTOMER customerId :: rest). split; [done|]. split; [done|].
  rewrite Hrest in Hloads, Hemails. apply (part_of_body _ _ h); [done | done | done |].
  destruct (record_load w h CUSTOMER customerId) as [e|customerRecord];
    [rewrite Hemails; lia|].
  cbn zeta in Hemails.
  destruct (Js.truthy (getValue customerRecord "email")); [|rewrite Hemails; lia].
  destruct Hemails as [[-> _]| ->]; [lia|]. rewrite length_app. simpl. lia.
Qed.

(** X11.  Each loop over the customers handles one customer after the
    other, in the order of the keys, whatever happens on the way: what the
    loop adds to the history is, for every key of the groups in turn, one
    part that begins with the reading of that customer's record, reads no
    other customer record, and holds at most one call of [email.send].  So
    every customer is read exactly once and gets at most one email. *)
Theorem each_customer_is_read_once (w : World) (groups : Groups) (h : History) :
  (∃ parts,
     history_after (Primary.processCustomerNotifications w groups) () h = h ++ concat parts
     ∧ Forall2 (customer_part (LookupFields CUSTOMER)) (JsObject.keys groups) parts)
  ∧ (∃ parts,
       history_after (Modular.notifyCustomers w groups) () h = h ++ concat parts
       ∧ Forall2 (customer_part (RecordLoad CUSTOMER)) (JsObject.keys groups) parts)
  ∧ ∀ invoiceCount,
      let v := {| Inline.customerInvoices := groups; Inline.invoiceCount := invoiceCount |} in
      ∃ parts,
        history_after (Inline.notify_customers w) v h = h ++ concat parts
        ∧ Forall2 (customer_part (RecordLoad CUSTOMER)) (JsObject.keys groups) parts.
Proof.
  split; [|split].
  - apply (for_each_parts (LookupFields CUSTOMER) (JsObject.keys groups)
             (Primary.process_customer w groups)).
    intros x [] h1. apply primary_process_customer_part.
  - apply (for_each_parts (RecordLoad CUSTOMER) (JsObject.keys groups)
             (Modular.notify_customer w groups)).
    intros x [] h1. apply modular_notify_customer_part.
  - intros invoiceCount v.
    apply (for_each_parts (RecordLoad CUSTOMER) (JsObject.keys groups)
             (Inline.notify_customer w groups)).
    intros x v1 h1. apply inline_notify_customer_part.
Qed.

(** X12.  The email of a customer in the primary script.  For a customer
    whose record has an email address, the loop body calls [email.send] at
    most once: to that address, with the subject of the script, a body
    that greets the customer by company name, else first name, else
    "Customer" (so never by an empty name), the author chosen by
    [getSenderId], and one attachment, the CSV file of the customer's
    invoices.  When the call is made, the history of the loop body is: the
    reading of the customer, the calls of [getSenderId], then a reading of
    the clock, the creation of the file in folder 1226 under a name made of
    the customer name (every character that is no letter or digit replaced
    by an underscore) and that reading, the saving of the file, a log
    entry, the loading of the file by the identifier that the saving
    returned, and the call of [email.send] with that file, followed by log
    entries only.  The call is made whenever the host refuses no file or
    email call. *)
Theorem primary_email_of_a_customer (w : World) (groups : Groups) (customerId : string)
    (h : History) (fields : CustomerFields) :
  lookup_customer w h customerId = inr fields →
  Js.truthy (email fields) = true →
  let customerName :=
    Js.or_else (Js.or_else (companyname fields) (firstname fields)) "Customer" in
  let salesRepId := Primary.first_value (salesrep fields) in
  let sender :=
    primary_author
      (spec_sender salesRepId
         (lookup_employee w (h ++ [LookupFields CUSTOMER customerId])
            (default EmptyString salesRepId))) in
  let h1 :=
    history_after (Primary.getSenderId w salesRepId customerName) ()
      (h ++ [LookupFields CUSTOMER customerId]) in
  let csvFile :=
    primary_file customerName (email fields) (group_of groups customerId) (date_now w h1) in
  let message :=
    mail sender customerName (email fields) "Please find attached your overdue invoices."
      csvFile in
  let h' := history_after (Primary.process_customer w groups customerId) () h in
  let sent :=
    ∃ id logs,
      h' = h1 ++ primary_sending customerName csvFile id message ++ logs
      ∧ Forall log_entry logs
      ∧ emails h' = emails h ++ [message] in
  Js.truthy customerName = true
  ∧ (emails h' = emails h ∨ sent)
  ∧ (reliable w → sent).
Proof.
  intros Hlookup Hemail customerName salesRepId sender h1 csvFile message h' sent.
  split; [unfold customerName, Js.or_else; by repeat case_match|].
  pose proof (primary_process_customer_trace w groups customerId h) as Hwp.
  unfold wp in Hwp. destruct Hwp as (_ & _ & Htrace).
  rewrite Hlookup in Htrace. cbn zeta in Htrace. rewrite Hemail in Htrace.
  destruct Htrace as [[Hnone Hrefused]|Hsent]; [|by split; [right|]].
  split; [by left | done].
Qed.

Lemma primary_email_of_a_customer_witness :
  ∃ id logs,
    history_after (Primary.process_customer (Sample.world []) (Sample.groups_of "1") "1") () []
    = [LookupFields CUSTOMER "1"; LookupFields EMPLOYEE "42"]
      ++ primary_sending "ACME"
           (primary_file "ACME" "ap@acme.test" [Sample.invoice_60] Sample.mar1) id
           (mail (Js.VNumber (Js.Num 42)) "ACME" "ap@acme.test"
              "Please find attached your overdue invoices."
              (primary_file "ACME" "ap@acme.test" [Sample.invoice_60] Sample.mar1))
      ++ logs
    ∧ Forall log_entry logs
    ∧ emails (history_after
                (Primary.process_customer (Sample.world []) (Sample.groups_of "1") "1") () [])
      = [] ++ [ mail (Js.VNumber (Js.Num 42)) "ACME" "ap@acme.test"
                  "Please find attached your overdue invoices."
                  (primary_file "ACME" "ap@acme.test" [Sample.invoice_60] Sample.mar1) ].
Proof.
  destruct (primary_email_of_a_customer (Sample.world []) (Sample.groups_of "1") "1" []
              {| companyname := "ACME"; firstname := EmptyString; email := "ap@acme.test";
                 salesrep := [ {| value := "42"; text := "Rep" |} ] |} eq_refl eq_refl)
    as (_ & _ & Hsent).
  exact (Hsent (reliable_world [])).
Defined.

(** X13.  The email of a customer in the second script.  For a customer
    whose record has an email address and a company name or first name,
    the loop body calls [email.send] at most once: to that address, with
    the subject of the script, a body that greets the customer by company
    name, else first name, the author chosen by [getSenderId], and as only
    attachment the CSV file of the customer's invoices, which is created
    but never saved.  The call is made whenever the host does not refuse
    the creation of the file. *)
Theorem modular_email_of_a_customer (w : World) (groups : Groups) (customerId : string)
    (h : History) (customerRecord : Values) :
  record_load w h CUSTOMER customerId = inr customerRecord →
  Js.truthy (getValue customerRecord "email") = true →
  let customerName :=
    Js.or_else (getValue customerRecord "companyname") (getValue customerRecord "firstname") in
  Js.truthy customerName = true →
  let sender :=
    modular_author
      (spec_sender (Some (getValue customerRecord "salesrep"))
         (loaded_email
            (record_load w (h ++ [RecordLoad CUSTOMER customerId]) EMPLOYEE
               (getValue customerRecord "salesrep")))) in
  let h' := history_after (Modular.notify_customer w groups customerId) () h in
  let sent :=
    emails h'
    = emails h
      ++ [ mail sender customerName (getValue customerRecord "email")
             "Please find attached your overdue invoices."
             (plain_file customerName (Modular.csv_content (group_of groups customerId))) ] in
  (emails h' = emails h ∨ sent)
  ∧ (reliable w → sent).
Proof.
  intros Hload Hemail customerName _ sender h' sent.
  pose proof (modular_notify_customer_trace w groups customerId h) as Hwp.
  unfold wp in Hwp. destruct Hwp as (_ & _ & Htrace).
  rewrite Hload in Htrace. cbn zeta in Htrace. rewrite Hemail in Htrace.
  destruct Htrace as [[Hnone Hrefused]|Hsent]; [|by split; [right|]].
  split; [by left | done].
Qed.

Lemma modular_email_of_a_customer_witness :
  emails (history_after
            (Modular.notify_customer (Sample.world []) (Sample.groups_of "1") "1") () [])
  = [ mail (Js.VString "42") "ACME" "ap@acme.test"
        "Please find attached your overdue invoices."
        (plain_file "ACME" (Modular.csv_content [Sample.invoice_60])) ].
Proof.
  destruct (modular_email_of_a_customer (Sample.world []) (Sample.groups_of "1") "1" []
              (Sample.record "ACME" EmptyString "ap@acme.test" "42") eq_refl eq_refl eq_refl)
    as (_ & Hsent).
  exact (Hsent (reliable_world [])).
Defined.

(** X14.  The email of a customer in [part_000].  For a customer whose
    record has an email address and a company name or first name, the loop
    body calls [email.send] at most once: to that address, with the subject
    of the script, the greeting (whose last sentence has no full stop), as
    author the customer's sales rep if there is one and the current user
    otherwise, and as only attachment the CSV file of the customer's
    invoices, which is created but never saved.  The call is made whenever
    the host does not refuse the creation of the file. *)
Theorem inline_email_of_a_customer (w : World) (groups : Groups) (customerId : string)
    (v : Inline.Vars) (h : History) (customerRecord : Values) :
  record_load w h CUSTOMER customerId = inr customerRecord →
  Js.truthy (getValue customerRecord "email") = true →
  let customerName :=
    Js.or_else (getValue customerRecord "companyname") (getValue customerRecord "firstname") in
  Js.truthy customerName = true →
  let h' := history_after (Inline.notify_customer w groups customerId) v h in
  let sent :=
    emails h'
    = emails h
      ++ [ mail (inline_author w (getValue customerRecord "salesrep")) customerName
             (getValue customerRecord "email")
             "Please find attached your overdue invoices"
             (plain_file customerName (Inline.csv_content (group_of groups customerId))) ] in
  (emails h' = emails h ∨ sent)
  ∧ (reliable w → sent).
Proof.
  intros Hload Hemail customerName _ h' sent.
  pose proof (inline_notify_customer_trace w groups customerId v h) as Hwp.
  unfold wp in Hwp. destruct Hwp as (_ & _ & _ & Htrace).
  rewrite Hload in Htrace. cbn zeta in Htrace. rewrite Hemail in Htrace.
  destruct Htrace as [[Hnone Hrefused]|Hsent]; [|by split; [right|]].
  split; [by left | done].
Qed.

Lemma inline_email_of_a_customer_witness :
  emails (history_after
            (Inline.notify_customer (Sample.world []) (Sample.groups_of "3") "3")
            Inline.initial [])
  = [ mail (Js.VNumber (Js.Num 7)) "Initech" "ap@initech.test"
        "Please find attached your overdue invoices"
        (plain_file "Initech" (Inline.csv_content [Sample.invoice_60])) ].
Proof.
  destruct (inline_email_of_a_customer (Sample.world []) (Sample.groups_of "3") "3"
              Inline.initial []
              (Sample.record "Initech" EmptyString "ap@initech.test" EmptyString)
              eq_refl eq_refl eq_refl)
    as (_ & Hsent).
  exact (Hsent (reliable_world [])).
Defined.

End Trace_results.

(** ** The names of the files of the primary script *)

Section File_names.
Import Host Run Api Logic Spec.

Lemma all_chars_app p (a b : string) :
  all_chars p (a +:+ b) = all_chars p a && all_chars p b.
Proof.
  induction a as [|c a IH]; [done|]. rewrite string_app_cons. simpl.
  by rewrite IH, andb_assoc.
Qed.

Lemma all_chars_impl (p q : ascii → bool) (s : string) :
  (∀ c, p c = true → q c = true) → all_chars p s = true → all_chars q s = true.
Proof.
  intros Hpq. induction s as [|c s IH]; [done|]. simpl.
  intros [Hc Hs]%andb_true_iff. by rewrite (Hpq c Hc), IH.
Qed.

Lemma replace_non_alnum_length (s : string) :
  String.length (Js.replace_non_alnum s) = String.length s.
Proof. induction s as [|c s IH]; [done|]. simpl. by rewrite IH. Qed.

Lemma replace_non_alnum_safe (s : string) :
  all_chars is_name_char (Js.replace_non_alnum s) = true.
Proof.
  induction s as [|c s IH]; [done|]. simpl. rewrite IH, andb_true_r.
  unfold is_name_char. destruct (Js.is_alnum c) eqn:Hc; [by rewrite Hc | done].
Qed.

Lemma replace_non_alnum_id (s : string) :
  all_chars is_name_char s = true → Js.replace_non_alnum s = s.
Proof.
  induction s as [|c s IH]; [done|]. simpl. intros [Hc Hs]%andb_true_iff.
  rewrite (IH Hs). f_equal. unfold is_name_char in Hc.
  destruct (Js.is_alnum c); [done|]. simpl in Hc. by apply bool_decide_eq_true in Hc.
Qed.

Lemma name_char_is_file_char (c : ascii) : is_name_char c = true → is_file_char c = true.
Proof. unfold is_file_char. by intros ->. Qed.

Lemma pretty_N_char_safe (x : N) : is_file_char (pretty_N_char x) = true.
Proof. unfold pretty_N_char. by repeat case_match. Qed.

Lemma pretty_N_go_safe (x : N) (s : string) :
  all_chars is_file_char s = true → all_chars is_file_char (pretty_N_go x s) = true.
Proof.
  revert s. induction (N.lt_wf_0 x) as [x _ IH]; intros s Hs.
  destruct (decide (x = 0)%N) as [->|Hx]; [by rewrite pretty_N_go_0|].
  rewrite pretty_N_go_step by lia. apply IH.
  - apply N.div_lt; lia.
  - simpl. by rewrite Hs, pretty_N_char_safe.
Qed.

Lemma pretty_Z_safe (z : Z) : 0 ≤ z → all_chars is_file_char (pretty z) = true.
Proof.
  destruct z as [|x|x]; [done| |lia]. intros _.
  change (all_chars is_file_char (pretty (N.pos x)) = true).
  unfold pretty, pretty_N. case_decide; [done|]. by apply pretty_N_go_safe.
Qed.

(** X15.  The name of the file of the primary script.  Replacing every
    character of the customer name that is no letter or digit by an
    underscore keeps the length of the name, leaves only letters, digits
    and underscores, and changes nothing in a name made of these.  The
    file that [createCSVFile] returns is named Overdue_Invoices_, that
    name, an underscore, the reading of the clock and .csv: when the clock
    is not negative, the file name holds only letters, digits, underscores
    and dots, whatever the customer name. *)
Theorem primary_file_names_are_safe (customerName : string) :
  String.length (Js.replace_non_alnum customerName) = String.length customerName
  ∧ all_chars is_name_char (Js.replace_non_alnum customerName) = true
  ∧ (all_chars is_name_char customerName = true
     → Js.replace_non_alnum customerName = customerName)
  ∧ ∀ (w : World) customerEmail invoices h f,
      outcome_of (Primary.createCSVFile w customerName customerEmail invoices) () h
      = Normal f →
      name f
      = "Overdue_Invoices_" +:+ Js.replace_non_alnum customerName +:+ "_"
        +:+ pretty (date_now w h) +:+ ".csv"
      ∧ (0 ≤ date_now w h → all_chars is_file_char (name f) = true).
Proof.
  split; [apply replace_non_alnum_length|]. split; [apply replace_non_alnum_safe|].
  split; [apply replace_non_alnum_id|].
  intros w customerEmail invoices h f Hrun.
  pose proof (primary_createCSVFile_saved w customerName customerEmail invoices h) as Hwp.
  unfold wp in Hwp. unfold outcome_of in Hrun. rewrite Hrun in Hwp.
  destruct Hwp as [-> _]. split; [done|]. intros Hclock. simpl.
  rewrite !all_chars_app, (pretty_Z_safe _ Hclock).
  rewrite (all_chars_impl is_name_char is_file_char _ name_char_is_file_char
             (replace_non_alnum_safe customerName)).
  done.
Qed.

Lemma primary_file_names_are_safe_witness :
  Js.replace_non_alnum "A&B Supplies, Inc." = "A_B_Supplies__Inc_"
  ∧ Js.replace_non_alnum "A_B_Supplies__Inc_" = "A_B_Supplies__Inc_"
  ∧ name (primary_file "A&B Supplies, Inc." "ap@ab.test" [] Sample.mar1)
    = "Overdue_Invoices_A_B_Supplies__Inc__1709251200000.csv"
  ∧ all_chars is_file_char
      (name (primary_file "A&B Supplies, Inc." "ap@ab.test" [] Sample.mar1)) = true.
Proof.
  destruct (primary_file_names_are_safe "A_B_Supplies__Inc_") as (_ & _ & Hid & _).
  destruct (primary_file_names_are_safe "A&B Supplies, Inc.") as (_ & _ & _ & Hfile).
  destruct (Hfile (Sample.world []) "ap@ab.test" [] []
              (primary_file "A&B Supplies, Inc." "ap@ab.test" [] Sample.mar1) eq_refl)
    as [Hname Hsafe].
  split; [reflexivity|]. split; [apply Hid; reflexivity|].
  split; [exact Hname|]. apply Hsafe. vm_compute. discriminate.
Defined.

End File_names.

(** ** The order of the customers *)

Section Key_order.
Import Host Run Api Logic Spec.

#[local] Instance index_le_total : Total JsObject.index_le.
Proof. intros a b. unfold JsObject.index_le. lia. Qed.

#[local] Instance index_le_trans : Transitive JsObject.index_le.
Proof. intros a b c. unfold JsObject.index_le. lia. Qed.

Lemma indexed_keys (ks : list string) :
  (omap (λ k, (λ n, (n, k)) <$> JsObject.array_index k) ks).*2
  = filter (λ k, is_Some (JsObject.array_index k)) ks
  ∧ Forall (λ p : Z * string, JsObject.array_index p.2 = Some p.1)
      (omap (λ k, (λ n, (n, k)) <$> JsObject.array_index k) ks).
Proof.
  induction ks as [|k ks [IH1 IH2]]; [by split|].
  rewrite filter_cons. simpl.
  destruct (JsObject.array_index k) as [n|] eqn:Hk; simpl.
  - split; [by f_equal | by constructor].
  - done.
Qed.

Lemma sorted_indices (l : list (Z * string)) :
  StronglySorted JsObject.index_le l →
  Forall (λ p : Z * string, JsObject.array_index p.2 = Some p.1) l →
  StronglySorted index_before l.*2.
Proof.
  induction 1 as [|p l Hl IH Hp]; intros Hall; [constructor|].
  apply Forall_cons in Hall as [Hp_index Hall]. csimpl. constructor; [by apply IH|].
  apply Forall_fmap, Forall_forall. intros q Hq. simpl.
  rewrite Forall_forall in Hp, Hall. exists p.1, q.1. split; [done|].
  split; [by apply Hall | by apply Hp].
Qed.

(** The keys of an object, as [for ... in] visits them. *)
Lemma keys_in_visiting_order {V : Type} (groups : JsObject.t V) :
  in_visiting_order groups.*1 (JsObject.keys groups).
Proof.
  destruct (indexed_keys groups.*1) as [Hkeys Hall].
  eexists _, _. split; [reflexivity|]. split; [|split; [|done]].
  - rewrite <- Hkeys. by rewrite merge_sort_Permutation.
  - apply sorted_indices; [apply StronglySorted_merge_sort; apply _|].
    apply Forall_forall. intros p Hp. rewrite Forall_forall in Hall. apply Hall.
    by rewrite merge_sort_Permutation in Hp.
Qed.

End Key_order.

(** ** The invoice count and the groups *)

Section Invoice_count.
Import Host Run Api Logic Spec.
Context (w : World).

Lemma total_push (groups : Groups) customerId inv :
  total (JsObject.set groups customerId (group_of groups customerId ++ [inv]))
  = Datatypes.S (total groups).
Proof.
  unfold total, group_of. induction groups as [|[k l] groups IH]; [done|]. simpl.
  destruct (decide (k = customerId)) as [->|Hk]; csimpl.
  - rewrite length_app. simpl. lia.
  - rewrite IH. lia.
Qed.

Lemma primary_step_total r v h :
  JsObject.inherited (getValue r "entity") = false →
  Primary.invoiceCount v = Z.of_nat (total (Primary.customerInvoices v)) →
  Primary.invoiceCount (primary_step w r v h).1
  = Z.of_nat (total (Primary.customerInvoices (primary_step w r v h).1)).
Proof.
  intros Hinh Hcount. unfold primary_step.
  destruct (negb _ || _); [done|].
  destruct (JsObject.get (Primary.customerInvoices v) (getValue r "entity")) as [l| |] eqn:Hslot;
    simpl.
  - rewrite total_push. lia.
  - apply get_Inherited in Hslot as [_ Hslot]. congruence.
  - rewrite total_push. lia.
Qed.

Lemma primary_search_total rows h0 :
  search_run w Primary.search_options = inr rows →
  (∀ r, r ∈ rows → JsObject.inherited (getValue r "entity") = false) →
  wp (Primary.searchOverdueInvoices_body w)
    (λ o v h,
       o = Normal (Primary.customerInvoices v)
       ∧ Log AUDIT "Invoices Found"
           (Some ("Total unique overdue invoices: "
                  +:+ pretty (Z.of_nat (total (Primary.customerInvoices v))))) ∈ h)
    Primary.initial h0.
Proof.
  intros Hsearch Hrows. unfold Primary.searchOverdueInvoices_body. wp_steps.
  apply wp_host; [|congruence]. intros rows' Hrows'. cbn beta iota.
  assert (rows' = rows) as -> by congruence.
  wp_step.
  eapply wp_mono;
    [|apply (wp_each_prefix rows _
               (λ _ v _, Primary.invoiceCount v
                         = Z.of_nat (total (Primary.customerInvoices v))))]; [| |done].
  - intros o v h [-> Hcount]. wp_steps. rewrite Hcount.
    eapply wp_mono;
      [|apply (wp_for_each _ _
                 (λ v' h', v' = v
                    ∧ Log AUDIT "Invoices Found"
                        (Some ("Total unique overdue invoices: "
                               +:+ pretty (Z.of_nat (total (Primary.customerInvoices v)))))
                      ∈ h'))].
    + intros o v' h' [-> [-> Hlog]]. by wp_steps.
    + intros customerId v' h' _ [-> Hlog]. unfold Primary.log_customer_invoices. wp_steps.
      split; [done|]. split; [done|]. apply elem_of_app. by left.
    + split; [done|]. apply elem_of_app. right. left.
  - intros pre r post v h Hsplit Hcount. unfold wp. rewrite primary_callback_step. simpl.
    split; [done|]. apply primary_step_total; [|done].
    apply Hrows. rewrite Hsplit. apply elem_of_app. right. left.
Qed.

Lemma inline_step_total r v h :
  JsObject.inherited (getValue r "entity") = false →
  Inline.invoiceCount v = Z.of_nat (total (Inline.customerInvoices v)) →
  (inline_step w r v h).1.1 = Normal true
  ∧ Inline.invoiceCount (inline_step w r v h).1.2
    = Z.of_nat (total (Inline.customerInvoices (inline_step w r v h).1.2)).
Proof.
  intros Hinh Hcount. unfold inline_step.
  destruct (negb _); [done|].
  destruct (JsObject.get (Inline.customerInvoices v) (getValue r "entity")) as [l| |] eqn:Hslot;
    simpl.
  - rewrite total_push. split; [done | lia].
  - apply get_Inherited in Hslot as [_ Hslot]. congruence.
  - rewrite total_push. split; [done | lia].
Qed.

End Invoice_count.

Section Invoice_count_results.
Import Host Run Api Logic Spec.

(** X17.  The invoice count and the groups agree.  When the search
    succeeds and no row has a customer identifier that is a member name of
    [Object.prototype], the number that the primary script reports in its
    audit entry "Invoices Found" is the number of invoice summaries that
    the groups hold, and at the end of the grouping of [part_000]
    [invoiceCount] is that number too.  (For such an identifier the
    primary script counts the invoice and stores nothing.) *)
Theorem invoice_count_is_the_number_of_summaries (w : World) (h0 : History)
    (rows : list Values) :
  (∀ r, r ∈ rows → JsObject.inherited (getValue r "entity") = false) →
  (search_run w Primary.search_options = inr rows →
   ∃ groups h,
     Primary.searchOverdueInvoices w () h0 = (Normal groups, (), h)
     ∧ Log AUDIT "Invoices Found"
         (Some ("Total unique overdue invoices: " +:+ pretty (Z.of_nat (total groups)))) ∈ h)
  ∧ (search_run w Inline.search_options = inr rows →
     ∃ v h,
       Inline.group_invoices w Inline.initial h0 = (Normal (), v, h)
       ∧ Inline.invoiceCount v = Z.of_nat (total (Inline.customerInvoices v))).
Proof.
  intros Hrows. split; intros Hsearch.
  - pose proof (primary_search_total w rows h0 Hsearch Hrows) as Hwp. unfold wp in Hwp.
    unfold Primary.searchOverdueInvoices, call.
    destruct (Primary.searchOverdueInvoices_body w Primary.initial h0) as [[o v] h].
    simpl in Hwp. destruct Hwp as [-> Hlog]. by exists (Primary.customerInvoices v), h.
  - unfold Inline.group_invoices, search_create_run, bind, host. rewrite Hsearch.
    pose proof (wp_each_prefix rows (Inline.each_callback w)
                  (λ _ v _, Inline.invoiceCount v
                            = Z.of_nat (total (Inline.customerInvoices v)))
                  Inline.initial (h0 ++ [SearchRun Inline.search_options])) as Hwp.
    unfold wp in Hwp.
    destruct (each rows (Inline.each_callback w) Inline.initial
                (h0 ++ [SearchRun Inline.search_options])) as [[o v] h].
    simpl in Hwp. destruct Hwp as [-> Hcount]; [|done|by exists v, h].
    intros pre r post v' h' Hsplit Hcount. rewrite inline_callback_step.
    apply inline_step_total; [|done].
    apply Hrows. rewrite Hsplit. apply elem_of_app. right. left.
Qed.

Lemma invoice_count_is_the_number_of_summaries_witness :
  (∃ groups h,
     Primary.searchOverdueInvoices (Sample.world Sample.mixed_rows) () []
     = (Normal groups, (), h)
     ∧ Log AUDIT "Invoices Found"
         (Some ("Total unique overdue invoices: " +:+ pretty (Z.of_nat (total groups)))) ∈ h)
  ∧ ∃ v h,
      Inline.group_invoices (Sample.world Sample.mixed_rows) Inline.initial []
      = (Normal (), v, h)
      ∧ Inline.invoiceCount v = Z.of_nat (total (Inline.customerInvoices v)).
Proof.
  destruct (invoice_count_is_the_number_of_summaries (Sample.world Sample.mixed_rows) []
              Sample.mixed_rows) as [Hp Hi].
  - intros r Hr. unfold Sample.mixed_rows in Hr.
    repeat (apply elem_of_cons in Hr as [->|Hr]; [reflexivity|]).
    by apply elem_of_nil in Hr.
  - split; [apply Hp | apply Hi]; reflexivity.
Defined.

End Invoice_count_results.

(** ** Reading the CSV text back *)

Section Csv_fields.
Import Host Run Api Logic Spec.

Lemma has_comma_app (a b : string) : has_comma (a +:+ b) = has_comma a || has_comma b.
Proof.
  induction a as [|x a IH]; [done|]. rewrite string_app_cons. simpl.
  by rewrite IH, orb_assoc.
Qed.

Lemma fields_last (a : string) : has_comma a = false → fields a = [a].
Proof.
  induction a as [|c a IH]; [done|]. simpl.
  intros [Hc Ha]%orb_false_elim. by rewrite Hc, (IH Ha).
Qed.

Lemma fields_field (a rest : string) :
  has_comma a = false → fields (a +:+ "," +:+ rest) = a :: fields rest.
Proof.
  induction a as [|c a IH]; [done|]. rewrite string_app_cons. simpl.
  intros [Hc Ha]%orb_false_elim. by rewrite Hc, (IH Ha).
Qed.

Lemma file_chars_no_comma (s : string) : all_chars is_file_char s = true → has_comma s = false.
Proof.
  induction s as [|c s IH]; [done|]. simpl. intros [Hc Hs]%andb_true_iff.
  rewrite (IH Hs), orb_false_r. apply bool_decide_eq_false. by intros ->.
Qed.

Lemma number_to_string_no_comma (n : Js.number) : has_comma (Js.number_to_string n) = false.
Proof.
  destruct n as [[|x|x]|]; try done; simpl.
  - apply file_chars_no_comma, (pretty_Z_safe (Z.pos x)). lia.
  - change (has_comma ("-" +:+ pretty (Z.pos x)) = false).
    rewrite has_comma_app. simpl. apply file_chars_no_comma, pretty_Z_safe. lia.
Qed.

Lemma fields_plain_line inv :
  has_comma (invoiceNumber inv) = false → has_comma (amount inv) = false →
  fields (plain_line inv)
  = [invoiceNumber inv; amount inv; Js.number_to_string (daysOverdue inv)].
Proof.
  intros Hnumber Hamount. unfold plain_line.
  by rewrite !fields_field, (fields_last _ (number_to_string_no_comma _)).
Qed.

(** X18.  The CSV text of the second script and of [part_000] can be read
    back: when no invoice number and no amount holds a comma or a line
    feed, the lines of the text, each split at its commas, are the three
    column titles and then, for each invoice of the list in order, its
    number, its amount and its days overdue.  (The fields are written
    without quotes, so a comma inside one would add a field.) *)
Theorem csv_rows_can_be_read_back (invoices : list Invoice) :
  Forall (λ inv, single_line inv ∧ has_comma (invoiceNumber inv) = false
                 ∧ has_comma (amount inv) = false) invoices →
  fields <$> lines (Modular.csv_content invoices)
  = ["Invoice Number"; "Amount"; "Days Overdue"]
    :: ((λ inv, [invoiceNumber inv; amount inv; Js.number_to_string (daysOverdue inv)])
          <$> invoices)
  ∧ fields <$> lines (Inline.csv_content invoices)
    = ["Invoice Number"; "Amount"; "Days Overdue"]
      :: ((λ inv, [invoiceNumber inv; amount inv; Js.number_to_string (daysOverdue inv)])
            <$> invoices).
Proof.
  intros Hinvoices.
  destruct (csv_content_rows EmptyString EmptyString invoices) as (_ & Hm & Hi).
  rewrite Hm, Hi.
  assert (Hlines : Forall (λ inv, has_line_feed (plain_line inv) = false) invoices).
  { eapply Forall_impl; [done|]. intros inv [Hsingle _]. by apply plain_line_single. }
  assert (Hfields : fields <$> (plain_line <$> invoices)
            = (λ inv, [invoiceNumber inv; amount inv; Js.number_to_string (daysOverdue inv)])
                <$> invoices).
  { rewrite <- list_fmap_compose. apply Forall_fmap_ext_1.
    eapply Forall_impl; [exact Hinvoices|]. cbn beta. intros inv (_ & Hnumber & Hamount).
    by apply fields_plain_line. }
  split.
  - unfold Modular.csv_header.
    rewrite (lines_header_rows "Invoice Number,Amount,Days Overdue" Modular.csv_row
               plain_line invoices eq_refl
               modular_csv_row_line Hlines).
    csimpl. by rewrite Hfields.
  - unfold Inline.csv_header.
    rewrite (lines_header_rows "Invoice Number,Amount,Days Overdue" Inline.csv_row
               plain_line invoices eq_refl
               inline_csv_row_line Hlines).
    csimpl. by rewrite Hfields.
Qed.

Lemma csv_rows_can_be_read_back_witness :
  fields <$> lines (Modular.csv_content [Sample.invoice_60])
  = [ ["Invoice Number"; "Amount"; "Days Overdue"]; ["INV1"; "100"; "60"] ]
  ∧ fields <$> lines (Inline.csv_content [Sample.invoice_60])
    = [ ["Invoice Number"; "Amount"; "Days Overdue"]; ["INV1"; "100"; "60"] ].
Proof.
  apply (csv_rows_can_be_read_back [Sample.invoice_60]).
  repeat constructor.
Defined.

End Csv_fields.

(** ** C6: the days overdue of the stored invoices *)

Section Clock.
Import Host Run Api Logic Spec.
Context (w : World).

Lemma readings_from_app h0 evs evs' :
  readings_from w h0 (evs ++ evs')
  = readings_from w h0 evs ++ readings_from w (h0 ++ evs) evs'.
Proof.
  revert h0. induction evs as [|ev evs IH]; intros h0; simpl.
  - by rewrite app_nil_r.
  - rewrite IH. by rewrite <- !app_assoc.
Qed.

Lemma readings_snoc h ev :
  readings w (h ++ [ev])
  = readings w h ++ match ev with DateNow => [date_now w h] | _ => [] end.
Proof. unfold readings. rewrite readings_from_app. simpl. by rewrite app_nil_r. Qed.

Lemma summary_of_at h r : summary_of w h r = summary_at w (date_now w h) r.
Proof. unfold summary_of, summary_at, days_overdue. by destruct (date_parse w _). Qed.

Lemma first_rows_snoc pre r :
  first_rows (pre ++ [r])
  = first_rows pre ++ if takes_up (first_rows pre) r then [r] else [].
Proof.
  unfold first_rows. rewrite fold_left_app. simpl.
  destruct (takes_up _ r); [done | by rewrite app_nil_r].
Qed.

Lemma counts_days_nil : counts_days w [] [].
Proof. by intros c. Qed.

Lemma counts_days_push pairs (groups : Groups) r h :
  counts_days w pairs groups →
  counts_days w (pairs ++ [(r, date_now w h)])
    (JsObject.set groups (getValue r "entity")
       (group_of groups (getValue r "entity") ++ [summary_of w h r])).
Proof.
  intros Hg c. rewrite group_of_set, filter_app, fmap_app, filter_cons, filter_nil. simpl.
  case_decide as Hc.
  - subst c. by rewrite Hg, summary_of_at.
  - by rewrite app_nil_r.
Qed.

Lemma counts_days_nonneg pairs (groups : Groups) :
  counts_days w pairs groups → never_early w pairs → no_negative_days groups.
Proof.
  intros Hg Hearly c inv. rewrite (Hg c).
  intros ([r now] & -> & [_ Hp]%list_elem_of_filter)%list_elem_of_fmap.
  destruct (Hearly r now Hp) as (due & Hdue & Hle).
  exists ((now - due) `div` 86400000). simpl. rewrite Hdue. simpl.
  split; [done | apply Z.div_pos; lia].
Qed.

Lemma storable_snoc pairs r now :
  storable (pairs ++ [(r, now)])
  = storable pairs
    ++ if JsObject.inherited (getValue r "entity") then [] else [(r, now)].
Proof.
  unfold storable. rewrite filter_app, filter_cons, filter_nil. simpl.
  destruct (JsObject.inherited (getValue r "entity")); by case_decide.
Qed.

Lemma stored_snoc taken r :
  filter (λ r, JsObject.inherited (getValue r "entity") = false) (taken ++ [r])
  = filter (λ r, JsObject.inherited (getValue r "entity") = false) taken
    ++ if JsObject.inherited (getValue r "entity") then [] else [r].
Proof.
  rewrite filter_app, filter_cons, filter_nil.
  destruct (JsObject.inherited (getValue r "entity")); by case_decide.
Qed.

Lemma fst_set {V} (o : JsObject.t V) k v :
  (JsObject.set o k v).*1 = if decide (k ∈ o.*1) then o.*1 else o.*1 ++ [k].
Proof.
  induction o as [|[k0 v0] o IH]; [done|]. cbn [JsObject.set].
  destruct (decide (k0 = k)) as [->|Hne]; csimpl.
  - by rewrite decide_True by left.
  - rewrite IH. destruct (decide (k ∈ o.*1)) as [Hin|Hout].
    + by rewrite decide_True by (by right).
    + rewrite decide_False; [done|]. intros [?|?]%elem_of_cons; [congruence | done].
Qed.

Lemma customers_of_snoc pre r :
  customers_of (pre ++ [r])
  = if decide (getValue r "entity" ∈ customers_of pre) then customers_of pre
    else customers_of pre ++ [getValue r "entity"].
Proof. unfold customers_of. by rewrite fold_left_app. Qed.

Lemma keys_push {V} (o : JsObject.t V) kept r v :
  o.*1 = customers_of kept →
  (JsObject.set o (getValue r "entity") v).*1 = customers_of (kept ++ [r]).
Proof. intros Hids. by rewrite fst_set, customers_of_snoc, Hids. Qed.

(** The grouping loop of the primary script. *)
Lemma primary_each_days rows h0 :
  wp (each rows (Primary.each_callback w))
    (λ o v h,
       o = Normal ()
       ∧ (Primary.customerInvoices v).*1 = customers_of (stored_rows rows)
       ∧ ∃ nows,
           readings w h = readings w h0 ++ nows
           ∧ length nows = length (first_rows rows)
           ∧ counts_days w (storable (zip (first_rows rows) nows))
               (Primary.customerInvoices v))
    Primary.initial h0.
Proof.
  eapply wp_mono;
    [|apply (wp_each_prefix rows _
               (λ pre v h,
                  (∀ key, is_Some (JsObject.get_own (Primary.processedInvoices v) key)
                          ↔ key ∈ row_key <$> first_rows pre)
                  ∧ (∀ key b, JsObject.get_own (Primary.processedInvoices v) key = Some b →
                       b = true)
                  ∧ (∀ c, is_Some (JsObject.get_own (Primary.customerInvoices v) c) →
                       JsObject.inherited c = false)
                  ∧ (Primary.customerInvoices v).*1 = customers_of (stored_rows pre)
                  ∧ ∃ nows,
                      readings w h = readings w h0 ++ nows
                      ∧ length nows = length (first_rows pre)
                      ∧ counts_days w (storable (zip (first_rows pre) nows))
                          (Primary.customerInvoices v)))].
  - intros o v h (-> & _ & _ & _ & Hids & Hdays). done.
  - intros pre r post v h _ (Hkeys & Htrue & Hown & Hids & nows & Hread & Hlen & Hdays).
    unfold wp. rewrite primary_callback_step. simpl. split; [done|].
    unfold primary_step, stored_rows in *. rewrite first_rows_snoc. unfold takes_up.
    fold (row_key r).
    destruct (Js.truthy (getValue r "entity")) eqn:Hr; simpl.
    2: { rewrite app_nil_r. eauto 10. }
    destruct (Primary.seen (Primary.processedInvoices v) (row_key r)) eqn:Hseen; simpl.
    { assert (Hskip : negb (JsObject.inherited (row_key r))
                      && bool_decide (row_key r ∉ row_key <$> first_rows pre) = false).
      { destruct (JsObject.inherited (row_key r)) eqn:Hinh; [done|]. simpl.
        apply bool_decide_eq_false. intros Hnew. apply Hnew, Hkeys.
        by rewrite (seen_true _ _ Hseen Hinh). }
      rewrite Hskip, app_nil_r. eauto 10. }
    destruct (seen_false _ _ Hseen (Htrue _)) as [Hfresh Hinh].
    assert (Hnew : row_key r ∉ row_key <$> first_rows pre).
    { intros Hin%Hkeys. rewrite Hfresh in Hin. by destruct Hin. }
    rewrite Hinh, (bool_decide_eq_true_2 _ Hnew). simpl.
    assert (Hkeys' : ∀ key,
              is_Some (JsObject.get_own
                         (JsObject.set (Primary.processedInvoices v) (row_key r) true) key)
              ↔ key ∈ row_key <$> (first_rows pre ++ [r])).
    { intros key. rewrite get_own_set, fmap_app, elem_of_app, <- Hkeys. simpl.
      rewrite list_elem_of_singleton. case_decide as Hkey.
      - split; [by right | by eauto].
      - split; [by left | by intros [?|?]]. }
    assert (Htrue' : ∀ key b,
              JsObject.get_own
                (JsObject.set (Primary.processedInvoices v) (row_key r) true) key = Some b →
              b = true).
    { intros key b. rewrite get_own_set. case_decide; [congruence | apply Htrue]. }
    assert (Hzip : zip (first_rows pre ++ [r]) (nows ++ [date_now w h])
                   = zip (first_rows pre) nows ++ [(r, date_now w h)]).
    { by rewrite zip_with_app. }
    assert (Hpush : JsObject.inherited (getValue r "entity") = false →
              (∀ c, is_Some (JsObject.get_own
                               (JsObject.set (Primary.customerInvoices v)
                                  (getValue r "entity")
                                  (group_of (Primary.customerInvoices v)
                                     (getValue r "entity") ++ [summary_of w h r])) c) →
                    JsObject.inherited c = false)
              ∧ (JsObject.set (Primary.customerInvoices v) (getValue r "entity")
                   (group_of (Primary.customerInvoices v) (getValue r "entity")
                    ++ [summary_of w h r])).*1
                = customers_of
                    (filter (λ r, JsObject.inherited (getValue r "entity") = false)
                       (first_rows pre ++ [r]))
              ∧ ∃ nows',
                  readings w (h ++ [DateNow]) = readings w h0 ++ nows'
                  ∧ length nows' = length (first_rows pre ++ [r])
                  ∧ counts_days w (storable (zip (first_rows pre ++ [r]) nows'))
                      (JsObject.set (Primary.customerInvoices v) (getValue r "entity")
                         (group_of (Primary.customerInvoices v) (getValue r "entity")
                          ++ [summary_of w h r]))).
    { intros Hc. split; [|split].
      - intros c. rewrite get_own_set. case_decide; [by subst c | apply Hown].
      - rewrite stored_snoc, Hc. by apply keys_push.
      - exists (nows ++ [date_now w h]).
        rewrite readings_snoc, Hread, <- app_assoc, !length_app, Hlen, Hzip, storable_snoc, Hc.
        split; [done|]. split; [done|]. by apply counts_days_push. }
    destruct (JsObject.get (Primary.customerInvoices v) (getValue r "entity")) as [l| |]
      eqn:Hslot; simpl.
    + split; [done|]. split; [done|]. apply Hpush, Hown.
      apply get_Own in Hslot. by rewrite Hslot.
    + apply get_Inherited in Hslot as [_ Hc].
      split; [done|]. split; [done|]. split; [done|]. split.
      { by rewrite stored_snoc, Hc, app_nil_r. }
      exists (nows ++ [date_now w h]).
      change (h ++ [DateNow; ?ev]) with (h ++ ([DateNow] ++ [ev])).
      rewrite app_assoc, !readings_snoc, app_nil_r, Hread, <- app_assoc, !length_app, Hlen,
        Hzip, storable_snoc, Hc, app_nil_r.
      done.
    + split; [done|]. split; [done|]. apply Hpush.
      by apply get_Undefined in Hslot as [_ Hc].
  - split; [|split; [done|split; [|split; [done|]]]].
    + intros key. simpl. split; [by intros [? ?] | by intros ?%elem_of_nil].
    + intros c [? ?]. done.
    + exists []. rewrite app_nil_r. split; [done|]. split; [done|]. apply counts_days_nil.
Qed.

(** [searchOverdueInvoices], when the search succeeds. *)
Lemma primary_search_days rows h0 :
  search_run w Primary.search_options = inr rows →
  ∃ groups h nows,
    Primary.searchOverdueInvoices w () h0 = (Normal groups, (), h)
    ∧ groups.*1 = customers_of (stored_rows rows)
    ∧ readings w h = readings w h0 ++ nows
    ∧ length nows = length (first_rows rows)
    ∧ counts_days w (storable (zip (first_rows rows) nows)) groups.
Proof.
  intros Hsearch.
  assert (Hbody : wp (Primary.searchOverdueInvoices_body w)
            (λ o v h,
               o = Normal (Primary.customerInvoices v)
               ∧ (Primary.customerInvoices v).*1 = customers_of (stored_rows rows)
               ∧ ∃ nows,
                   readings w h = readings w h0 ++ nows
                   ∧ length nows = length (first_rows rows)
                   ∧ counts_days w (storable (zip (first_rows rows) nows))
                       (Primary.customerInvoices v))
            Primary.initial h0).
  { unfold Primary.searchOverdueInvoices_body. wp_steps.
    apply wp_host; [|congruence]. intros rows' Hrows'. cbn beta iota.
    assert (rows' = rows) as -> by congruence.
    wp_step. eapply wp_mono; [|apply (primary_each_days rows)].
    intros o v h (-> & Hids & nows & Hread & Hlen & Hdays). wp_steps.
    eapply wp_mono;
      [|apply (wp_for_each _ _
                 (λ v' h', v' = v ∧ readings w h' = readings w h0 ++ nows))].
    - intros o v' h' (-> & -> & Hread'). wp_steps. eauto 10.
    - intros customerId v' h' _ [-> Hread']. unfold Primary.log_customer_invoices. wp_steps.
      split; [done|]. split; [done|]. by rewrite readings_snoc, app_nil_r.
    - split; [done|]. rewrite !readings_snoc, !app_nil_r in *. done. }
  unfold wp in Hbody. unfold Primary.searchOverdueInvoices, call.
  destruct (Primary.searchOverdueInvoices_body w Primary.initial h0) as [[o v] h].
  simpl in Hbody. destruct Hbody as (-> & Hids & nows & Hread & Hlen & Hdays).
  by exists (Primary.customerInvoices v), h, nows.
Qed.

(** The grouping loop of the second script, on rows whose customer
    identifiers are no member names of [Object.prototype]. *)
Lemma modular_each_days rows h0 :
  (∀ r, r ∈ rows → JsObject.inherited (getValue r "entity") = false) →
  wp (each rows (Modular.each_callback w))
    (λ o groups h,
       o = Normal ()
       ∧ groups.*1 = customers_of (with_customer rows)
       ∧ ∃ nows,
           readings w h = readings w h0 ++ nows
           ∧ length nows = length (with_customer rows)
           ∧ counts_days w (zip (with_customer rows) nows) groups)
    [] h0.
Proof.
  intros Hrows.
  apply (wp_each_prefix rows _
           (λ pre groups h,
              groups.*1 = customers_of (with_customer pre)
              ∧ ∃ nows,
                  readings w h = readings w h0 ++ nows
                  ∧ length nows = length (with_customer pre)
                  ∧ counts_days w (zip (with_customer pre) nows) groups)).
  2: { split; [done|]. exists []. rewrite app_nil_r. split; [done|]. split; [done|].
       apply counts_days_nil. }
  intros pre r post groups h Hsplit (Hids & nows & Hread & Hlen & Hdays). unfold wp.
  rewrite modular_callback_step. unfold modular_step. rewrite with_customer_snoc.
  destruct (Js.truthy (getValue r "entity")) eqn:Hr; simpl.
  2: { rewrite app_nil_r. eauto 10. }
  assert (Hinh : JsObject.inherited (getValue r "entity") = false).
  { apply Hrows. rewrite Hsplit. apply elem_of_app. right. left. }
  assert (Hnext : (JsObject.set groups (getValue r "entity")
                     (group_of groups (getValue r "entity") ++ [summary_of w h r])).*1
                  = customers_of (with_customer pre ++ [r])
            ∧ ∃ nows',
                readings w (h ++ [DateNow]) = readings w h0 ++ nows'
                ∧ length nows' = length (with_customer pre ++ [r])
                ∧ counts_days w (zip (with_customer pre ++ [r]) nows')
                    (JsObject.set groups (getValue r "entity")
                       (group_of groups (getValue r "entity") ++ [summary_of w h r]))).
  { split; [by apply keys_push|]. exists (nows ++ [date_now w h]).
    rewrite readings_snoc, Hread, <- app_assoc, !length_app, Hlen, zip_with_app by done.
    split; [done|]. split; [done|]. by apply counts_days_push. }
  destruct (JsObject.get groups (getValue r "entity")) as [l| |] eqn:Hslot; simpl.
  - done.
  - apply get_Inherited in Hslot as [_ Hslot]. congruence.
  - done.
Qed.

(** The grouping loop of [part_000], on such rows. *)
Lemma inline_each_days rows h0 :
  (∀ r, r ∈ rows → JsObject.inherited (getValue r "entity") = false) →
  wp (each rows (Inline.each_callback w))
    (λ o v h,
       o = Normal ()
       ∧ Inline.invoiceCount v = Z.of_nat (length (with_customer rows))
       ∧ (Inline.customerInvoices v).*1 = customers_of (with_customer rows)
       ∧ ∃ nows,
           readings w h = readings w h0 ++ nows
           ∧ length nows = length (with_customer rows)
           ∧ counts_days w (zip (with_customer rows) nows) (Inline.customerInvoices v))
    Inline.initial h0.
Proof.
  intros Hrows.
  apply (wp_each_prefix rows _
           (λ pre v h,
              Inline.invoiceCount v = Z.of_nat (length (with_customer pre))
              ∧ (Inline.customerInvoices v).*1 = customers_of (with_customer pre)
              ∧ ∃ nows,
                  readings w h = readings w h0 ++ nows
                  ∧ length nows = length (with_customer pre)
                  ∧ counts_days w (zip (with_customer pre) nows) (Inline.customerInvoices v))).
  2: { split; [done|]. split; [done|]. exists []. rewrite app_nil_r. split; [done|].
       split; [done|]. apply counts_days_nil. }
  intros pre r post v h Hsplit (Hcount & Hids & nows & Hread & Hlen & Hdays). unfold wp.
  rewrite inline_callback_step. unfold inline_step. rewrite with_customer_snoc.
  destruct (Js.truthy (getValue r "entity")) eqn:Hr; simpl.
  2: { rewrite app_nil_r, readings_snoc, app_nil_r. eauto 10. }
  assert (Hinh : JsObject.inherited (getValue r "entity") = false).
  { apply Hrows. rewrite Hsplit. apply elem_of_app. right. left. }
  assert (Hnext : ∀ level title details,
            Inline.invoiceCount v + 1 = Z.of_nat (length (with_customer pre ++ [r]))
            ∧ (JsObject.set (Inline.customerInvoices v) (getValue r "entity")
                 (group_of (Inline.customerInvoices v) (getValue r "entity")
                  ++ [summary_of w h r])).*1
              = customers_of (with_customer pre ++ [r])
            ∧ ∃ nows',
                readings w (h ++ [DateNow; Log level title details])
                = readings w h0 ++ nows'
                ∧ length nows' = length (with_customer pre ++ [r])
                ∧ counts_days w (zip (with_customer pre ++ [r]) nows')
                    (JsObject.set (Inline.customerInvoices v) (getValue r "entity")
                       (group_of (Inline.customerInvoices v) (getValue r "entity")
                        ++ [summary_of w h r]))).
  { intros level title details. split; [rewrite length_app; simpl; lia|].
    split; [by apply keys_push|]. exists (nows ++ [date_now w h]).
    change (h ++ [DateNow; ?ev]) with (h ++ ([DateNow] ++ [ev])).
    rewrite app_assoc, !readings_snoc, app_nil_r, Hread, <- app_assoc, !length_app, Hlen,
      zip_with_app by done.
    split; [done|]. split; [done|]. by apply counts_days_push. }
  destruct (JsObject.get (Inline.customerInvoices v) (getValue r "entity")) as [l| |] eqn:Hslot;
    simpl.
  - done.
  - apply get_Inherited in Hslot as [_ Hslot]. congruence.
  - done.
Qed.

(** [getOverdueInvoices] on such rows. *)
Lemma modular_search_days rows h0 :
  search_run w Modular.search_options = inr rows →
  (∀ r, r ∈ rows → JsObject.inherited (getValue r "entity") = false) →
  ∃ groups h nows,
    Modular.getOverdueInvoices w () h0 = (Normal groups, (), h)
    ∧ groups.*1 = customers_of (with_customer rows)
    ∧ readings w h = readings w h0 ++ nows
    ∧ length nows = length (with_customer rows)
    ∧ counts_days w (zip (with_customer rows) nows) groups.
Proof.
  intros Hsearch Hrows.
  pose proof (modular_each_days rows (h0 ++ [SearchRun Modular.search_options]) Hrows)
    as Hwp.
  unfold wp in Hwp.
  unfold Modular.getOverdueInvoices, search_create_run, call, bind, host, gets.
  rewrite Hsearch.
  destruct (each rows (Modular.each_callback w) [] (h0 ++ [SearchRun Modular.search_options]))
    as [[o groups] h]. simpl in Hwp.
  destruct Hwp as (-> & Hids & nows & Hread & Hlen & Hdays).
  rewrite readings_snoc, app_nil_r in Hread.
  by exists groups, h, nows.
Qed.

(** The grouping stage of [part_000] on such rows. *)
Lemma inline_group_days rows h0 :
  search_run w Inline.search_options = inr rows →
  (∀ r, r ∈ rows → JsObject.inherited (getValue r "entity") = false) →
  ∃ v h nows,
    Inline.group_invoices w Inline.initial h0 = (Normal (), v, h)
    ∧ Inline.invoiceCount v = Z.of_nat (length (with_customer rows))
    ∧ (Inline.customerInvoices v).*1 = customers_of (with_customer rows)
    ∧ readings w h = readings w h0 ++ nows
    ∧ length nows = length (with_customer rows)
    ∧ counts_days w (zip (with_customer rows) nows) (Inline.customerInvoices v).
Proof.
  intros Hsearch Hrows.
  pose proof (inline_each_days rows (h0 ++ [SearchRun Inline.search_options]) Hrows)
    as Hwp.
  unfold wp in Hwp.
  unfold Inline.group_invoices, search_create_run, bind, host. rewrite Hsearch.
  destruct (each rows (Inline.each_callback w) Inline.initial
              (h0 ++ [SearchRun Inline.search_options])) as [[o v] h]. simpl in Hwp.
  destruct Hwp as (-> & Hcount & Hids & nows & Hread & Hlen & Hdays).
  rewrite readings_snoc, app_nil_r in Hread.
  by exists v, h, nows.
Qed.

End Clock.

Section Days_counted.
Import Host Run Api Logic Spec.

(** C6.  The days overdue of the invoices that a script stores.  When the
    search delivers [rows], the grouping ends normally and reads the clock
    once for each row that it takes up; the list of each customer holds, in
    the order of the search, the summaries of the customer's rows, each with
    daysOverdue = floor((now - dueDate) / 86400000), where [now] is the
    reading of the clock made for the row and [dueDate] the time value that
    [new Date] gives for the row's due date, and with no number (NaN) when
    [new Date] cannot read the due date.  So no daysOverdue is negative
    when every due date can be read and no reading is before the due date
    of its row.  The primary script takes up the first row of each
    deduplication key and stores it unless the customer identifier is a
    member name of [Object.prototype]; the two other scripts take up every
    row with a customer, none of them named so. *)
Theorem days_overdue_is_floor_and_nonnegative (w : World) (h0 : History)
    (rows : list Values) :
  (search_run w Primary.search_options = inr rows →
   ∃ groups h nows,
     Primary.searchOverdueInvoices w () h0 = (Normal groups, (), h)
     ∧ readings w h = readings w h0 ++ nows
     ∧ length nows = length (first_rows rows)
     ∧ counts_days w (storable (zip (first_rows rows) nows)) groups
     ∧ (never_early w (storable (zip (first_rows rows) nows)) → no_negative_days groups))
  ∧ ((∀ r, r ∈ rows → JsObject.inherited (getValue r "entity") = false) →
     (search_run w Modular.search_options = inr rows →
      ∃ groups h nows,
        Modular.getOverdueInvoices w () h0 = (Normal groups, (), h)
        ∧ readings w h = readings w h0 ++ nows
        ∧ length nows = length (with_customer rows)
        ∧ counts_days w (zip (with_customer rows) nows) groups
        ∧ (never_early w (zip (with_customer rows) nows) → no_negative_days groups))
     ∧ (search_run w Inline.search_options = inr rows →
        ∃ v h nows,
          Inline.group_invoices w Inline.initial h0 = (Normal (), v, h)
          ∧ readings w h = readings w h0 ++ nows
          ∧ length nows = length (with_customer rows)
          ∧ counts_days w (zip (with_customer rows) nows) (Inline.customerInvoices v)
          ∧ (never_early w (zip (with_customer rows) nows)
             → no_negative_days (Inline.customerInvoices v)))).
Proof.
  split; [|intros Hrows; split]; intros Hsearch.
  - destruct (primary_search_days w rows h0 Hsearch)
      as (groups & h & nows & Hrun & _ & Hread & Hlen & Hdays).
    exists groups, h, nows. repeat (split; [done|]). by apply counts_days_nonneg.
  - destruct (modular_search_days w rows h0 Hsearch Hrows)
      as (groups & h & nows & Hrun & _ & Hread & Hlen & Hdays).
    exists groups, h, nows. repeat (split; [done|]). by apply counts_days_nonneg.
  - destruct (inline_group_days w rows h0 Hsearch Hrows)
      as (v & h & nows & Hrun & _ & _ & Hread & Hlen & Hdays).
    exists v, h, nows. repeat (split; [done|]). by apply counts_days_nonneg.
Qed.

Lemma days_overdue_is_floor_and_nonnegative_witness :
  (∃ h,
     Primary.searchOverdueInvoices (Sample.world Sample.mixed_rows) () []
     = (Normal [ ("1", [ {| invoiceNumber := "INV1"; amount := "100";
                            daysOverdue := Js.Num 60 |};
                         {| invoiceNumber := "INV2"; amount := "200";
                            daysOverdue := Js.Num 60 |} ]);
                 ("3", [ {| invoiceNumber := "INV3"; amount := "300";
                            daysOverdue := Js.Num 60 |} ]) ], (), h)
     ∧ readings (Sample.world Sample.mixed_rows) h = [Sample.mar1; Sample.mar1; Sample.mar1]
     ∧ no_negative_days
         [ ("1", [ {| invoiceNumber := "INV1"; amount := "100"; daysOverdue := Js.Num 60 |};
                   {| invoiceNumber := "INV2"; amount := "200"; daysOverdue := Js.Num 60 |} ]);
           ("3", [ {| invoiceNumber := "INV3"; amount := "300";
                      daysOverdue := Js.Num 60 |} ]) ])
  ∧ ∃ v h nows,
      Inline.group_invoices (Sample.world Sample.mixed_rows) Inline.initial []
      = (Normal (), v, h)
      ∧ readings (Sample.world Sample.mixed_rows) h = [] ++ nows
      ∧ length nows = length (with_customer Sample.mixed_rows)
      ∧ counts_days (Sample.world Sample.mixed_rows)
          (zip (with_customer Sample.mixed_rows) nows) (Inline.customerInvoices v)
      ∧ (never_early (Sample.world Sample.mixed_rows)
           (zip (with_customer Sample.mixed_rows) nows)
         → no_negative_days (Inline.customerInvoices v)).
Proof.
  destruct (days_overdue_is_floor_and_nonnegative (Sample.world Sample.mixed_rows) []
              Sample.mixed_rows) as [Hprimary Hothers].
  split.
  - destruct (Hprimary eq_refl) as (groups & h & nows & Hrun & Hread & _ & _ & Hpositive).
    vm_compute in Hrun. injection Hrun as <- <-.
    vm_compute in Hread. subst nows.
    eexists. split; [vm_compute; reflexivity|]. split; [vm_compute; reflexivity|].
    apply Hpositive. intros r now Hin. vm_compute in Hin.
    exists Sample.jan1.
    repeat (apply elem_of_cons in Hin as [[= -> ->]|Hin]; [by vm_compute|]).
    by apply elem_of_nil in Hin.
  - destruct Hothers as [_ Hinline].
    + intros r Hr. unfold Sample.mixed_rows in Hr.
      repeat (apply elem_of_cons in Hr as [->|Hr]; [reflexivity|]).
      by apply elem_of_nil in Hr.
    + exact (Hinline eq_refl).
Defined.

(** C6, as stated, fails for an invoice whose due date [new Date] cannot
    read (a date written day first): its daysOverdue is no number, so it
    is neither the floor of a quotient nor non-negative, and the CSV text
    carries NaN. *)
Lemma unreadable_due_date_has_no_days :
  (∃ h, Primary.searchOverdueInvoices (Sample.world Sample.day_first_rows) () []
        = (Normal [("1", [ {| invoiceNumber := "INV1"; amount := "100";
                              daysOverdue := Js.NaN |} ])], (), h))
  ∧ (∃ h, Modular.getOverdueInvoices (Sample.world Sample.day_first_rows) () []
          = (Normal [("1", [ {| invoiceNumber := "INV1"; amount := "100";
                                daysOverdue := Js.NaN |} ])], (), h))
  ∧ (∃ n h, Inline.group_invoices (Sample.world Sample.day_first_rows) Inline.initial []
            = (Normal (),
               {| Inline.customerInvoices :=
                    [("1", [ {| invoiceNumber := "INV1"; amount := "100";
                                daysOverdue := Js.NaN |} ])];
                  Inline.invoiceCount := n |}, h))
  ∧ ¬ no_negative_days
        [("1", [ {| invoiceNumber := "INV1"; amount := "100"; daysOverdue := Js.NaN |} ])]
  ∧ Modular.csv_content
      [ {| invoiceNumber := "INV1"; amount := "100"; daysOverdue := Js.NaN |} ]
    = "Invoice Number,Amount,Days Overdue" +:+ Js.LF +:+ "INV1,100,NaN" +:+ Js.LF.
Proof.
  split; [|split; [|split; [|split]]].
  - eexists. vm_compute. reflexivity.
  - eexists. vm_compute. reflexivity.
  - do 2 eexists. vm_compute. reflexivity.
  - intros Hdays.
    destruct (Hdays "1" {| invoiceNumber := "INV1"; amount := "100"; daysOverdue := Js.NaN |})
      as (days & Hnumber & _); [left | discriminate].
  - reflexivity.
Qed.

End Days_counted.

(** ** Which row the primary script keeps *)

Section First_row.
Import Host Run Api Logic Spec.

Lemma first_rows_taken pre r :
  r ∈ first_rows pre → r ∈ pre ∧ Js.truthy (getValue r "entity") = true.
Proof.
  induction pre as [|x pre IH] using rev_ind; [by intros ?%elem_of_nil|].
  rewrite first_rows_snoc, !elem_of_app. intros [Hin|Hin].
  - destruct (IH Hin). auto.
  - destruct (takes_up (first_rows pre) x) eqn:Hx; [|by apply elem_of_nil in Hin].
    apply list_elem_of_singleton in Hin as ->. split; [right; left|].
    unfold takes_up in Hx. by destruct (Js.truthy (getValue x "entity")).
Qed.

Lemma first_rows_keys pre r :
  r ∈ pre → Js.truthy (getValue r "entity") = true →
  JsObject.inherited (row_key r) = false →
  row_key r ∈ row_key <$> first_rows pre.
Proof.
  induction pre as [|x pre IH] using rev_ind; [by intros ?%elem_of_nil|].
  rewrite first_rows_snoc, fmap_app, !elem_of_app.
  intros [Hin| ->%list_elem_of_singleton] Hr Hkey; [left; by apply IH|].
  unfold takes_up. rewrite Hr, Hkey. simpl. case_bool_decide as Hnew.
  - right. apply list_elem_of_fmap_2. left.
  - by left.
Qed.

Lemma first_rows_app pre post : ∃ more, first_rows (pre ++ post) = first_rows pre ++ more.
Proof.
  induction post as [|x post [more IH]] using rev_ind.
  - exists []. by rewrite !app_nil_r.
  - eexists. by rewrite app_assoc, first_rows_snoc, IH, <- app_assoc.
Qed.

(** The rows taken up are the first rows of the keys that are no member
    names of [Object.prototype]. *)
Lemma first_rows_first rows r :
  r ∈ first_rows rows ↔ first_of_key rows r ∧ JsObject.inherited (row_key r) = false.
Proof.
  split.
  - induction rows as [|x rows IH] using rev_ind; [by intros ?%elem_of_nil|].
    rewrite first_rows_snoc, elem_of_app. intros [Hin|Hin].
    + destruct (IH Hin) as [(pre & post & -> & Hr & Hfirst) Hkey]. split; [|done].
      exists pre, (post ++ [x]). by rewrite <- app_assoc.
    + destruct (takes_up (first_rows rows) x) eqn:Hx; [|by apply elem_of_nil in Hin].
      apply list_elem_of_singleton in Hin as ->. unfold takes_up in Hx.
      destruct (Js.truthy (getValue x "entity")) eqn:Hr; [|done].
      destruct (JsObject.inherited (row_key x)) eqn:Hkey; [done|].
      simpl in Hx. apply bool_decide_eq_true in Hx. split; [|done].
      exists rows, []. split; [done|]. split; [done|].
      intros r' Hr' Htruthy Heq. apply Hx. rewrite <- Heq.
      apply first_rows_keys; [done | done | by rewrite Heq].
  - intros [(pre & post & -> & Hr & Hfirst) Hkey].
    destruct (first_rows_app (pre ++ [r]) post) as [more Hmore].
    rewrite <- app_assoc in Hmore. simpl in Hmore. rewrite Hmore, first_rows_snoc.
    unfold takes_up. rewrite Hr, Hkey. simpl. rewrite bool_decide_eq_true_2.
    + rewrite !elem_of_app. left. right. left.
    + intros (r' & Heq & [Hin Htruthy]%first_rows_taken)%list_elem_of_fmap.
      by apply (Hfirst r').
Qed.

Lemma elem_of_zip_same {A B} (l : list A) (k : list B) x :
  length k = length l → x ∈ l → ∃ y, (x, y) ∈ zip l k.
Proof.
  intros Hlen [i Hi]%list_elem_of_lookup.
  destruct (lookup_lt_is_Some_2 k i) as [y Hy].
  { rewrite Hlen. by eapply lookup_lt_Some. }
  exists y. apply list_elem_of_lookup. exists i.
  apply lookup_zip_with_Some. eauto.
Qed.

(** X19.  Of the rows with one deduplication key the primary script
    keeps the first, and only the first.  When the search succeeds,
    [searchOverdueInvoices] returns groups in which the list of a customer
    holds the summary of every row of the customer that is the first of its
    key (its invoice number, its amount, and the days overdue counted at a
    reading of the clock of this run), unless the customer identifier or
    the key is a member name of [Object.prototype]; every summary of a list
    is the summary of such a first row; and no list holds an invoice number
    twice.  So of an invoice that comes twice with different amounts, the
    amount of the first row is kept and the other is dropped. *)
Theorem primary_keeps_the_first_row (w : World) (h0 : History) (rows : list Values) :
  search_run w Primary.search_options = inr rows →
  ∃ groups h nows,
    Primary.searchOverdueInvoices w () h0 = (Normal groups, (), h)
    ∧ readings w h = readings w h0 ++ nows
    ∧ (∀ r, first_of_key rows r →
         JsObject.inherited (getValue r "entity") = false →
         JsObject.inherited (row_key r) = false →
         ∃ now, now ∈ nows ∧ summary_at w now r ∈ group_of groups (getValue r "entity"))
    ∧ (∀ customerId inv, inv ∈ group_of groups customerId →
         ∃ r now, first_of_key rows r ∧ getValue r "entity" = customerId
                  ∧ now ∈ nows ∧ inv = summary_at w now r)
    ∧ (∀ customerId, NoDup (invoiceNumber <$> group_of groups customerId)).
Proof.
  intros Hsearch.
  destruct (primary_search_days w rows h0 Hsearch)
    as (groups & h & nows & Hrun & _ & Hread & Hlen & Hdays).
  exists groups, h, nows. split; [done|]. split; [done|]. split; [|split].
  - intros r Hfirst Hc Hkey.
    destruct (elem_of_zip_same (first_rows rows) nows r Hlen) as [now Hpair].
    { by apply first_rows_first. }
    exists now. split; [by eapply elem_of_zip_r|].
    rewrite (Hdays (getValue r "entity")).
    apply list_elem_of_fmap. exists (r, now). split; [done|].
    apply list_elem_of_filter. split; [done|]. by apply list_elem_of_filter.
  - intros c inv. rewrite (Hdays c).
    intros ([r now] & -> & [Hc [_ Hpair]%list_elem_of_filter]%list_elem_of_filter)
             %list_elem_of_fmap.
    exists r, now. split; [|split; [done|split; [by eapply elem_of_zip_r | done]]].
    by apply (first_rows_first rows r), (elem_of_zip_l _ _ _ _ Hpair).
  - intros c. pose proof (primary_search_body w h0) as Hwp. unfold wp in Hwp.
    unfold Primary.searchOverdueInvoices, call in Hrun.
    destruct (Primary.searchOverdueInvoices_body w Primary.initial h0) as [[o v] h'].
    simpl in Hwp. simplify_eq. destruct Hwp as (rows' & _ & -> & Hinv).
    unfold group_of.
    destruct (JsObject.get_own (Primary.customerInvoices v) c) as [l|] eqn:Hl; simpl;
      [by apply (inv_nodup _ _ _ _ _ Hinv c) | constructor].
Qed.

Lemma primary_keeps_the_first_row_witness :
  ∃ groups h nows,
    Primary.searchOverdueInvoices (Sample.world Sample.repriced_rows) () []
    = (Normal groups, (), h)
    ∧ readings (Sample.world Sample.repriced_rows) h = [] ++ nows
    ∧ (∀ r, first_of_key Sample.repriced_rows r →
         JsObject.inherited (getValue r "entity") = false →
         JsObject.inherited (row_key r) = false →
         ∃ now, now ∈ nows
                ∧ summary_at (Sample.world Sample.repriced_rows) now r
                  ∈ group_of groups (getValue r "entity"))
    ∧ (∀ customerId inv, inv ∈ group_of groups customerId →
         ∃ r now, first_of_key Sample.repriced_rows r ∧ getValue r "entity" = customerId
                  ∧ now ∈ nows ∧ inv = summary_at (Sample.world Sample.repriced_rows) now r)
    ∧ (∀ customerId, NoDup (invoiceNumber <$> group_of groups customerId)).
Proof.
  apply (primary_keeps_the_first_row (Sample.world Sample.repriced_rows) []
           Sample.repriced_rows).
  reflexivity.
Defined.

(** The run of the witness: of the two rows of invoice INV1, with the
    amounts 100 and 250, the first one is kept. *)
Example first_amount_is_kept :
  ∃ h, Primary.searchOverdueInvoices (Sample.world Sample.repriced_rows) () []
       = (Normal [("1", [Sample.invoice_60])], (), h).
Proof. eexists. vm_compute. reflexivity. Qed.

End First_row.

(** ** The groups of the primary script when no key comes twice *)

Section Primary_partition.
Import Host Run Api Logic Spec.
Context (w : World).

Lemma primary_each_partitions rows h0 :
  (∀ r, r ∈ rows →
     JsObject.inherited (getValue r "entity") = false
     ∧ JsObject.inherited
         (Primary.invoiceKey (getValue r "entity") (getValue r "tranid")) = false) →
  NoDup ((λ r, Primary.invoiceKey (getValue r "entity") (getValue r "tranid"))
           <$> with_customer rows) →
  wp (each rows (Primary.each_callback w))
    (λ o v h, o = Normal () ∧ partitions rows (Primary.customerInvoices v))
    Primary.initial h0.
Proof.
  intros Hrows Hkeys.
  eapply wp_mono;
    [|apply (wp_each_prefix rows _
               (λ pre v h,
                  partitions pre (Primary.customerInvoices v)
                  ∧ ∀ key, is_Some (JsObject.get_own (Primary.processedInvoices v) key) →
                      key ∈ (λ r, Primary.invoiceKey (getValue r "entity")
                                    (getValue r "tranid")) <$> with_customer pre))].
  - intros o v h (-> & Hp & _). done.
  - intros pre r post v h Hsplit [Hp Hprocessed]. unfold wp.
    rewrite primary_callback_step. simpl. split; [done|].
    unfold primary_step. rewrite with_customer_snoc.
    destruct (Js.truthy (getValue r "entity")) eqn:Hr; simpl.
    2: { rewrite app_nil_r. split; [by apply partitions_skip | done]. }
    destruct (Hrows r) as [Hinh_c Hinh_k];
      [rewrite Hsplit; apply elem_of_app; right; left|].
    assert (Hfresh : JsObject.get_own (Primary.processedInvoices v)
                       (Primary.invoiceKey (getValue r "entity") (getValue r "tranid"))
                     = None).
    { apply eq_None_not_Some. intros Hsome%Hprocessed.
      rewrite Hsplit in Hkeys.
      replace (pre ++ r :: post) with ((pre ++ [r]) ++ post) in Hkeys
        by by rewrite <- app_assoc.
      unfold with_customer in Hkeys. rewrite filter_app in Hkeys.
      fold (with_customer (pre ++ [r])) in Hkeys.
      rewrite with_customer_snoc, Hr, !fmap_app in Hkeys.
      apply NoDup_app in Hkeys as [Hkeys _]. apply NoDup_app in Hkeys as (_ & Hkeys & _).
      apply (Hkeys _ Hsome). left. }
    assert (Hseen : Primary.seen (Primary.processedInvoices v)
                      (Primary.invoiceKey (getValue r "entity") (getValue r "tranid"))
                    = false).
    { unfold Primary.seen, JsObject.get. by rewrite Hfresh, Hinh_k. }
    rewrite Hseen.
    assert (Hprocessed' : ∀ key,
              is_Some (JsObject.get_own
                         (JsObject.set (Primary.processedInvoices v)
                            (Primary.invoiceKey (getValue r "entity") (getValue r "tranid"))
                            true) key) →
              key ∈ (λ r, Primary.invoiceKey (getValue r "entity") (getValue r "tranid"))
                      <$> (with_customer pre ++ [r])).
    { intros key. rewrite get_own_set, fmap_app, elem_of_app. case_decide as Hkey.
      - intros _. right. subst key. left.
      - intros Hsome. left. by apply Hprocessed. }
    destruct (JsObject.get (Primary.customerInvoices v) (getValue r "entity")) as [l| |] eqn:Hslot;
      simpl.
    + split; [by apply partitions_push | done].
    + apply get_Inherited in Hslot as [_ Hslot]. congruence.
    + split; [by apply partitions_push | done].
  - split; [apply partitions_nil|]. by intros key [? ?].
Qed.

End Primary_partition.

Section Primary_partition_results.
Import Host Run Api Logic Spec.

(** X20.  The primary script loses no invoice when the search delivers
    none twice: when the keys of the rows that have a customer identifier
    are pairwise different, and no customer identifier and no key is a
    member name of [Object.prototype], [searchOverdueInvoices] returns
    groups whose keys are the customer identifiers of these rows, and the
    list of each customer holds the invoice number and the amount of each
    of the customer's rows, in the order of the search (as the two other
    scripts do). *)
Theorem primary_groups_partition_distinct_rows (w : World) (h0 : History)
    (rows : list Values) :
  search_run w Primary.search_options = inr rows →
  (∀ r, r ∈ rows →
     JsObject.inherited (getValue r "entity") = false
     ∧ JsObject.inherited
         (Primary.invoiceKey (getValue r "entity") (getValue r "tranid")) = false) →
  NoDup ((λ r, Primary.invoiceKey (getValue r "entity") (getValue r "tranid"))
           <$> with_customer rows) →
  ∃ groups h,
    Primary.searchOverdueInvoices w () h0 = (Normal groups, (), h)
    ∧ (∀ customerId,
         customerId ∈ JsObject.keys groups
         ↔ ∃ r, r ∈ rows ∧ Js.truthy (getValue r "entity") = true
                ∧ getValue r "entity" = customerId)
    ∧ (∀ customerId,
         (λ inv, (invoiceNumber inv, amount inv)) <$> group_of groups customerId
         = (λ r, (getValue r "tranid", getValue r "amount"))
             <$> filter (λ r, getValue r "entity" = customerId) (with_customer rows)).
Proof.
  intros Hsearch Hrows Hkeys.
  assert (Hbody : wp (Primary.searchOverdueInvoices_body w)
            (λ o v h,
               o = Normal (Primary.customerInvoices v)
               ∧ partitions rows (Primary.customerInvoices v))
            Primary.initial h0).
  { unfold Primary.searchOverdueInvoices_body. wp_steps.
    apply wp_host; [|congruence]. intros rows' Hrows'. cbn beta iota.
    assert (rows' = rows) as -> by congruence.
    wp_step. eapply wp_mono; [|by apply primary_each_partitions].
    intros o v h [-> Hp]. wp_steps.
    eapply wp_mono; [|apply (wp_for_each _ _ (λ v' _, v' = v))]; [| |done].
    - intros o v' h' [-> ->]. by wp_steps.
    - intros customerId v' h' _ ->. unfold Primary.log_customer_invoices. by wp_steps. }
  unfold wp in Hbody. unfold Primary.searchOverdueInvoices, call.
  destruct (Primary.searchOverdueInvoices_body w Primary.initial h0) as [[o v] h].
  simpl in Hbody. destruct Hbody as [-> Hp].
  exists (Primary.customerInvoices v), h. split; [done|].
  split; [intros c; by apply partitions_keys | apply Hp].
Qed.

Lemma primary_groups_partition_distinct_rows_witness :
  ∃ groups h,
    Primary.searchOverdueInvoices (Sample.world Sample.mixed_rows) () []
    = (Normal groups, (), h)
    ∧ (∀ customerId,
         customerId ∈ JsObject.keys groups
         ↔ ∃ r, r ∈ Sample.mixed_rows ∧ Js.truthy (getValue r "entity") = true
                ∧ getValue r "entity" = customerId)
    ∧ (∀ customerId,
         (λ inv, (invoiceNumber inv, amount inv)) <$> group_of groups customerId
         = (λ r, (getValue r "tranid", getValue r "amount"))
             <$> filter (λ r, getValue r "entity" = customerId)
                   (with_customer Sample.mixed_rows)).
Proof.
  apply (primary_groups_partition_distinct_rows (Sample.world Sample.mixed_rows) []
           Sample.mixed_rows).
  - reflexivity.
  - intros r Hr. unfold Sample.mixed_rows in Hr.
    repeat (apply elem_of_cons in Hr as [->|Hr]; [by split|]).
    by apply elem_of_nil in Hr.
  - apply (bool_decide_unpack _). vm_compute. exact I.
Defined.

End Primary_partition_results.

(** ** What sender resolution leaves in the history *)

Section Sender_trace.
Import Host Run Api Logic Spec.

(** X21.  The host calls of sender resolution.  Without a sales rep
    [getSenderId] makes no host call in either script.  With one, it reads
    the employee once; the primary script then writes an audit entry when
    the employee has no email and an error entry when the lookup fails, so
    every fallback to the administrator for an assigned sales rep is in
    the log; the second script writes the error entry only, and falls back
    silently when the employee has no email. *)
Theorem sender_resolution_in_the_history (w : World) (h : History)
    (salesRepId customerName : string) :
  history_after (Primary.getSenderId w None customerName) () h = h
  ∧ history_after (Modular.getSenderId w EmptyString) () h = h
  ∧ (Js.truthy salesRepId = true →
     history_after (Primary.getSenderId w (Some salesRepId) customerName) () h
     = h ++ LookupFields EMPLOYEE salesRepId
          :: match lookup_employee w h salesRepId with
             | inr salesRepEmail =>
                 if Js.truthy salesRepEmail then []
                 else [ Log AUDIT "Sales Rep Missing Email"
                          (Some ("Sales rep for customer " +:+ customerName
                                 +:+ " has no email. Using admin ID.")) ]
             | inl e =>
                 [ Log ERROR "Sales Rep Load Error"
                     (Some ("Could not load sales rep record for ID " +:+ salesRepId
                            +:+ ": " +:+ message e)) ]
             end)
  ∧ (Js.truthy salesRepId = true →
     history_after (Modular.getSenderId w salesRepId) () h
     = h ++ RecordLoad EMPLOYEE salesRepId
          :: match record_load w h EMPLOYEE salesRepId with
             | inr _ => []
             | inl e =>
                 [ Log ERROR "Sales Rep Load Error"
                     (Some ("Could not load sales rep record for ID " +:+ salesRepId
                            +:+ ": " +:+ message e)) ]
             end).
Proof.
  split; [done|]. split; [done|]. split; intros Hid.
  - unfold history_after, Primary.getSenderId, search_lookupFields_employee, log, try_catch,
      bind, host.
    rewrite Hid. simpl.
    destruct (lookup_employee w h salesRepId) as [e|salesRepEmail]; simpl;
      [by rewrite <- app_assoc|].
    destruct (Js.truthy salesRepEmail); simpl; [done | by rewrite <- app_assoc].
  - unfold history_after, Modular.getSenderId, record_load_, log, call, try_catch, bind, host.
    rewrite Hid.
    destruct (record_load w h EMPLOYEE salesRepId) as [e|salesRepRecord]; simpl;
      [by rewrite <- app_assoc|].
    by destruct (Js.truthy (getValue salesRepRecord "email")).
Qed.

Lemma sender_resolution_in_the_history_witness :
  history_after (Primary.getSenderId (Sample.world []) (Some "43") "Globex") () []
  = [ LookupFields EMPLOYEE "43";
      Log AUDIT "Sales Rep Missing Email"
        (Some "Sales rep for customer Globex has no email. Using admin ID.") ]
  ∧ history_after (Modular.getSenderId (Sample.world []) "43") () []
    = [RecordLoad EMPLOYEE "43"].
Proof.
  destruct (sender_resolution_in_the_history (Sample.world []) [] "43" "Globex")
    as (_ & _ & Hp & Hm).
  split; [apply Hp | apply Hm]; reflexivity.
Defined.

End Sender_trace.

(** ** The order in which the customers are handled *)

Section Visiting_order.
Import Host Run Api Logic Spec.

Lemma customer_loads_app h h' :
  customer_loads (h ++ h') = customer_loads h ++ customer_loads h'.
Proof. unfold customer_loads. by rewrite omap_app. Qed.

Lemma wp_for_each_parts {S} read (xs : list string) (body : string → M S unit) s h :
  (∀ x s h,
     ∃ part, (body x s h).1.1 = Normal () ∧ (body x s h).2 = h ++ part
             ∧ customer_part read x part) →
  (∀ x, customer_load (read x) = Some x) →
  wp (for_each xs body)
    (λ o _ h', o = Normal () ∧ customer_loads h' = customer_loads h ++ xs) s h.
Proof.
  intros Hbody Hread. unfold wp.
  destruct (for_each_parts read xs body s h Hbody) as (Ho & parts & -> & Hparts).
  split; [done|]. by rewrite customer_loads_app, (parts_loads read xs parts).
Qed.

Lemma keys_nil {V} (o : JsObject.t V) : o.*1 = [] → JsObject.keys o = [].
Proof. intros Ho. apply fmap_nil_inv in Ho. by subst o. Qed.

Lemma primary_execute_visits w h rows :
  search_run w Primary.search_options = inr rows →
  ∃ groups : Groups,
    groups.*1 = customers_of (stored_rows rows)
    ∧ customer_loads (history_after (Primary.execute w) () h)
      = customer_loads h ++ JsObject.keys groups.
Proof.
  intros Hsearch.
  destruct (primary_search_days w rows
              (h ++ [Log AUDIT "Script Started"
                       (Some "Monthly Overdue Invoice Email Notification")]) Hsearch)
    as (groups & h1 & nows & Hrun & Hids & _).
  exists groups. split; [done|].
  assert (Hquiet : customer_loads h1 = customer_loads h).
  { assert (Hcalls : only_calls grouping_call (Primary.searchOverdueInvoices w : M unit Groups))
      by (repeat calls_step).
    specialize (Hcalls () (h ++ [Log AUDIT "Script Started"
                                   (Some "Monthly Overdue Invoice Email Notification")])).
    rewrite Hrun in Hcalls. simpl in Hcalls.
    apply grouping_call_quiet in Hcalls as [-> _].
    rewrite customer_loads_snoc. simpl. by rewrite app_nil_r. }
  change (wp (Primary.execute w)
            (λ _ _ h', customer_loads h' = customer_loads h ++ JsObject.keys groups) () h).
  unfold Primary.execute. wp_step. wp_step. wp_step. wp_step.
  unfold wp at 1. rewrite Hrun. cbn [fst snd].
  wp_step.
  - apply Nat.eqb_eq, nil_length_inv in Heqb. rewrite Heqb. wp_steps.
    rewrite customer_loads_snoc, Hquiet. done.
  - wp_steps. unfold Primary.processCustomerNotifications.
    eapply wp_mono;
      [|apply (wp_for_each_parts (LookupFields CUSTOMER));
          [intros x [] h2; apply primary_process_customer_part | done]].
    intros o [] h2 [-> Hloads]. wp_steps.
    rewrite !customer_loads_snoc in *. simpl in *. rewrite !app_nil_r in *. congruence.
Qed.

Lemma modular_execute_visits w h rows :
  search_run w Modular.search_options = inr rows →
  (∀ r, r ∈ rows → JsObject.inherited (getValue r "entity") = false) →
  ∃ groups : Groups,
    groups.*1 = customers_of (with_customer rows)
    ∧ customer_loads (history_after (Modular.execute w) () h)
      = customer_loads h ++ JsObject.keys groups.
Proof.
  intros Hsearch Hrows.
  destruct (modular_search_days w rows h Hsearch Hrows)
    as (groups & h1 & nows & Hrun & Hids & _).
  exists groups. split; [done|].
  assert (Hquiet : customer_loads h1 = customer_loads h).
  { assert (Hcalls : only_calls grouping_call (Modular.getOverdueInvoices w : M unit Groups))
      by (repeat calls_step).
    specialize (Hcalls () h). rewrite Hrun in Hcalls. simpl in Hcalls.
    by apply grouping_call_quiet in Hcalls as [-> _]. }
  change (wp (Modular.execute w)
            (λ _ _ h', customer_loads h' = customer_loads h ++ JsObject.keys groups) () h).
  unfold Modular.execute. wp_step.
  unfold wp at 1. rewrite Hrun. cbn [fst snd].
  wp_step.
  - apply Nat.eqb_eq, nil_length_inv in Heqb. rewrite Heqb. wp_steps.
    rewrite customer_loads_snoc, Hquiet. done.
  - unfold Modular.notifyCustomers.
    eapply wp_mono;
      [|apply (wp_for_each_parts (RecordLoad CUSTOMER));
          [intros x [] h2; apply modular_notify_customer_part | done]].
    intros o [] h2 [-> Hloads]. congruence.
Qed.

Lemma inline_execute_visits w h rows :
  search_run w Inline.search_options = inr rows →
  (∀ r, r ∈ rows → JsObject.inherited (getValue r "entity") = false) →
  ∃ groups : Groups,
    groups.*1 = customers_of (with_customer rows)
    ∧ customer_loads (history_after (Inline.execute w) () h)
      = customer_loads h ++ JsObject.keys groups.
Proof.
  intros Hsearch Hrows.
  destruct (inline_group_days w rows (h ++ [Log AUDIT "Script Started" None]) Hsearch Hrows)
    as (v & h1 & nows & Hrun & Hcount & Hids & _).
  exists (Inline.customerInvoices v). split; [done|].
  assert (Hquiet : customer_loads h1 = customer_loads h).
  { assert (Hcalls : only_calls grouping_call (Inline.group_invoices w : M Inline.Vars unit))
      by (repeat calls_step).
    specialize (Hcalls Inline.initial (h ++ [Log AUDIT "Script Started" None])).
    rewrite Hrun in Hcalls. simpl in Hcalls.
    apply grouping_call_quiet in Hcalls as [-> _].
    rewrite customer_loads_snoc. simpl. by rewrite app_nil_r. }
  change (wp (Inline.execute w)
            (λ _ _ h',
               customer_loads h' = customer_loads h ++ JsObject.keys (Inline.customerInvoices v))
            () h).
  unfold Inline.execute. wp_step. wp_step. wp_step. wp_step.
  unfold wp at 1. rewrite Hrun. cbn [fst snd].
  wp_step. wp_step. wp_step.
  - apply Z.eqb_eq in Heqb. rewrite Hcount in Heqb.
    assert (Hnone : with_customer rows = []) by (apply nil_length_inv; lia).
    rewrite Hnone in Hids. rewrite (keys_nil _ Hids). wp_steps.
    rewrite customer_loads_snoc, Hquiet. done.
  - wp_steps. unfold Inline.notify_customers. wp_steps.
    eapply wp_mono;
      [|apply (wp_for_each_parts (RecordLoad CUSTOMER));
          [intros x v2 h2; apply inline_notify_customer_part | done]].
    intros o v2 h2 [-> Hloads]. wp_steps.
    rewrite !customer_loads_snoc in *. simpl in *. rewrite !app_nil_r in *. congruence.
Qed.

(** X16.  The order in which a run handles the customers.  When the
    search delivers [rows], [execute] reads the customer records in this
    order: first the customers whose identifier is an array index (the
    decimal numeral of an integer from 0 to 2^32 - 2), in ascending
    numeric order, whatever the order of the search; then the other
    customers, in the order in which their first rows came.  The customers
    are those of the rows that the script stores: in the primary script
    the first row of each key, in the two other scripts every row with a
    customer (none of them named as a member of [Object.prototype]). *)
Theorem customers_are_visited_in_numeric_order (w : World) (h : History)
    (rows : list Values) :
  (search_run w Primary.search_options = inr rows →
   ∃ visited,
     customer_loads (history_after (Primary.execute w) () h) = customer_loads h ++ visited
     ∧ in_visiting_order (customers_of (stored_rows rows)) visited)
  ∧ ((∀ r, r ∈ rows → JsObject.inherited (getValue r "entity") = false) →
     (search_run w Modular.search_options = inr rows →
      ∃ visited,
        customer_loads (history_after (Modular.execute w) () h) = customer_loads h ++ visited
        ∧ in_visiting_order (customers_of (with_customer rows)) visited)
     ∧ (search_run w Inline.search_options = inr rows →
        ∃ visited,
          customer_loads (history_after (Inline.execute w) () h) = customer_loads h ++ visited
          ∧ in_visiting_order (customers_of (with_customer rows)) visited)).
Proof.
  split; [|intros Hrows; split]; intros Hsearch.
  - destruct (primary_execute_visits w h rows Hsearch) as (groups & <- & Hloads).
    exists (JsObject.keys groups). split; [done | apply keys_in_visiting_order].
  - destruct (modular_execute_visits w h rows Hsearch Hrows) as (groups & <- & Hloads).
    exists (JsObject.keys groups). split; [done | apply keys_in_visiting_order].
  - destruct (inline_execute_visits w h rows Hsearch Hrows) as (groups & <- & Hloads).
    exists (JsObject.keys groups). split; [done | apply keys_in_visiting_order].
Qed.

Lemma customers_are_visited_in_numeric_order_witness :
  ∃ visited,
    customer_loads (history_after (Modular.execute (Sample.world Sample.unordered_rows)) () [])
    = [] ++ visited
    ∧ in_visiting_order ["10"; "b"; "9"] visited.
Proof.
  destruct (customers_are_visited_in_numeric_order (Sample.world Sample.unordered_rows) []
              Sample.unordered_rows) as [_ Hothers].
  destruct Hothers as [Hmodular _].
  - intros r Hr. unfold Sample.unordered_rows in Hr.
    repeat (apply elem_of_cons in Hr as [->|Hr]; [reflexivity|]).
    by apply elem_of_nil in Hr.
  - exact (Hmodular eq_refl).
Defined.

(** The run of the witness: the search delivers the customers 10, b, 9,
    and the records are read in the order 9, 10, b. *)
Example numeric_customers_come_first :
  customer_loads (history_after (Modular.execute (Sample.world Sample.unordered_rows)) () [])
  = ["9"; "10"; "b"]
  ∧ customer_loads (history_after (Primary.execute (Sample.world Sample.unordered_rows)) () [])
    = ["9"; "10"; "b"]
  ∧ customer_loads (history_after (Inline.execute (Sample.world Sample.unordered_rows)) () [])
    = ["9"; "10"; "b"].
Proof. by vm_compute. Qed.

End Visiting_order.
